(** * CalDraCor -> TextGrid: the rule pipeline of [transform_caldracor_tgr.py]

    A shallow embedding of the eight TEI mutation rules of
    [src/transform_caldracor_tgr.py] over an lxml-style element tree, and
    the properties of the rules stated in the specification.

    Python [str] values are sequences of Unicode code points; elements are
    lxml elements (tag in Clark notation, ordered attributes, [text],
    children, [tail]); comments and processing instructions are kept as
    leaves because they carry a [tail] that [itertext] yields. *)

From Stdlib Require Import List NArith Arith Bool String Ascii Lia Sorted.
Import ListNotations.

Set Implicit Arguments.

(* ------------------------------------------------------------------ *)
(** ** Python strings *)

Module Str.

(** A Python [str]: the list of its code points. *)
Definition str := list N.

(** An ASCII literal as a [str]. *)
Definition u (s : string) : str :=
  map N_of_ascii (list_ascii_of_string s).

Definition eqb (a b : str) : bool :=
  if list_eq_dec N.eq_dec a b then true else false.

(** [str.isspace] on one code point: the characters [str.strip()]
    removes when called without argument. *)
Definition is_space (c : N) : bool :=
  ((9 <=? c) && (c <=? 13) || (28 <=? c) && (c <=? 32)
   || (c =? 133) || (c =? 160) || (c =? 5760)
   || (8192 <=? c) && (c <=? 8202)
   || (c =? 8232) || (c =? 8233) || (c =? 8239) || (c =? 8287)
   || (c =? 12288))%N.

Fixpoint lstrip (s : str) : str :=
  match s with
  | c :: s' => if is_space c then lstrip s' else s
  | [] => []
  end.

Definition rstrip (s : str) : str := rev (lstrip (rev s)).

(** [s.strip()] *)
Definition strip (s : str) : str := rstrip (lstrip s).

(** [sep.join(parts)] *)
Fixpoint join (sep : str) (parts : list str) : str :=
  match parts with
  | [] => []
  | [p] => p
  | p :: rest => p ++ sep ++ join sep rest
  end.

(** [s.replace(a, b)] for one-character [a] and [b]. *)
Definition replace1 (a b : N) (s : str) : str :=
  map (fun c => if N.eqb c a then b else c) s.

Fixpoint starts_with (needle s : str) : bool :=
  match needle, s with
  | [], _ => true
  | _ :: _, [] => false
  | a :: needle', b :: s' => N.eqb a b && starts_with needle' s'
  end.

(** [needle in s] *)
Fixpoint contains (needle s : str) : bool :=
  starts_with needle s
  || match s with
     | [] => false
     | _ :: s' => contains needle s'
     end.

(** Truthiness of a [str] ([if s:]). *)
Definition truthy (s : str) : bool :=
  match s with [] => false | _ => true end.

(** Truthiness of an optional [str] ([if v:] where [v] may be [None]). *)
Definition otruthy (o : option str) : bool :=
  match o with Some s => truthy s | None => false end.

(** [o or ""] *)
Definition or_empty (o : option str) : str :=
  match o with Some s => s | None => [] end.

End Str.

Import Str.

(* ------------------------------------------------------------------ *)
(** ** Attribute maps

    lxml keeps the attributes of an element in document order with
    unique keys: [set] overwrites the value in place when the key exists
    and appends the pair otherwise. *)

Module Attr.

Definition attrs := list (str * str).

(** [el.get(k)] *)
Fixpoint get (k : str) (a : attrs) : option str :=
  match a with
  | [] => None
  | (k', v) :: a' => if Str.eqb k' k then Some v else get k a'
  end.

(** [el.set(k, v)] *)
Fixpoint set (k v : str) (a : attrs) : attrs :=
  match a with
  | [] => [(k, v)]
  | (k', v') :: a' =>
      if Str.eqb k' k then (k, v) :: a' else (k', v') :: set k v a'
  end.

End Attr.

(* ------------------------------------------------------------------ *)
(** ** The element tree *)

Unset Elimination Schemes.

(** An lxml node.  [Elem tag attrib text children tail] is an element;
    [Misc content tail] is a comment or processing instruction, which no
    name test selects and which has no children. *)
Inductive node : Type :=
| Elem (tag : str) (attrib : Attr.attrs) (text : option str)
       (children : list node) (tail : option str)
| Misc (content : str) (tail : option str).

Set Elimination Schemes.

Section NodeInduction.
Variable P : node -> Prop.
Hypothesis P_Elem : forall t a x cs tl, Forall P cs -> P (Elem t a x cs tl).
Hypothesis P_Misc : forall c tl, P (Misc c tl).

Fixpoint node_tree_ind (n : node) : P n :=
  match n with
  | Elem t a x cs tl =>
      P_Elem t a x tl
        ((fix go (l : list node) : Forall P l :=
            match l with
            | [] => Forall_nil P
            | c :: l' => Forall_cons c (node_tree_ind c) (go l')
            end) cs)
  | Misc c tl => P_Misc c tl
  end.
End NodeInduction.

Definition children_of (n : node) : list node :=
  match n with Elem _ _ _ cs _ => cs | Misc _ _ => [] end.

Definition attrib_of (n : node) : Attr.attrs :=
  match n with Elem _ a _ _ _ => a | Misc _ _ => [] end.

Definition text_of (n : node) : option str :=
  match n with Elem _ _ x _ _ => x | Misc _ _ => None end.

Definition tail_of (n : node) : option str :=
  match n with Elem _ _ _ _ tl => tl | Misc _ tl => tl end.

(** [Some tag] for an element, [None] for a comment or PI. *)
Definition tag_of (n : node) : option str :=
  match n with Elem t _ _ _ _ => Some t | Misc _ _ => None end.

(** The name test of a path step: the node is an element with this tag. *)
Definition has_tag (t : str) (n : node) : bool :=
  match n with Elem t' _ _ _ _ => Str.eqb t' t | Misc _ _ => false end.

(** The predicate [[@k="v"]]. *)
Definition attr_is (k v : str) (n : node) : bool :=
  match Attr.get k (attrib_of n) with
  | Some v' => Str.eqb v' v
  | None => false
  end.

(** [etree.SubElement(parent, tag)] followed by the attribute and text
    assignments made on the fresh element: a new element has no tail. *)
Definition new_elem (t : str) (a : Attr.attrs) (x : option str)
    (cs : list node) : node :=
  Elem t a x cs None.

(* ------------------------------------------------------------------ *)
(** ** Constants of the script *)

Definition TEI_NS : str := u "http://www.tei-c.org/ns/1.0".
Definition XML_NS : str := u "http://www.w3.org/XML/1998/namespace".

(** [f"{{{ns}}}{local}"] *)
Definition clark (ns loc : str) : str := u "{" ++ ns ++ u "}" ++ loc.

Definition tei (loc : string) : str := clark TEI_NS (u loc).

Definition XML_ID : str := clark XML_NS (u "id").

(** "Tracing Regularities in Pedro Calderón de la Barca's Dramatic
    OEuvre with a Computational Approach (508056339)" *)
Definition PUBLISHER_TEXT : str :=
  u "Tracing Regularities in Pedro Calder" ++ [243%N]
    ++ u "n de la Barca's Dramatic OEuvre "
    ++ u "with a Computational Approach (508056339)".

Definition ORCID_ROJAS : str := u "https://orcid.org/0000-0002-8916-4997".

(* ------------------------------------------------------------------ *)
(** ** The scanning rules

    The first five rules have the form
    [for el in root.xpath("//..."): body(el)].  The query returns its
    matches in document order, so an element is handled before the
    elements of its subtree, and what the body decides for an element
    depends on that element alone.  Each rule is therefore written as a
    function on the tree that applies the body where the query matches
    and goes on into the children the element had; the elements a body
    appends are new and are not visited.  The same rules written as folds
    over the list of references are given further down and proved to
    compute the same trees. *)

(* ------------------------------------------------------------------ *)
(** ** Rule 1: [add_wikidata_corresp] *)

(** The body of the loop, on one selected [idno]. *)
Definition wikidata_body (a : Attr.attrs) (x : option str) : Attr.attrs :=
  let qid := strip (or_empty x) in
  if truthy qid && negb (otruthy (Attr.get (u "corresp") a))
  then Attr.set (u "corresp") (u "https://www.wikidata.org/wiki/" ++ qid) a
  else a.

(** [//tei:idno[@type="wikidata"]] *)
Definition is_wikidata_idno (n : node) : bool :=
  has_tag (tei "idno") n && attr_is (u "type") (u "wikidata") n.

Fixpoint add_wikidata_corresp (n : node) : node :=
  match n with
  | Elem t a x cs tl =>
      Elem t (if is_wikidata_idno n then wikidata_body a x else a) x
           (map add_wikidata_corresp cs) tl
  | Misc _ _ => n
  end.

(* ------------------------------------------------------------------ *)
(** ** Rule 2: [convert_pnd_to_gnd] *)

Definition pnd_body (a : Attr.attrs) (x : option str) : Attr.attrs :=
  let num := strip (or_empty x) in
  let a1 := Attr.set (u "type") (u "gnd") a in
  if truthy num && negb (otruthy (Attr.get (u "corresp") a1))
  then Attr.set (u "corresp") (u "https://d-nb.info/gnd/" ++ num) a1
  else a1.

(** [//tei:idno[@type="pnd"]] *)
Definition is_pnd_idno (n : node) : bool :=
  has_tag (tei "idno") n && attr_is (u "type") (u "pnd") n.

Fixpoint convert_pnd_to_gnd (n : node) : node :=
  match n with
  | Elem t a x cs tl =>
      Elem t (if is_pnd_idno n then pnd_body a x else a) x
           (map convert_pnd_to_gnd cs) tl
  | Misc _ _ => n
  end.

(* ------------------------------------------------------------------ *)
(** ** Rule 3: [ensure_langusage_spanish] *)

(** [<langUsage><language ident="spa">Spanish</language></langUsage>] *)
Definition langusage_block : node :=
  new_elem (tei "langUsage") [] None
    [new_elem (tei "language") [(u "ident", u "spa")] (Some (u "Spanish")) []].

(** What the loop body appends to a [profileDesc] with children [cs]:
    [profile_desc.find("tei:langUsage")] looks at the child elements. *)
Definition langusage_added (cs : list node) : list node :=
  if existsb (has_tag (tei "langUsage")) cs then [] else [langusage_block].

Fixpoint ensure_langusage_spanish (n : node) : node :=
  match n with
  | Elem t a x cs tl =>
      Elem t a x
           (map ensure_langusage_spanish cs
              ++ (if Str.eqb t (tei "profileDesc") then langusage_added cs
                  else []))
           tl
  | Misc _ _ => n
  end.

(* ------------------------------------------------------------------ *)
(** ** Rule 4: [ensure_textclass_keywords] *)

Definition BK_SCHEME : str := u "http://uri.gbv.de/terminology/bk/".
Definition GND_SCHEME : str := u "https://d-nb.info/gnd/".
Definition TG_SCHEME : str :=
  u "http://textgrid.info/namespaces/metadata/core/2010#genre".

Definition kw_bk : node :=
  new_elem (tei "keywords") [(u "scheme", BK_SCHEME)] None
    [new_elem (tei "term")
       [(u "type", u "basicClassification"); (u "key", u "17.97")]
       (Some (u "Texts by a single author")) [];
     new_elem (tei "term")
       [(u "type", u "basicClassification"); (u "key", u "18.30")]
       (Some (u "Spanish language and literature")) []].

(** The term text is "Theaterstück". *)
Definition kw_gnd : node :=
  new_elem (tei "keywords") [(u "scheme", GND_SCHEME)] None
    [new_elem (tei "term")
       [(u "type", u "testament");
        (u "ref", u "http://d-nb.info/gnd/4304080-9")]
       (Some (u "Theaterst" ++ [252%N] ++ u "ck")) []].

Definition kw_tg : node :=
  new_elem (tei "keywords") [(u "scheme", TG_SCHEME)] None
    [new_elem (tei "term") [(u "type", u "genre-tg")]
       (Some (u "drama")) []].

(** [tei:keywords[@scheme="..."]] *)
Definition is_keywords (scheme : str) (n : node) : bool :=
  has_tag (tei "keywords") n && attr_is (u "scheme") scheme n.

(** [text_class.xpath('tei:keywords[@scheme=...]')] is non-empty. *)
Definition has_group (scheme : str) (cs : list node) : bool :=
  existsb (is_keywords scheme) cs.

(** One [if not text_class.xpath(...)] block: what it appends. *)
Definition group_added (scheme : str) (block : node) (cs : list node)
  : list node :=
  if has_group scheme cs then [] else [block].

(** The three blocks in order; each check sees the children as the
    previous block left them. *)
Definition keywords_added (cs : list node) : list node :=
  let a1 := group_added BK_SCHEME kw_bk cs in
  let a2 := group_added GND_SCHEME kw_gnd (cs ++ a1) in
  let a3 := group_added TG_SCHEME kw_tg (cs ++ a1 ++ a2) in
  a1 ++ a2 ++ a3.

Fixpoint ensure_textclass_keywords (n : node) : node :=
  match n with
  | Elem t a x cs tl =>
      Elem t a x
           (map ensure_textclass_keywords cs
              ++ (if Str.eqb t (tei "textClass") then keywords_added cs
                  else []))
           tl
  | Misc _ _ => n
  end.

(* ------------------------------------------------------------------ *)
(** ** Rule 5: [normalize_persname_rojas] *)

Definition opt_list (A : Type) (o : option A) : list A :=
  match o with Some v => [v] | None => [] end.

(** What [itertext] yields for a node below the start element: the text
    of an element, the texts of its subtree, then its tail; for a comment
    or processing instruction only the tail. *)
Fixpoint texts_with_tail (n : node) : list str :=
  match n with
  | Elem _ _ x cs tl => opt_list x ++ flat_map texts_with_tail cs ++ opt_list tl
  | Misc _ tl => opt_list tl
  end.

(** [el.itertext()]: the tail of the start element is not yielded. *)
Definition itertext (n : node) : list str :=
  match n with
  | Elem _ _ x cs _ => opt_list x ++ flat_map texts_with_tail cs
  | Misc _ _ => []
  end.

(** [" ".join(pers.itertext()).strip().replace("\xa0", " ")] *)
Definition full_text (pers : node) : str :=
  replace1 160 32 (strip (join (u " ") (itertext pers))).

(** The heuristic of the loop, negated in the source to [continue]. *)
Definition rojas_heuristic (pers : node) : bool :=
  match Attr.get XML_ID (attrib_of pers) with
  | Some v => Str.eqb v (u "rojas")
  | None => false
  end
  || contains (u "Rojas") (full_text pers)
     && contains (u "Antonio") (full_text pers).

(** [pers.clear()] keeps the tag and drops attributes, text, children
    and tail; then the two attributes are set and the two children added. *)
Definition rebuilt (t : str) : node :=
  Elem t
       (Attr.set (u "corresp") ORCID_ROJAS (Attr.set XML_ID (u "rojas") []))
       None
       [new_elem (tei "forename") [] (Some (u "Antonio")) [];
        new_elem (tei "surname") [] (Some (u "Rojas Castro")) []]
       None.

(** One iteration of the loop on the element [pers]. *)
Definition persname_body (pers : node) : node :=
  match pers with
  | Elem t _ _ _ _ => if rojas_heuristic pers then rebuilt t else pers
  | Misc _ _ => pers
  end.

(** [//tei:respStmt/tei:persName]: [under] tells whether the parent is a
    [respStmt] element. *)
Definition is_resp_persname (under : bool) (n : node) : bool :=
  under && has_tag (tei "persName") n.

(** The loop over the matches in document order.  An entry is judged on
    the tree as it is when the loop reaches it, which is the input tree:
    entries before it in document order are its ancestors or lie in other
    subtrees.  The content of a rebuilt entry is detached from the
    document, so the entries inside it no longer contribute. *)
Fixpoint normalize_from (under : bool) (n : node) : node :=
  match n with
  | Elem t a x cs tl =>
      if is_resp_persname under n && rojas_heuristic n
      then rebuilt t
      else Elem t a x
                (map (normalize_from (Str.eqb t (tei "respStmt"))) cs) tl
  | Misc _ _ => n
  end.

Definition normalize_persname_rojas (root : node) : node :=
  normalize_from false root.

(* ------------------------------------------------------------------ *)
(** ** Element references

    The remaining rules work on the first match of a query.  A reference
    to an element of the tree is the list of child indices leading to it
    from the root. *)

Definition path := list nat.

Fixpoint get_at (p : path) (n : node) : option node :=
  match p with
  | [] => Some n
  | i :: p' =>
      match nth_error (children_of n) i with
      | Some c => get_at p' c
      | None => None
      end
  end.

Fixpoint update_nth (A : Type) (i : nat) (f : A -> A) (l : list A) : list A :=
  match l, i with
  | [], _ => []
  | c :: l', O => f c :: l'
  | c :: l', S i' => c :: update_nth i' f l'
  end.

(** The tree in which the element at [p] has been mutated by [f]. *)
Fixpoint update_at (p : path) (f : node -> node) (n : node) : node :=
  match p with
  | [] => f n
  | i :: p' =>
      match n with
      | Elem t a x cs tl => Elem t a x (update_nth i (update_at p' f) cs) tl
      | Misc _ _ => n
      end
  end.

(** A query step sees the node and the tags of its ancestors, nearest
    first.  [select sel anc n] lists, in document order, the matches in
    the subtree of [n] (itself included) with the element found there. *)
Fixpoint select (sel : list str -> node -> bool) (anc : list str) (n : node)
  : list (path * node) :=
  (if sel anc n then [([], n)] else [])
  ++ match n with
     | Elem t _ _ cs _ =>
         (fix go (i : nat) (l : list node) : list (path * node) :=
            match l with
            | [] => []
            | c :: l' =>
                map (fun m => (i :: fst m, snd m)) (select sel (t :: anc) c)
                ++ go (S i) l'
            end) 0 cs
     | Misc _ _ => []
     end.

Fixpoint select_list (sel : list str -> node -> bool) (anc : list str)
    (i : nat) (l : list node) : list (path * node) :=
  match l with
  | [] => []
  | c :: l' =>
      map (fun m => (i :: fst m, snd m)) (select sel anc c)
      ++ select_list sel anc (S i) l'
  end.

(** The matches among the proper descendants of [n], as with
    [root.find(".//...")]. *)
Definition select_desc (sel : list str -> node -> bool) (n : node)
  : list (path * node) :=
  match n with
  | Elem t _ _ cs _ => select_list sel [t] 0 cs
  | Misc _ _ => []
  end.

Definition parent_is (t : str) (anc : list str) : bool :=
  match anc with
  | t' :: _ => Str.eqb t' t
  | [] => false
  end.

(** [el.text = v] *)
Definition set_text (v : str) (n : node) : node :=
  match n with
  | Elem t a _ cs tl => Elem t a (Some v) cs tl
  | Misc _ _ => n
  end.

(** [etree.SubElement(el, ...)]: the new element becomes the last child. *)
Definition append_child (c : node) (n : node) : node :=
  match n with
  | Elem t a x cs tl => Elem t a x (cs ++ [c]) tl
  | Misc _ _ => n
  end.

(** Mutate the first child that satisfies [p], if there is one. *)
Fixpoint update_first (p : node -> bool) (f : node -> node) (cs : list node)
  : option (list node) :=
  match cs with
  | [] => None
  | c :: cs' =>
      if p c then Some (f c :: cs')
      else option_map (cons c) (update_first p f cs')
  end.

(* ------------------------------------------------------------------ *)
(** ** Rule 6: [ensure_publisher] *)

(** [//tei:fileDesc/tei:publicationStmt] *)
Definition is_pub_stmt (anc : list str) (n : node) : bool :=
  has_tag (tei "publicationStmt") n && parent_is (tei "fileDesc") anc.

Definition pub_stmts (root : node) : list (path * node) :=
  select is_pub_stmt [] root.

(** On the chosen [publicationStmt]: find the first [publisher] child or
    append a new one, and set its text. *)
Definition publisher_body (pub_stmt : node) : node :=
  match pub_stmt with
  | Elem t a x cs tl =>
      match update_first (has_tag (tei "publisher"))
                         (set_text PUBLISHER_TEXT) cs with
      | Some cs' => Elem t a x cs' tl
      | None =>
          Elem t a x
               (cs ++ [new_elem (tei "publisher") [] (Some PUBLISHER_TEXT) []])
               tl
      end
  | Misc _ _ => pub_stmt
  end.

Definition ensure_publisher (root : node) : node :=
  match pub_stmts root with
  | [] => root
  | (p, _) :: _ => update_at p publisher_body root
  end.

(* ------------------------------------------------------------------ *)
(** ** Rule 7: [ensure_caldracor_id] *)

(** [tei:idno[@type="caldracor"]] *)
Definition is_caldracor_idno (n : node) : bool :=
  has_tag (tei "idno") n && attr_is (u "type") (u "caldracor") n.

Definition caldracor_idno (basename : str) : node :=
  new_elem (tei "idno") [(u "type", u "caldracor")] (Some basename) [].

Definition ensure_caldracor_id (root : node) (basename : str) : node :=
  match pub_stmts root with
  | [] => root
  | (p, pub_stmt) :: _ =>
      if existsb is_caldracor_idno (children_of pub_stmt) then root
      else update_at p (append_child (caldracor_idno basename)) root
  end.

(* ------------------------------------------------------------------ *)
(** ** Rule 8: [ensure_creation_from_events] *)

(** [//tei:standOff/tei:listEvent/tei:event[@type=ty]] *)
Definition is_event (ty : str) (anc : list str) (n : node) : bool :=
  has_tag (tei "event") n && attr_is (u "type") ty n
  && match anc with
     | p :: g :: _ =>
         Str.eqb p (tei "listEvent") && Str.eqb g (tei "standOff")
     | _ => false
     end.

(** [events[0] if events else None] *)
Definition first_event (ty : str) (root : node) : option node :=
  match select (is_event ty) [] root with
  | (_, ev) :: _ => Some ev
  | [] => None
  end.

Definition DATE_ATTRS : list str := [u "when"; u "notBefore"; u "notAfter"].

(** One turn of the loop over the date attributes: the attribute is
    copied when the event has it with a non-empty value. *)
Definition copy_step (event_el : node) (date : Attr.attrs) (attr : str)
  : Attr.attrs :=
  match Attr.get attr (attrib_of event_el) with
  | Some val => if truthy val then Attr.set attr val date else date
  | None => date
  end.

(** The attributes of the new [date] after the loop. *)
Definition copy_dates (event_el : node) : Attr.attrs :=
  fold_left (copy_step event_el) DATE_ATTRS [].

Definition creation_block (event_el : node) : node :=
  new_elem (tei "creation") [] None
    [new_elem (tei "date") (copy_dates event_el) None []].

(** The event the rule takes its dates from. *)
Definition chosen_event (root : node) : option node :=
  match first_event (u "written") root with
  | Some ev => Some ev
  | None => first_event (u "print") root
  end.

Definition is_profile_desc (anc : list str) (n : node) : bool :=
  has_tag (tei "profileDesc") n.

Definition ensure_creation_from_events (root : node) : node :=
  match select_desc is_profile_desc root with
  | [] => root
  | (p, profile_desc) :: _ =>
      if existsb (has_tag (tei "creation")) (children_of profile_desc)
      then root
      else
        match chosen_event root with
        | None => root
        | Some event_el =>
            update_at p (append_child (creation_block event_el)) root
        end
  end.

(* ------------------------------------------------------------------ *)
(** ** The pipeline of [process_file] *)

Inductive rule : Type :=
| AddWikidataCorresp
| ConvertPndToGnd
| EnsureLangusageSpanish
| EnsureTextclassKeywords
| NormalizePersnameRojas
| EnsurePublisher
| EnsureCaldracorId
| EnsureCreationFromEvents.

Definition all_rules : list rule :=
  [AddWikidataCorresp; ConvertPndToGnd; EnsureLangusageSpanish;
   EnsureTextclassKeywords; NormalizePersnameRojas; EnsurePublisher;
   EnsureCaldracorId; EnsureCreationFromEvents].

(** One rule applied to the tree; [basename] is the document id. *)
Definition apply_rule (basename : str) (r : rule) (root : node) : node :=
  match r with
  | AddWikidataCorresp => add_wikidata_corresp root
  | ConvertPndToGnd => convert_pnd_to_gnd root
  | EnsureLangusageSpanish => ensure_langusage_spanish root
  | EnsureTextclassKeywords => ensure_textclass_keywords root
  | NormalizePersnameRojas => normalize_persname_rojas root
  | EnsurePublisher => ensure_publisher root
  | EnsureCaldracorId => ensure_caldracor_id root basename
  | EnsureCreationFromEvents => ensure_creation_from_events root
  end.

(** The eight calls of [process_file], in order. *)
Definition process_tree (basename : str) (root : node) : node :=
  fold_left (fun d r => apply_rule basename r d) all_rules root.

(* ------------------------------------------------------------------ *)
(** ** The five scanning rules as loops over references

    [for x in root.xpath(expr): body(x)] evaluates the query once and
    then mutates the elements one after the other.  With references as
    paths this is a fold of [update_at] over the matches; a reference
    into the old content of a cleared element no longer leads anywhere,
    and the update through it does nothing.  The recursive functions
    above are shown below to compute the same trees. *)

Definition for_each (refs : list (path * node)) (body : node -> node)
    (root : node) : node :=
  fold_left (fun d r => update_at (fst r) body d) refs root.

(** A body that assigns attributes. *)
Definition on_attrib (f : Attr.attrs -> option str -> Attr.attrs) (n : node)
  : node :=
  match n with
  | Elem t a x cs tl => Elem t (f a x) x cs tl
  | Misc _ _ => n
  end.

(** A body that appends the elements [f] computes from the children. *)
Definition add_children (f : list node -> list node) (n : node) : node :=
  match n with
  | Elem t a x cs tl => Elem t a x (cs ++ f cs) tl
  | Misc _ _ => n
  end.

Definition wikidata_loop (root : node) : node :=
  for_each (select (fun _ => is_wikidata_idno) [] root)
           (on_attrib wikidata_body) root.

Definition pnd_loop (root : node) : node :=
  for_each (select (fun _ => is_pnd_idno) [] root) (on_attrib pnd_body) root.

Definition langusage_loop (root : node) : node :=
  for_each (select (fun _ => has_tag (tei "profileDesc")) [] root)
           (add_children langusage_added) root.

Definition keywords_loop (root : node) : node :=
  for_each (select (fun _ => has_tag (tei "textClass")) [] root)
           (add_children keywords_added) root.

(** [//tei:respStmt/tei:persName] *)
Definition is_entry (anc : list str) (n : node) : bool :=
  is_resp_persname (parent_is (tei "respStmt") anc) n.

Definition persname_loop (root : node) : node :=
  for_each (select is_entry [] root) persname_body root.

(* ------------------------------------------------------------------ *)
(** ** Vocabulary of the properties *)

(** The node without its children: name, attributes, text and tail. *)
Definition shallow (n : node) : node :=
  match n with
  | Elem t a x _ tl => Elem t a x [] tl
  | Misc c tl => Misc c tl
  end.

(** [is_prefix p q]: the element at [q] lies in the subtree of the
    element at [p]. *)
Fixpoint is_prefix (p q : path) : bool :=
  match p, q with
  | [], _ => true
  | _ :: _, [] => false
  | i :: p', j :: q' => Nat.eqb i j && is_prefix p' q'
  end.

(** The elements on which a rule performs a mutation: the matches of
    its query that pass the guard of its loop body. *)

Definition wikidata_fires (anc : list str) (n : node) : bool :=
  is_wikidata_idno n
  && (truthy (strip (or_empty (text_of n)))
      && negb (otruthy (Attr.get (u "corresp") (attrib_of n)))).

Definition pnd_fires (anc : list str) (n : node) : bool :=
  is_pnd_idno n.

Definition langusage_fires (anc : list str) (n : node) : bool :=
  has_tag (tei "profileDesc") n
  && negb (existsb (has_tag (tei "langUsage")) (children_of n)).

Definition keywords_fires (anc : list str) (n : node) : bool :=
  has_tag (tei "textClass") n
  && negb (has_group BK_SCHEME (children_of n)
           && has_group GND_SCHEME (children_of n)
           && has_group TG_SCHEME (children_of n)).

Definition persname_fires (anc : list str) (n : node) : bool :=
  is_resp_persname (parent_is (tei "respStmt") anc) n && rojas_heuristic n.

Definition mutated (basename : str) (r : rule) (root : node) : list path :=
  match r with
  | AddWikidataCorresp => map fst (select wikidata_fires [] root)
  | ConvertPndToGnd => map fst (select pnd_fires [] root)
  | EnsureLangusageSpanish => map fst (select langusage_fires [] root)
  | EnsureTextclassKeywords => map fst (select keywords_fires [] root)
  | NormalizePersnameRojas => map fst (select persname_fires [] root)
  | EnsurePublisher =>
      match pub_stmts root with
      | [] => []
      | (p, _) :: _ => [p]
      end
  | EnsureCaldracorId =>
      match pub_stmts root with
      | [] => []
      | (p, pub_stmt) :: _ =>
          if existsb is_caldracor_idno (children_of pub_stmt) then []
          else [p]
      end
  | EnsureCreationFromEvents =>
      match select_desc is_profile_desc root with
      | [] => []
      | (p, profile_desc) :: _ =>
          if existsb (has_tag (tei "creation")) (children_of profile_desc)
          then []
          else match chosen_event root with
               | None => []
               | Some _ => [p]
               end
      end
  end.

(** Some [persName] entry in the subtree of [n] satisfies the heuristic;
    [under] tells whether the parent of [n] is a [respStmt]. *)
Fixpoint fires_in (under : bool) (n : node) : bool :=
  is_resp_persname under n && rojas_heuristic n
  || match n with
     | Elem t _ _ cs _ => existsb (fires_in (Str.eqb t (tei "respStmt"))) cs
     | Misc _ _ => false
     end.

(** No entry that fails the heuristic contains an entry that satisfies
    it. *)
Fixpoint settled (under : bool) (n : node) : bool :=
  match n with
  | Elem t _ _ cs _ =>
      if is_resp_persname under n
      then rojas_heuristic n
           || negb (existsb (fires_in (Str.eqb t (tei "respStmt"))) cs)
      else forallb (settled (Str.eqb t (tei "respStmt"))) cs
  | Misc _ _ => true
  end.

(** [tei:textClass] *)
Definition is_text_class (anc : list str) (n : node) : bool :=
  has_tag (tei "textClass") n.

(** [1] when the list has the group, [0] otherwise. *)
Definition group_count (scheme : str) (cs : list node) : nat :=
  if has_group scheme cs then 1 else 0.

(** The number of children an element has with a given tag. *)
Definition count_tag (t : str) (n : node) : nat :=
  List.length (filter (has_tag t) (children_of n)).

(** [el.find(tag)]: the first child element with this tag. *)
Definition find_child (t : str) (n : node) : option node :=
  List.find (has_tag t) (children_of n).

(** The tags of the ancestors of the element at [p], nearest first,
    when the root has ancestors [anc]. *)
Fixpoint anc_at (p : path) (anc : list str) (n : node) : list str :=
  match p with
  | [] => anc
  | i :: p' =>
      match n with
      | Elem t _ _ cs _ =>
          match nth_error cs i with
          | Some c => anc_at p' (t :: anc) c
          | None => anc
          end
      | Misc _ _ => anc
      end
  end.

(** Document order on references: an element comes before the elements
    of its subtree, and before everything under a later sibling. *)
Fixpoint doc_before (p q : path) : bool :=
  match p, q with
  | [], [] => false
  | [], _ :: _ => true
  | _ :: _, [] => false
  | i :: p', j :: q' => (i <? j) || (i =? j) && doc_before p' q'
  end.

Definition before (p q : path) : Prop := doc_before p q = true.

(** [e], found at [q], is the first match of the query in document
    order. *)
Definition first_match (sel : list str -> node -> bool) (root : node)
    (q : path) (e : node) : Prop :=
  get_at q root = Some e
  /\ sel (anc_at q [] root) e = true
  /\ forall q' e',
       get_at q' root = Some e' -> sel (anc_at q' [] root) e' = true ->
       q' = q \/ doc_before q q' = true.

(** [e], found at [q], is the first match of the query among the proper
    descendants of the root. *)
Definition first_below (sel : list str -> node -> bool) (root : node)
    (q : path) (e : node) : Prop :=
  q <> []
  /\ get_at q root = Some e
  /\ sel (anc_at q [] root) e = true
  /\ forall q' e',
       q' <> [] ->
       get_at q' root = Some e' -> sel (anc_at q' [] root) e' = true ->
       q' = q \/ doc_before q q' = true.

(** The query has no match in the tree. *)
Definition no_match (sel : list str -> node -> bool) (root : node) : Prop :=
  forall q e, get_at q root = Some e -> sel (anc_at q [] root) e = false.

(* ------------------------------------------------------------------ *)
(** ** Sample elements *)

(** [<idno type="wikidata">Q42</idno>] *)
Definition idno_Q42 : node :=
  Elem (tei "idno") [(u "type", u "wikidata")] (Some (u "Q42")) [] None.

(** [<idno type="wikidata" corresp="">Q42</idno>] *)
Definition idno_Q42_empty_corresp : node :=
  Elem (tei "idno") [(u "type", u "wikidata"); (u "corresp", [])]
       (Some (u "Q42")) [] None.

(** [<idno type="pnd">118529579</idno>] *)
Definition idno_pnd : node :=
  Elem (tei "idno") [(u "type", u "pnd")] (Some (u "118529579")) [] None.

(** [<idno type="pnd" corresp="">118529579</idno>] *)
Definition idno_pnd_empty_corresp : node :=
  Elem (tei "idno") [(u "type", u "pnd"); (u "corresp", [])]
       (Some (u "118529579")) [] None.

(** A document with an empty [profileDesc] and the given events in
    [standOff/listEvent]. *)
Definition doc_with_events (events : list node) : node :=
  Elem (tei "TEI") [] None
    [Elem (tei "teiHeader") [] None
       [Elem (tei "profileDesc") [] None [] None] None;
     Elem (tei "standOff") [] None
       [Elem (tei "listEvent") [] None events None] None] None.

(** [<event type="written" notBefore="1630" notAfter="1640"/>] *)
Definition event_written : node :=
  Elem (tei "event")
       [(u "type", u "written"); (u "notBefore", u "1630");
        (u "notAfter", u "1640")] None [] None.

(** [<event type="print" when="1651"/>] *)
Definition event_print : node :=
  Elem (tei "event") [(u "type", u "print"); (u "when", u "1651")]
       None [] None.

(** [<event type="written" when=""/>] *)
Definition event_empty_when : node :=
  Elem (tei "event") [(u "type", u "written"); (u "when", [])] None [] None.

(** [<fileDesc><publicationStmt/></fileDesc>] *)
Definition doc_empty_pub_stmt : node :=
  Elem (tei "fileDesc") [] None
    [Elem (tei "publicationStmt") [] None [] None] None.

(** A [publicationStmt] that already holds a corpus identifier with a
    text of its own. *)
Definition doc_with_caldracor_id : node :=
  Elem (tei "fileDesc") [] None
    [Elem (tei "publicationStmt") [] None
       [Elem (tei "idno") [(u "type", u "caldracor")]
          (Some (u "by-hand")) [] None] None] None.

(** [<persName xml:id="rojas">Rojas Castro, Antonio</persName>] in a
    [respStmt], followed by a line break. *)
Definition doc_rojas_entry : node :=
  Elem (tei "respStmt") [] None
    [Elem (tei "persName") [(XML_ID, u "rojas")]
       (Some (u "Rojas Castro, Antonio")) [] (Some [10%N])] None.

(** An entry for somebody else whose note cites a work revised by the
    contributor:
    [<respStmt><resp>edited by</resp><persName>Ana Ruiz<note><bibl>
     <respStmt><resp>revised by</resp><persName xml:id="rojas">ARC
     </persName></respStmt></bibl></note></persName></respStmt>] *)
Definition entry_with_nested_entry : node :=
  Elem (tei "persName") [] (Some (u "Ana Ruiz"))
    [Elem (tei "note") [] None
       [Elem (tei "bibl") [] None
          [Elem (tei "respStmt") [] None
             [Elem (tei "resp") [] (Some (u "revised by")) [] None;
              Elem (tei "persName") [(XML_ID, u "rojas")]
                (Some (u "ARC")) [] None] None] None] None] None.

Definition doc_nested_entries : node :=
  Elem (tei "respStmt") [] None
    [Elem (tei "resp") [] (Some (u "edited by")) [] None;
     entry_with_nested_entry] None.

(** The canonical form of the contributor's entry. *)
Definition canonical_rojas : node :=
  Elem (tei "persName")
    [(XML_ID, u "rojas");
     (u "corresp", u "https://orcid.org/0000-0002-8916-4997")]
    None
    [Elem (tei "forename") [] (Some (u "Antonio")) [] None;
     Elem (tei "surname") [] (Some (u "Rojas Castro")) [] None]
    None.

(** A [textClass] that has the GND genre group only, with a term of
    its own. *)
Definition own_gnd_group : node :=
  Elem (tei "keywords") [(u "scheme", GND_SCHEME)] None
    [Elem (tei "term") [] (Some (u "Comedia")) [] None] None.

Definition doc_text_class : node :=
  Elem (tei "profileDesc") [] None
    [Elem (tei "textClass") [] None [own_gnd_group] None] None.

(* ------------------------------------------------------------------ *)
(** ** Vocabulary of the further properties *)

(** [P] holds of every node of the tree. *)
Fixpoint all_nodes (P : node -> bool) (n : node) : bool :=
  P n
  && match n with
     | Elem _ _ _ cs _ => forallb (all_nodes P) cs
     | Misc _ _ => true
     end.

(** The guard of a rule fails at the node: the rule would leave it. *)
Definition quiet (fires : list str -> node -> bool) (n : node) : bool :=
  negb (fires [] n).

(** [<langUsage><language ident="spa">Spanish</language></langUsage>],
    written out. *)
Definition spanish_block : node :=
  Elem (tei "langUsage") [] None
    [Elem (tei "language") [(u "ident", u "spa")] (Some (u "Spanish")) []
       None] None.

(** A [profileDesc] that declares another language. *)
Definition doc_latin_profile : node :=
  Elem (tei "teiHeader") [] None
    [Elem (tei "profileDesc") [] None
       [Elem (tei "langUsage") [] None
          [Elem (tei "language") [(u "ident", u "lat")] (Some (u "Latin")) []
             None] None] None] None.


(** What the presence checks of rules 3 and 4 see of a child: whether
    it is a [langUsage], and of which schemes it is a [keywords] group. *)
Definition same_kind (c c' : node) : Prop :=
  has_tag (tei "langUsage") c' = has_tag (tei "langUsage") c
  /\ forall s, is_keywords s c' = is_keywords s c.

(** Every block the checks find among [cs] they find among [cs']. *)
Definition kinds_kept (cs cs' : list node) : Prop :=
  (existsb (has_tag (tei "langUsage")) cs = true ->
   existsb (has_tag (tei "langUsage")) cs' = true)
  /\ forall s, has_group s cs = true -> has_group s cs' = true.

(** The new [publisher] of rule 6. *)
Definition publisher_block : node :=
  new_elem (tei "publisher") [] (Some PUBLISHER_TEXT) [].


(** What a rule other than the name normaliser leaves of a node [e] in
    the node [e'] it puts in its place: the name and the tail, at least
    as many children, the text unless the rule is the publisher rule,
    and the attributes unless the rule is one of the two identifier
    rules. *)
Definition stays (r : rule) (e e' : node) : Prop :=
  tag_of e' = tag_of e
  /\ tail_of e' = tail_of e
  /\ List.length (children_of e) <= List.length (children_of e')
  /\ (r <> EnsurePublisher -> text_of e' = text_of e)
  /\ (r <> AddWikidataCorresp -> r <> ConvertPndToGnd ->
      attrib_of e' = attrib_of e).

(** [<publicationStmt><publisher>Old</publisher></publicationStmt>]
    under a [fileDesc]. *)
Definition doc_old_publisher : node :=
  Elem (tei "fileDesc") [] None
    [Elem (tei "publicationStmt") [] None
       [Elem (tei "publisher") [] (Some (u "Old")) [] (Some [10%N])]
       None] None.


(** [e'] is [e] with children added at the end or changed below: the
    node itself and its children, in their places, keep name, attributes,
    text and tail. *)
Definition grown (e e' : node) : Prop :=
  shallow e' = shallow e
  /\ exists cs1 extra,
       children_of e' = cs1 ++ extra
       /\ Forall2 (fun k k' => shallow k' = shallow k) (children_of e) cs1.

(** A header with an empty [profileDesc] and a [standOff] with one
    printed event. *)
Definition doc_print_event : node :=
  Elem (tei "TEI") [] None
    [Elem (tei "teiHeader") [] None
       [Elem (tei "fileDesc") [] None
          [Elem (tei "publicationStmt") [] None [] None] None;
        Elem (tei "profileDesc") [] None [] None] None;
     Elem (tei "standOff") [] None
       [Elem (tei "listEvent") [] None
          [Elem (tei "event") [(u "type", u "print"); (u "when", u "1651")]
             None [] None] None] None] None.


(** What the last three rules have put into a publication statement. *)
Definition publication_complete (ps : node) : Prop :=
  (exists pub, find_child (tei "publisher") ps = Some pub
               /\ text_of pub = Some PUBLISHER_TEXT)
  /\ existsb is_caldracor_idno (children_of ps) = true.


(** The first four rules of the pipeline. *)
Definition header_scan (r : rule) : bool :=
  match r with
  | AddWikidataCorresp | ConvertPndToGnd
  | EnsureLangusageSpanish | EnsureTextclassKeywords => true
  | _ => false
  end.

(** The appended blocks of rules 3 and 4, by the tag of the element. *)
Definition langusage_extra (t : str) (cs : list node) : list node :=
  if Str.eqb t (tei "profileDesc") then langusage_added cs else [].

Definition keywords_extra (t : str) (cs : list node) : list node :=
  if Str.eqb t (tei "textClass") then keywords_added cs else [].

(** An identifier to convert and one to link, next to a [profileDesc]
    with a [textClass]. *)
Definition doc_two_idnos : node :=
  Elem (tei "teiHeader") [] None
    [Elem (tei "idno") [(u "type", u "pnd")] (Some (u "118529579")) [] None;
     Elem (tei "idno") [(u "type", u "wikidata")] (Some (u "Q42")) [] None;
     Elem (tei "profileDesc") [] None
       [Elem (tei "textClass") [] None [] None] None] None.


(** The two checks of rule 8 that make it return without a change. *)
Definition creation_settled (d : node) : Prop :=
  forall q pd rest,
    select_desc is_profile_desc d = (q, pd) :: rest ->
    existsb (has_tag (tei "creation")) (children_of pd) = true
    \/ chosen_event d = None.


(** The element has one of the names the queries of the rules end in. *)
Definition targeted (e : node) : bool :=
  has_tag (tei "idno") e || has_tag (tei "profileDesc") e
  || has_tag (tei "textClass") e || has_tag (tei "persName") e
  || has_tag (tei "publicationStmt") e.

(** A document without a header: [<TEI><text><body><p>Hola</p></body>
    </text><!-- fin --></TEI>]. *)
Definition doc_without_header : node :=
  Elem (tei "TEI") [] None
    [Elem (tei "text") [] None
       [Elem (tei "body") [] None
          [Elem (tei "p") [] (Some (u "Hola")) [] None] None] None;
     Misc (u " fin ") None] None.

(** The three keyword groups written out, as they stand in the
    output:
    [<keywords scheme="http://uri.gbv.de/terminology/bk/">
       <term type="basicClassification" key="17.97">Texts by a single
       author</term>
       <term type="basicClassification" key="18.30">Spanish language and
       literature</term></keywords>] *)
Definition bk_group : node :=
  Elem (tei "keywords")
    [(u "scheme", u "http://uri.gbv.de/terminology/bk/")] None
    [Elem (tei "term")
       [(u "type", u "basicClassification"); (u "key", u "17.97")]
       (Some (u "Texts by a single author")) [] None;
     Elem (tei "term")
       [(u "type", u "basicClassification"); (u "key", u "18.30")]
       (Some (u "Spanish language and literature")) [] None]
    None.

(** [<keywords scheme="https://d-nb.info/gnd/"><term type="testament"
      ref="http://d-nb.info/gnd/4304080-9">Theaterstück</term>
    </keywords>] *)
Definition gnd_group : node :=
  Elem (tei "keywords") [(u "scheme", u "https://d-nb.info/gnd/")] None
    [Elem (tei "term")
       [(u "type", u "testament");
        (u "ref", u "http://d-nb.info/gnd/4304080-9")]
       (Some (u "Theaterst" ++ 252%N :: u "ck")) [] None]
    None.

(** [<keywords
      scheme="http://textgrid.info/namespaces/metadata/core/2010#genre">
      <term type="genre-tg">drama</term></keywords>] *)
Definition tg_group : node :=
  Elem (tei "keywords")
    [(u "scheme",
      u "http://textgrid.info/namespaces/metadata/core/2010#genre")] None
    [Elem (tei "term") [(u "type", u "genre-tg")] (Some (u "drama")) []
       None]
    None.

(** [<profileDesc><textClass/></profileDesc>] *)
Definition doc_empty_text_class : node :=
  Elem (tei "profileDesc") [] None
    [Elem (tei "textClass") [] None [] None] None.

(** A GND group of the document's own whose term holds a [textClass]:
    [<keywords scheme="https://d-nb.info/gnd/"><term>Comedia<textClass/>
    </term></keywords>] *)
Definition group_holding_text_class : node :=
  Elem (tei "keywords") [(u "scheme", u "https://d-nb.info/gnd/")] None
    [Elem (tei "term") [] (Some (u "Comedia"))
       [Elem (tei "textClass") [] None [] None] None] None.

Definition doc_group_holding_text_class : node :=
  Elem (tei "profileDesc") [] None
    [Elem (tei "textClass") [] None [group_holding_text_class] None] None.

(** The project title of the publisher, written out. *)
Definition project_title : str :=
  u "Tracing Regularities in Pedro Calder" ++ 243%N
    :: u "n de la Barca's Dramatic OEuvre with a Computational Approach (508056339)".

(** A contributor's entry followed by text of the statement:
    [<titleStmt><respStmt><resp>edited by</resp><persName>Antonio Rojas
    Castro</persName> (Univ. Potsdam), 2024</respStmt></titleStmt>] *)
Definition doc_entry_with_affiliation : node :=
  Elem (tei "titleStmt") [] None
    [Elem (tei "respStmt") [] None
       [Elem (tei "resp") [] (Some (u "edited by")) [] None;
        Elem (tei "persName") [] (Some (u "Antonio Rojas Castro")) []
          (Some (u " (Univ. Potsdam), 2024"))] None] None.


(* ================================================================== *)
(** * Properties *)

(* ------------------------------------------------------------------ *)
(** ** Strings and attribute maps *)

Module StrFacts.

Lemma eqb_eq (a b : str) : Str.eqb a b = true <-> a = b.
Proof.
  unfold Str.eqb. destruct (list_eq_dec N.eq_dec a b); split; congruence.
Qed.

Lemma eqb_refl (a : str) : Str.eqb a a = true.
Proof. now apply eqb_eq. Qed.

Lemma eqb_neq (a b : str) : Str.eqb a b = false <-> a <> b.
Proof.
  unfold Str.eqb. destruct (list_eq_dec N.eq_dec a b); split; congruence.
Qed.

End StrFacts.

Module AttrFacts.

Lemma get_set_same k v a : Attr.get k (Attr.set k v a) = Some v.
Proof.
  induction a as [|[k' v'] a IH]; simpl.
  - now rewrite StrFacts.eqb_refl.
  - destruct (Str.eqb k' k) eqn:E; simpl.
    + now rewrite StrFacts.eqb_refl.
    + now rewrite E.
Qed.

Lemma get_set_other k k' v a : k <> k' -> Attr.get k' (Attr.set k v a) = Attr.get k' a.
Proof.
  intros Hne. induction a as [|[k0 v0] a IH]; simpl.
  - destruct (Str.eqb k k') eqn:E; [apply StrFacts.eqb_eq in E; contradiction | reflexivity].
  - destruct (Str.eqb k0 k) eqn:E; simpl.
    + apply StrFacts.eqb_eq in E; subst k0.
      destruct (Str.eqb k k') eqn:E'; [apply StrFacts.eqb_eq in E'; contradiction | reflexivity].
    + destruct (Str.eqb k0 k'); [reflexivity | exact IH].
Qed.

(** Setting a key to the value it already has changes nothing. *)
Lemma set_same k v a : Attr.get k a = Some v -> Attr.set k v a = a.
Proof.
  induction a as [|[k' v'] a IH]; simpl; [discriminate|].
  destruct (Str.eqb k' k) eqn:E.
  - intros [= ->]. apply StrFacts.eqb_eq in E. now subst.
  - intros H. now rewrite IH.
Qed.

End AttrFacts.

(* ------------------------------------------------------------------ *)
(** ** Lists updated by index *)

Section UpdateNth.
Variable A : Type.

Lemma nth_error_update_nth_same (f : A -> A) (l : list A) (i : nat) :
  nth_error (update_nth i f l) i = option_map f (nth_error l i).
Proof.
  revert i; induction l as [|c l IH]; intros [|i]; simpl; auto.
Qed.

Lemma nth_error_update_nth_other (f : A -> A) (l : list A) (i j : nat) :
  i <> j -> nth_error (update_nth i f l) j = nth_error l j.
Proof.
  revert i j; induction l as [|c l IH]; intros [|i] [|j] H; simpl; auto;
    congruence.
Qed.

Lemma update_nth_ext (f g : A -> A) (l : list A) (i : nat) :
  (forall c, nth_error l i = Some c -> f c = g c) ->
  update_nth i f l = update_nth i g l.
Proof.
  revert i; induction l as [|c l IH]; intros [|i] H; simpl; auto.
  - now rewrite (H c eq_refl).
  - f_equal. apply IH. exact H.
Qed.

Lemma update_nth_twice (f g : A -> A) (l : list A) (i : nat) :
  update_nth i g (update_nth i f l) = update_nth i (fun c => g (f c)) l.
Proof.
  revert i; induction l as [|c l IH]; intros [|i]; simpl; auto.
  now rewrite IH.
Qed.

Lemma update_nth_id (f : A -> A) (l : list A) (i : nat) :
  (forall c, nth_error l i = Some c -> f c = c) -> update_nth i f l = l.
Proof.
  revert i; induction l as [|c l IH]; intros [|i] H; simpl; auto.
  - now rewrite (H c eq_refl).
  - f_equal. apply IH. exact H.
Qed.
End UpdateNth.

(* ------------------------------------------------------------------ *)
(** ** References and updates *)

Lemma is_prefix_refl (p : path) : is_prefix p p = true.
Proof. induction p; simpl; auto. now rewrite Nat.eqb_refl. Qed.

Lemma get_at_update_at_same (f : node -> node) (p : path) :
  forall n e, get_at p n = Some e -> get_at p (update_at p f n) = Some (f e).
Proof.
  induction p as [|i p IH]; intros n e H; simpl in *.
  - congruence.
  - destruct n as [t a x cs tl|c tl]; simpl in *.
    + rewrite nth_error_update_nth_same.
      destruct (nth_error cs i) as [c|]; simpl; [now apply IH | discriminate].
    + destruct i; discriminate.
Qed.

(** A node that is not in the subtree of the updated element keeps its
    name, attributes, text and tail. *)
Lemma get_at_update_at_frame (f : node -> node) (q : path) :
  forall p n e,
    get_at q n = Some e -> is_prefix p q = false ->
    exists e', get_at q (update_at p f n) = Some e' /\ shallow e' = shallow e.
Proof.
  induction q as [|j q IH]; intros p n e H Hp.
  - destruct p as [|i p]; [discriminate|].
    simpl in H. injection H as <-. simpl.
    destruct n; eexists; split; reflexivity.
  - destruct p as [|i p]; [discriminate|].
    simpl in Hp. simpl in H.
    destruct n as [t a x cs tl|c tl]; simpl in *.
    + destruct (Nat.eqb_spec i j) as [->|Hij].
      * simpl in Hp. rewrite nth_error_update_nth_same.
        destruct (nth_error cs j) as [c|]; simpl; [|discriminate].
        now apply IH.
      * rewrite nth_error_update_nth_other by assumption.
        destruct (nth_error cs j) as [c|]; [|discriminate].
        exists e. split; [assumption | reflexivity].
    + destruct j; discriminate.
Qed.

Lemma update_at_twice (f g : node -> node) (p : path) :
  forall n, update_at p g (update_at p f n) = update_at p (fun e => g (f e)) n.
Proof.
  induction p as [|i p IH]; intros n; simpl; auto.
  destruct n as [t a x cs tl|c tl]; auto.
  rewrite update_nth_twice. f_equal.
  apply update_nth_ext. intros; apply IH.
Qed.

Lemma update_at_ext (f g : node -> node) (p : path) :
  forall n,
    (forall e, get_at p n = Some e -> f e = g e) ->
    update_at p f n = update_at p g n.
Proof.
  induction p as [|i p IH]; intros n H; simpl.
  - now apply H.
  - destruct n as [t a x cs tl|c tl]; auto.
    f_equal. apply update_nth_ext. intros c Hc. apply IH.
    intros e He. apply H. simpl. now rewrite Hc.
Qed.

(* ------------------------------------------------------------------ *)
(** ** Queries *)

Section Select.
Variable sel : list str -> node -> bool.

Lemma select_Elem anc t a x cs tl :
  select sel anc (Elem t a x cs tl)
  = (if sel anc (Elem t a x cs tl) then [([], Elem t a x cs tl)] else [])
    ++ select_list sel (t :: anc) 0 cs.
Proof.
  simpl. f_equal.
  generalize 0. induction cs as [|c cs IH]; intros k; simpl; auto.
  now rewrite IH.
Qed.

Lemma select_Misc anc c tl :
  select sel anc (Misc c tl)
  = if sel anc (Misc c tl) then [([], Misc c tl)] else [].
Proof. simpl. now rewrite app_nil_r. Qed.

Lemma select_list_app anc k l1 l2 :
  select_list sel anc k (l1 ++ l2)
  = select_list sel anc k l1 ++ select_list sel anc (k + List.length l1) l2.
Proof.
  revert k; induction l1 as [|c l1 IH]; intros k; simpl.
  - now rewrite Nat.add_0_r.
  - rewrite IH, <- app_assoc. do 3 f_equal. lia.
Qed.

(** Every match of a list of siblings is a match of one of them. *)
Lemma in_select_list anc k l p e :
  In (p, e) (select_list sel anc k l) <->
  exists i c p', p = (k + i) :: p' /\ nth_error l i = Some c
                 /\ In (p', e) (select sel anc c).
Proof.
  revert k; induction l as [|c l IH]; intros k; simpl.
  - split; [tauto|]. intros (i & c & p' & _ & H & _). destruct i; discriminate.
  - rewrite in_app_iff, in_map_iff, IH. split.
    + intros [([p' e'] & Heq & Hin) | (i & c' & p' & -> & Hn & Hin)].
      * simpl in Heq. injection Heq as <- <-.
        exists 0, c, p'. rewrite Nat.add_0_r. auto.
      * exists (S i), c', p'. repeat split; auto. f_equal; lia.
    + intros (i & c' & p' & -> & Hn & Hin). destruct i as [|i]; simpl in Hn.
      * injection Hn as ->. left. exists (p', e). rewrite Nat.add_0_r. auto.
      * right. exists i, c', p'. repeat split; auto. f_equal; lia.
Qed.

(** A match is the element found at its path, and satisfies the step. *)
Lemma select_sound n :
  forall anc p e,
    In (p, e) (select sel anc n) ->
    get_at p n = Some e /\ sel (anc_at p anc n) e = true.
Proof.
  induction n as [t a x cs tl IH|c tl] using node_tree_ind; intros anc p e H.
  - rewrite select_Elem in H. apply in_app_iff in H. destruct H as [H|H].
    + destruct (sel anc (Elem t a x cs tl)) eqn:E; [|contradiction].
      destruct H as [H|[]]. injection H as <- <-. auto.
    + apply in_select_list in H. destruct H as (i & c & p' & -> & Hn & Hin).
      simpl. rewrite Hn. rewrite Forall_forall in IH.
      apply (IH c (nth_error_In _ _ Hn)). exact Hin.
  - rewrite select_Misc in H.
    destruct (sel anc (Misc c tl)) eqn:E; [|contradiction].
    destruct H as [H|[]]. injection H as <- <-. auto.
Qed.

(** Every element that satisfies the step is among the matches. *)
Lemma select_complete p :
  forall anc n e,
    get_at p n = Some e -> sel (anc_at p anc n) e = true ->
    In (p, e) (select sel anc n).
Proof.
  induction p as [|i p IH]; intros anc n e H Hs; simpl in H, Hs.
  - injection H as ->.
    destruct e; [rewrite select_Elem | rewrite select_Misc];
      rewrite Hs; simpl; auto.
  - destruct n as [t a x cs tl|c tl]; simpl in H, Hs.
    + destruct (nth_error cs i) as [c|] eqn:Hn; [|discriminate].
      rewrite select_Elem. apply in_app_iff. right.
      apply in_select_list. exists i, c, p. repeat split; auto.
    + destruct i; discriminate.
Qed.

(** Without matches the subtrees have no matches either. *)
Lemma select_list_nil anc k l :
  select_list sel anc k l = [] -> Forall (fun c => select sel anc c = []) l.
Proof.
  revert k; induction l as [|c l IH]; intros k H; simpl in *; constructor.
  - apply app_eq_nil in H. destruct H as [H _].
    destruct (select sel anc c); [reflexivity | discriminate].
  - apply app_eq_nil in H. destruct H as [_ H]. now apply IH in H.
Qed.

Lemma select_nil_Elem anc t a x cs tl :
  select sel anc (Elem t a x cs tl) = [] ->
  sel anc (Elem t a x cs tl) = false
  /\ Forall (fun c => select sel (t :: anc) c = []) cs.
Proof.
  rewrite select_Elem. intros H. apply app_eq_nil in H. destruct H as [H1 H2].
  split.
  - destruct (sel anc (Elem t a x cs tl)); [discriminate | reflexivity].
  - now apply select_list_nil in H2.
Qed.
End Select.

(* ------------------------------------------------------------------ *)
(** ** Names that differ *)

Lemma corresp_neq_type : u "corresp" <> u "type".
Proof. discriminate. Qed.

Lemma gnd_neq_pnd : u "gnd" <> u "pnd".
Proof. discriminate. Qed.

Lemma truthy_app_l (a b : str) : truthy a = true -> truthy (a ++ b) = true.
Proof. destruct a; [discriminate | reflexivity]. Qed.

Lemma truthy_nonempty (s : str) : truthy s = true <-> s <> [].
Proof. destruct s; simpl; split; congruence. Qed.

(* ------------------------------------------------------------------ *)
(** ** Rules 1 and 2: the identifier links *)

Lemma add_wikidata_corresp_Elem t a x cs tl :
  add_wikidata_corresp (Elem t a x cs tl)
  = Elem t (if is_wikidata_idno (Elem t a x cs tl)
            then wikidata_body a x else a)
         x (map add_wikidata_corresp cs) tl.
Proof. reflexivity. Qed.

Lemma convert_pnd_to_gnd_Elem t a x cs tl :
  convert_pnd_to_gnd (Elem t a x cs tl)
  = Elem t (if is_pnd_idno (Elem t a x cs tl) then pnd_body a x else a)
         x (map convert_pnd_to_gnd cs) tl.
Proof. reflexivity. Qed.

(** The queries of both rules look at the tag and at [@type] only. *)
Lemma idno_typed_eq ty t a a' x x' cs cs' tl tl' :
  Attr.get (u "type") a' = Attr.get (u "type") a ->
  (has_tag (tei "idno") (Elem t a' x' cs' tl')
   && attr_is (u "type") ty (Elem t a' x' cs' tl'))
  = (has_tag (tei "idno") (Elem t a x cs tl)
     && attr_is (u "type") ty (Elem t a x cs tl)).
Proof. unfold has_tag, attr_is, attrib_of. now intros ->. Qed.

Lemma wikidata_body_type a x :
  Attr.get (u "type") (wikidata_body a x) = Attr.get (u "type") a.
Proof.
  unfold wikidata_body.
  destruct (truthy _ && negb _); [|reflexivity].
  apply AttrFacts.get_set_other, corresp_neq_type.
Qed.

Lemma wikidata_body_idem a x :
  wikidata_body (wikidata_body a x) x = wikidata_body a x.
Proof.
  unfold wikidata_body; cbv zeta.
  destruct (truthy (strip (or_empty x))
            && negb (otruthy (Attr.get (u "corresp") a))) eqn:G.
  - rewrite AttrFacts.get_set_same.
    unfold otruthy. rewrite truthy_app_l by reflexivity.
    now rewrite andb_false_r.
  - now rewrite G.
Qed.

Lemma add_wikidata_corresp_idem n :
  add_wikidata_corresp (add_wikidata_corresp n) = add_wikidata_corresp n.
Proof.
  induction n as [t a x cs tl IH|c tl] using node_tree_ind; [|reflexivity].
  rewrite !add_wikidata_corresp_Elem. f_equal.
  - destruct (is_wikidata_idno (Elem t a x cs tl)) eqn:E.
    + unfold is_wikidata_idno in *.
      rewrite idno_typed_eq with (a := a) (x := x) (cs := cs) (tl := tl)
        by apply wikidata_body_type.
      rewrite E.
      apply wikidata_body_idem.
    + unfold is_wikidata_idno in *.
      rewrite idno_typed_eq with (a := a) (x := x) (cs := cs) (tl := tl)
        by reflexivity.
      now rewrite E.
  - rewrite map_map. apply map_ext_in. now apply Forall_forall.
Qed.

Lemma pnd_body_type a x : Attr.get (u "type") (pnd_body a x) = Some (u "gnd").
Proof.
  unfold pnd_body.
  destruct (truthy _ && negb _).
  - rewrite AttrFacts.get_set_other by apply corresp_neq_type.
    apply AttrFacts.get_set_same.
  - apply AttrFacts.get_set_same.
Qed.

Lemma convert_pnd_to_gnd_idem n :
  convert_pnd_to_gnd (convert_pnd_to_gnd n) = convert_pnd_to_gnd n.
Proof.
  induction n as [t a x cs tl IH|c tl] using node_tree_ind; [|reflexivity].
  rewrite !convert_pnd_to_gnd_Elem. f_equal.
  - destruct (is_pnd_idno (Elem t a x cs tl)) eqn:E.
    + replace (is_pnd_idno _) with false; [reflexivity|].
      unfold is_pnd_idno, attr_is, attrib_of. rewrite pnd_body_type.
      destruct (Str.eqb (u "gnd") (u "pnd")) eqn:E'.
      * apply StrFacts.eqb_eq in E'. now apply gnd_neq_pnd in E'.
      * now rewrite andb_false_r.
    + unfold is_pnd_idno in *.
      rewrite idno_typed_eq with (a := a) (x := x) (cs := cs) (tl := tl)
        by reflexivity.
      now rewrite E.
  - rewrite map_map. apply map_ext_in. now apply Forall_forall.
Qed.

(* ------------------------------------------------------------------ *)
(** ** Rules 3 and 4: the blocks that are ensured *)

Lemma ensure_langusage_spanish_Elem t a x cs tl :
  ensure_langusage_spanish (Elem t a x cs tl)
  = Elem t a x
      (map ensure_langusage_spanish cs
         ++ (if Str.eqb t (tei "profileDesc") then langusage_added cs else []))
      tl.
Proof. reflexivity. Qed.

Lemma ensure_textclass_keywords_Elem t a x cs tl :
  ensure_textclass_keywords (Elem t a x cs tl)
  = Elem t a x
      (map ensure_textclass_keywords cs
         ++ (if Str.eqb t (tei "textClass") then keywords_added cs else []))
      tl.
Proof. reflexivity. Qed.

Lemma existsb_map_ext (A B : Type) (f : B -> bool) (g : A -> bool)
    (h : A -> B) (l : list A) :
  (forall c, f (h c) = g c) -> existsb f (map h l) = existsb g l.
Proof.
  intros H. induction l as [|c l IH]; simpl; [reflexivity|].
  now rewrite H, IH.
Qed.

Lemma langusage_shallow n :
  shallow (ensure_langusage_spanish n) = shallow n.
Proof. destruct n; reflexivity. Qed.

Lemma keywords_shallow n :
  shallow (ensure_textclass_keywords n) = shallow n.
Proof. destruct n; reflexivity. Qed.

Lemma has_tag_shallow t n : has_tag t n = has_tag t (shallow n).
Proof. destruct n; reflexivity. Qed.

Lemma is_keywords_shallow s n : is_keywords s n = is_keywords s (shallow n).
Proof. destruct n; reflexivity. Qed.

Lemma langusage_added_again cs :
  langusage_added (map ensure_langusage_spanish cs ++ langusage_added cs) = [].
Proof.
  unfold langusage_added. rewrite existsb_app.
  rewrite existsb_map_ext with (g := has_tag (tei "langUsage"))
    by (intros c; now rewrite has_tag_shallow, langusage_shallow,
                          <- has_tag_shallow).
  destruct (existsb (has_tag (tei "langUsage")) cs); reflexivity.
Qed.

Lemma ensure_langusage_spanish_idem n :
  ensure_langusage_spanish (ensure_langusage_spanish n)
  = ensure_langusage_spanish n.
Proof.
  induction n as [t a x cs tl IH|c tl] using node_tree_ind; [|reflexivity].
  rewrite !ensure_langusage_spanish_Elem. f_equal.
  rewrite map_app, map_map, <- app_assoc. f_equal.
  - apply map_ext_in. now apply Forall_forall.
  - destruct (Str.eqb t (tei "profileDesc")).
    + rewrite langusage_added_again, app_nil_r.
      unfold langusage_added. now destruct (existsb _ cs).
    + reflexivity.
Qed.

Lemma has_group_app s l1 l2 :
  has_group s (l1 ++ l2) = has_group s l1 || has_group s l2.
Proof. apply existsb_app. Qed.

Lemma has_group_map_keywords s cs :
  has_group s (map ensure_textclass_keywords cs) = has_group s cs.
Proof.
  apply existsb_map_ext. intros c.
  now rewrite is_keywords_shallow, keywords_shallow, <- is_keywords_shallow.
Qed.

(** The three presence checks are independent: a block appended by an
    earlier check never satisfies a later one. *)
Lemma keywords_added_independent cs :
  keywords_added cs
  = group_added BK_SCHEME kw_bk cs
    ++ group_added GND_SCHEME kw_gnd cs
    ++ group_added TG_SCHEME kw_tg cs.
Proof.
  unfold keywords_added, group_added. rewrite !has_group_app.
  destruct (has_group BK_SCHEME cs), (has_group GND_SCHEME cs),
    (has_group TG_SCHEME cs); reflexivity.
Qed.

Lemma keywords_added_again cs :
  keywords_added (map ensure_textclass_keywords cs ++ keywords_added cs) = [].
Proof.
  rewrite (keywords_added_independent (_ ++ _)).
  unfold group_added. rewrite !has_group_app, !has_group_map_keywords.
  rewrite (keywords_added_independent cs). unfold group_added.
  destruct (has_group BK_SCHEME cs), (has_group GND_SCHEME cs),
    (has_group TG_SCHEME cs); reflexivity.
Qed.

Lemma keywords_added_fixed cs c :
  In c (keywords_added cs) -> ensure_textclass_keywords c = c.
Proof.
  rewrite keywords_added_independent. unfold group_added.
  destruct (has_group BK_SCHEME cs), (has_group GND_SCHEME cs),
    (has_group TG_SCHEME cs); simpl; intros H;
    repeat (destruct H as [<-|H]; [reflexivity|]); contradiction.
Qed.

Lemma ensure_textclass_keywords_idem n :
  ensure_textclass_keywords (ensure_textclass_keywords n)
  = ensure_textclass_keywords n.
Proof.
  induction n as [t a x cs tl IH|c tl] using node_tree_ind; [|reflexivity].
  rewrite !ensure_textclass_keywords_Elem. f_equal.
  rewrite map_app, map_map, <- app_assoc. f_equal.
  - apply map_ext_in. now apply Forall_forall.
  - destruct (Str.eqb t (tei "textClass")).
    + rewrite keywords_added_again, app_nil_r.
      rewrite <- (map_id (keywords_added cs)) at 2.
      apply map_ext_in. apply keywords_added_fixed.
    + reflexivity.
Qed.

(* ------------------------------------------------------------------ *)
(** ** Rule 5: the name normaliser *)

Lemma normalize_from_Elem under t a x cs tl :
  normalize_from under (Elem t a x cs tl)
  = if is_resp_persname under (Elem t a x cs tl)
       && rojas_heuristic (Elem t a x cs tl)
    then rebuilt t
    else Elem t a x (map (normalize_from (Str.eqb t (tei "respStmt"))) cs) tl.
Proof. reflexivity. Qed.

Lemma fires_in_Elem under t a x cs tl :
  fires_in under (Elem t a x cs tl)
  = is_resp_persname under (Elem t a x cs tl)
    && rojas_heuristic (Elem t a x cs tl)
    || existsb (fires_in (Str.eqb t (tei "respStmt"))) cs.
Proof. reflexivity. Qed.

Lemma is_resp_persname_tag under t a x cs tl a' x' cs' tl' :
  is_resp_persname under (Elem t a' x' cs' tl')
  = is_resp_persname under (Elem t a x cs tl).
Proof. reflexivity. Qed.

Lemma rojas_heuristic_rebuilt t : rojas_heuristic (rebuilt t) = true.
Proof. reflexivity. Qed.

Lemma existsb_false_Forall (A : Type) (f : A -> bool) (l : list A) :
  existsb f l = false <-> Forall (fun c => f c = false) l.
Proof.
  induction l as [|c l IH]; simpl.
  - split; auto.
  - rewrite orb_false_iff, IH. split.
    + intros [H1 H2]. now constructor.
    + intros H. inversion H; auto.
Qed.

(** Where no entry satisfies the heuristic the rule changes nothing. *)
Lemma normalize_from_quiet n :
  forall under, fires_in under n = false -> normalize_from under n = n.
Proof.
  induction n as [t a x cs tl IH|c tl] using node_tree_ind; intros under H;
    [|reflexivity].
  rewrite fires_in_Elem in H. apply orb_false_iff in H. destruct H as [H1 H2].
  rewrite normalize_from_Elem, H1. f_equal.
  rewrite <- (map_id cs) at 2. apply map_ext_in. intros c Hc.
  rewrite Forall_forall in IH. apply IH; [assumption|].
  apply existsb_false_Forall in H2. rewrite Forall_forall in H2. now apply H2.
Qed.

Lemma normalize_from_idem n :
  forall under,
    settled under n = true ->
    normalize_from under (normalize_from under n) = normalize_from under n.
Proof.
  induction n as [t a x cs tl IH|c tl] using node_tree_ind; intros under H;
    [|reflexivity].
  rewrite normalize_from_Elem.
  destruct (is_resp_persname under (Elem t a x cs tl)) eqn:E1.
  - destruct (rojas_heuristic (Elem t a x cs tl)) eqn:E2; simpl andb; cbv iota.
    + unfold rebuilt at 1. rewrite normalize_from_Elem.
      rewrite is_resp_persname_tag with (a := a) (x := x) (cs := cs) (tl := tl).
      rewrite E1. fold (rebuilt t). now rewrite rojas_heuristic_rebuilt.
    + simpl in H. change (is_resp_persname under (Elem t a x cs tl))
        with (under && Str.eqb t (tei "persName")) in E1.
      unfold is_resp_persname, has_tag in H. rewrite E1, E2 in H.
      simpl in H. apply negb_true_iff in H.
      assert (Hq : map (normalize_from (Str.eqb t (tei "respStmt"))) cs = cs).
      { rewrite <- (map_id cs) at 2. apply map_ext_in. intros c Hc.
        apply normalize_from_quiet.
        apply existsb_false_Forall in H. rewrite Forall_forall in H.
        now apply H. }
      rewrite Hq, normalize_from_Elem.
      change (is_resp_persname under (Elem t a x cs tl))
        with (under && Str.eqb t (tei "persName")).
      now rewrite E1, E2, Hq.
  - simpl andb; cbv iota. rewrite normalize_from_Elem.
    rewrite is_resp_persname_tag with (a := a) (x := x) (cs := cs) (tl := tl).
    rewrite E1. simpl andb; cbv iota. f_equal.
    rewrite map_map. apply map_ext_in. intros c Hc.
    rewrite Forall_forall in IH. apply IH; [assumption|].
    simpl in H. change (is_resp_persname under (Elem t a x cs tl))
      with (under && Str.eqb t (tei "persName")) in E1.
    unfold is_resp_persname, has_tag in H. rewrite E1 in H.
    rewrite forallb_forall in H. now apply H.
Qed.

(* ------------------------------------------------------------------ *)
(** ** Queries after an update

    A query that tests tags only finds its matches at the same places
    after an element has been mutated, as long as the mutation keeps the
    tag of the element and the places of the matches below it. *)

Section SelectStable.
Variable sel : list str -> node -> bool.
Variable f : node -> node.
Hypothesis sel_tag :
  forall anc n n', tag_of n = tag_of n' -> sel anc n = sel anc n'.
Hypothesis f_stable :
  forall anc e, map fst (select sel anc (f e)) = map fst (select sel anc e).

Lemma map_fst_shift (k : nat) (l : list (path * node)) :
  map fst (map (fun m => (k :: fst m, snd m)) l) = map (cons k) (map fst l).
Proof. rewrite !map_map. reflexivity. Qed.

Lemma select_list_update_nth (g : node -> node) anc :
  (forall c, map fst (select sel anc (g c)) = map fst (select sel anc c)) ->
  forall l i k,
    map fst (select_list sel anc k (update_nth i g l))
    = map fst (select_list sel anc k l).
Proof.
  intros Hg. induction l as [|c l IH]; intros [|i] k; simpl; auto.
  - rewrite !map_app, !map_fst_shift, Hg. reflexivity.
  - rewrite !map_app, IH. reflexivity.
Qed.

Lemma select_update_at p :
  forall anc n,
    map fst (select sel anc (update_at p f n)) = map fst (select sel anc n).
Proof.
  induction p as [|i p IH]; intros anc n; simpl update_at.
  - apply f_stable.
  - destruct n as [t a x cs tl|c tl]; [|reflexivity].
    rewrite !select_Elem, !map_app. f_equal.
    + rewrite (sel_tag anc (Elem t a x (update_nth i (update_at p f) cs) tl)
                 (Elem t a x cs tl) eq_refl).
      destruct (sel anc (Elem t a x cs tl)); reflexivity.
    + apply select_list_update_nth. intros c. apply IH.
Qed.

Lemma select_desc_update_at i p n :
  map fst (select_desc sel (update_at (i :: p) f n))
  = map fst (select_desc sel n).
Proof.
  destruct n as [t a x cs tl|c tl]; [|reflexivity].
  simpl. apply select_list_update_nth. intros c. apply select_update_at.
Qed.

(** A new leaf that is no match adds no match. *)
Lemma select_list_snoc_leaf anc k l t a x :
  sel anc (Elem t a x [] None) = false ->
  select_list sel anc k (l ++ [Elem t a x [] None])
  = select_list sel anc k l.
Proof.
  intros H. rewrite select_list_app. cbn [select_list].
  rewrite select_Elem, H. cbn [select_list app map]. now rewrite app_nil_r.
Qed.

Lemma select_set_text anc v c :
  map fst (select sel anc (set_text v c)) = map fst (select sel anc c).
Proof.
  destruct c as [t a x cs tl|c tl]; [|reflexivity].
  simpl set_text. rewrite !select_Elem, !map_app.
  rewrite (sel_tag anc (Elem t a (Some v) cs tl) (Elem t a x cs tl) eq_refl).
  destruct (sel anc (Elem t a x cs tl)); reflexivity.
Qed.

Lemma select_list_update_first (q : node -> bool) (g : node -> node) anc :
  (forall c, map fst (select sel anc (g c)) = map fst (select sel anc c)) ->
  forall l l' k,
    update_first q g l = Some l' ->
    map fst (select_list sel anc k l') = map fst (select_list sel anc k l).
Proof.
  intros Hg. induction l as [|c l IH]; intros l' k H; simpl in H.
  - discriminate.
  - destruct (q c).
    + injection H as <-. simpl. rewrite !map_app, !map_fst_shift, Hg.
      reflexivity.
    + destruct (update_first q g l) as [l1|] eqn:E; [|discriminate].
      injection H as <-. simpl. rewrite !map_app. f_equal. now apply IH.
Qed.
End SelectStable.

Lemma select_desc_sound sel root p e :
  In (p, e) (select_desc sel root) ->
  get_at p root = Some e /\ exists i p', p = i :: p'.
Proof.
  destruct root as [t a x cs tl|c tl]; [|contradiction].
  simpl. intros H. apply in_select_list in H.
  destruct H as (i & c & p' & -> & Hn & Hin). split.
  - simpl. rewrite Hn. now apply select_sound in Hin.
  - eauto.
Qed.

Lemma fst_head (A B : Type) (l l' : list (A * B)) a b rest :
  map fst l' = map fst l -> l = (a, b) :: rest ->
  exists b' rest', l' = (a, b') :: rest'.
Proof.
  intros H ->. destruct l' as [|[a' b'] l']; simpl in H; [discriminate|].
  injection H as -> _. now exists b', l'.
Qed.

(* ------------------------------------------------------------------ *)
(** ** Rule 6: the publisher *)

Lemma is_pub_stmt_tag anc n n' :
  tag_of n = tag_of n' -> is_pub_stmt anc n = is_pub_stmt anc n'.
Proof.
  unfold is_pub_stmt. destruct n, n'; simpl; intros H; try discriminate;
    [injection H as -> |]; reflexivity.
Qed.

Lemma publisher_body_stable anc e :
  map fst (select is_pub_stmt anc (publisher_body e))
  = map fst (select is_pub_stmt anc e).
Proof.
  destruct e as [t a x cs tl|c tl]; [|reflexivity].
  unfold publisher_body.
  destruct (update_first _ _ cs) as [cs'|] eqn:E.
  - rewrite !select_Elem, !map_app. f_equal.
    + rewrite (is_pub_stmt_tag anc (Elem t a x cs' tl) (Elem t a x cs tl)
                 eq_refl).
      destruct (is_pub_stmt anc (Elem t a x cs tl)); reflexivity.
    + eapply select_list_update_first; [|exact E].
      intros c. apply select_set_text. apply is_pub_stmt_tag.
  - rewrite !select_Elem, !map_app. f_equal.
    + rewrite (is_pub_stmt_tag anc (Elem t a x (cs ++ _) tl) (Elem t a x cs tl)
                 eq_refl).
      destruct (is_pub_stmt anc (Elem t a x cs tl)); reflexivity.
    + unfold new_elem. rewrite select_list_snoc_leaf; reflexivity.
Qed.

Lemma update_first_again (q : node -> bool) (g : node -> node) :
  (forall c, q (g c) = q c) -> (forall c, g (g c) = g c) ->
  forall l l', update_first q g l = Some l' -> update_first q g l' = Some l'.
Proof.
  intros Hq Hg. induction l as [|c l IH]; intros l' H; simpl in H.
  - discriminate.
  - destruct (q c) eqn:E.
    + injection H as <-. simpl. now rewrite Hq, E, Hg.
    + destruct (update_first q g l) as [l1|] eqn:E1; [|discriminate].
      injection H as <-. simpl. now rewrite E, (IH l1 eq_refl).
  Qed.

Lemma update_first_snoc (q : node -> bool) (g : node -> node) c' :
  q c' = true ->
  forall l, update_first q g l = None ->
            update_first q g (l ++ [c']) = Some (l ++ [g c']).
Proof.
  intros Hq. induction l as [|c l IH]; intros H; simpl in *.
  - now rewrite Hq.
  - destruct (q c); [discriminate|].
    destruct (update_first q g l); [discriminate|].
    now rewrite (IH eq_refl).
Qed.

Lemma publisher_body_idem e :
  publisher_body (publisher_body e) = publisher_body e.
Proof.
  destruct e as [t a x cs tl|c tl]; [|reflexivity].
  unfold publisher_body.
  destruct (update_first _ _ cs) as [cs'|] eqn:E.
  - rewrite (update_first_again _ (set_text PUBLISHER_TEXT)) with (l := cs);
      auto; intros []; reflexivity.
  - unfold new_elem. rewrite update_first_snoc; auto.
Qed.

Lemma ensure_publisher_idem root :
  ensure_publisher (ensure_publisher root) = ensure_publisher root.
Proof.
  unfold ensure_publisher at 2 3.
  destruct (pub_stmts root) as [|[p ps] rest] eqn:E.
  - unfold ensure_publisher. now rewrite E.
  - unfold ensure_publisher.
    assert (H : map fst (pub_stmts (update_at p publisher_body root))
                = map fst (pub_stmts root)).
    { apply select_update_at; [apply is_pub_stmt_tag|].
      intros; apply publisher_body_stable. }
    destruct (fst_head _ H E) as (ps' & rest' & E').
    rewrite E', update_at_twice. apply update_at_ext.
    intros e _. apply publisher_body_idem.
Qed.

(* ------------------------------------------------------------------ *)
(** ** Appending a child that holds no match *)

Section AppendStable.
Variable sel : list str -> node -> bool.
Variable c : node.
Hypothesis sel_tag :
  forall anc n n', tag_of n = tag_of n' -> sel anc n = sel anc n'.
Hypothesis c_free : forall anc, select sel anc c = [].

Lemma append_child_stable anc e :
  map fst (select sel anc (append_child c e)) = map fst (select sel anc e).
Proof.
  destruct e as [t a x cs tl|k tl]; [|reflexivity].
  simpl append_child. rewrite !select_Elem, !map_app. f_equal.
  - rewrite (sel_tag anc (Elem t a x (cs ++ [c]) tl) (Elem t a x cs tl)
               eq_refl).
    destruct (sel anc (Elem t a x cs tl)); reflexivity.
  - rewrite select_list_app. cbn [select_list]. rewrite c_free.
    cbn [map app]. now rewrite app_nil_r.
Qed.

(** The first match stays the first match, and holds the new child. *)
Lemma first_after_append root p e rest :
  select sel [] root = (p, e) :: rest ->
  exists rest',
    select sel [] (update_at p (append_child c) root)
    = (p, append_child c e) :: rest'.
Proof.
  intros E.
  assert (H : map fst (select sel [] (update_at p (append_child c) root))
              = map fst (select sel [] root)).
  { apply select_update_at; [exact sel_tag|].
    intros; apply append_child_stable. }
  destruct (fst_head _ H E) as (e' & rest' & E').
  exists rest'. rewrite E'. do 2 f_equal.
  assert (Hin : In (p, e) (select sel [] root)) by (rewrite E; now left).
  assert (Hin' : In (p, e') (select sel []
                               (update_at p (append_child c) root)))
    by (rewrite E'; now left).
  apply select_sound in Hin, Hin'. destruct Hin as [Hg _], Hin' as [Hg' _].
  rewrite (get_at_update_at_same _ _ _ Hg) in Hg'. congruence.
Qed.

Lemma first_desc_after_append root p e rest :
  select_desc sel root = (p, e) :: rest ->
  exists rest',
    select_desc sel (update_at p (append_child c) root)
    = (p, append_child c e) :: rest'.
Proof.
  intros E.
  assert (Hin : In (p, e) (select_desc sel root)) by (rewrite E; now left).
  apply select_desc_sound in Hin. destruct Hin as (Hg & i & p' & ->).
  assert (H : map fst (select_desc sel
                         (update_at (i :: p') (append_child c) root))
              = map fst (select_desc sel root)).
  { apply select_desc_update_at; [exact sel_tag|].
    intros; apply append_child_stable. }
  destruct (fst_head _ H E) as (e' & rest' & E').
  exists rest'. rewrite E'. do 2 f_equal.
  assert (Hin' : In (i :: p', e')
                   (select_desc sel
                      (update_at (i :: p') (append_child c) root)))
    by (rewrite E'; now left).
  apply select_desc_sound in Hin'. destruct Hin' as [Hg' _].
  rewrite (get_at_update_at_same _ _ _ Hg) in Hg'. congruence.
Qed.
End AppendStable.

Lemma has_tag_Elem t n :
  has_tag t n = true -> exists a x cs tl, n = Elem t a x cs tl.
Proof.
  destruct n as [t' a x cs tl|c tl]; simpl; [|discriminate].
  intros H. apply StrFacts.eqb_eq in H. subst. eauto.
Qed.

(* ------------------------------------------------------------------ *)
(** ** Rule 7: the corpus identifier *)

Lemma pub_stmts_head root p ps rest :
  pub_stmts root = (p, ps) :: rest ->
  get_at p root = Some ps
  /\ exists a x cs tl, ps = Elem (tei "publicationStmt") a x cs tl.
Proof.
  intros E.
  assert (Hin : In (p, ps) (select is_pub_stmt [] root))
    by (unfold pub_stmts in E; rewrite E; now left).
  apply select_sound in Hin. destruct Hin as [Hg Hs]. split; [exact Hg|].
  unfold is_pub_stmt in Hs. apply andb_true_iff in Hs.
  destruct Hs as [Hs _]. now apply has_tag_Elem.
Qed.

Lemma ensure_caldracor_id_idem root basename :
  ensure_caldracor_id (ensure_caldracor_id root basename) basename
  = ensure_caldracor_id root basename.
Proof.
  unfold ensure_caldracor_id at 2 3.
  destruct (pub_stmts root) as [|[p ps] rest] eqn:E.
  - unfold ensure_caldracor_id. now rewrite E.
  - destruct (existsb is_caldracor_idno (children_of ps)) eqn:X.
    + unfold ensure_caldracor_id. now rewrite E, X.
    + destruct (@first_after_append is_pub_stmt (caldracor_idno basename)
                  is_pub_stmt_tag (fun anc => eq_refl) root p ps rest E)
        as [rest' E'].
      unfold ensure_caldracor_id, pub_stmts. rewrite E'.
      destruct (pub_stmts_head _ E) as (_ & a & x & cs & tl & ->).
      simpl append_child. simpl children_of. rewrite existsb_app.
      simpl existsb at 2. now rewrite orb_true_r.
Qed.

(* ------------------------------------------------------------------ *)
(** ** Rule 8: the creation date *)

Lemma is_profile_desc_tag anc n n' :
  tag_of n = tag_of n' -> is_profile_desc anc n = is_profile_desc anc n'.
Proof.
  unfold is_profile_desc. destruct n, n'; simpl; intros H; try discriminate;
    [injection H as -> |]; reflexivity.
Qed.

Lemma profile_desc_head root p pd rest :
  select_desc is_profile_desc root = (p, pd) :: rest ->
  get_at p root = Some pd
  /\ exists a x cs tl, pd = Elem (tei "profileDesc") a x cs tl.
Proof.
  intros E.
  assert (Hin : In (p, pd) (select_desc is_profile_desc root))
    by (rewrite E; now left).
  destruct (select_desc_sound _ _ _ _ Hin) as [Hg _]. split; [exact Hg|].
  destruct root as [t a x cs tl|c tl]; [|contradiction].
  simpl in Hin. apply in_select_list in Hin.
  destruct Hin as (i & c & p' & _ & _ & Hin).
  apply select_sound in Hin. destruct Hin as [_ Hs].
  now apply has_tag_Elem.
Qed.

Lemma ensure_creation_from_events_idem root :
  ensure_creation_from_events (ensure_creation_from_events root)
  = ensure_creation_from_events root.
Proof.
  unfold ensure_creation_from_events at 2 3.
  destruct (select_desc is_profile_desc root) as [|[p pd] rest] eqn:E.
  - unfold ensure_creation_from_events. now rewrite E.
  - destruct (existsb (has_tag (tei "creation")) (children_of pd)) eqn:X.
    + unfold ensure_creation_from_events. now rewrite E, X.
    + destruct (chosen_event root) as [ev|] eqn:V.
      * destruct (@first_desc_after_append is_profile_desc
                    (creation_block ev) is_profile_desc_tag
                    (fun anc => eq_refl) root p pd rest E) as [rest' E'].
        unfold ensure_creation_from_events. rewrite E'.
        destruct (profile_desc_head _ E) as (_ & a & x & cs & tl & ->).
        simpl append_child. simpl children_of. rewrite existsb_app.
        simpl existsb at 2. now rewrite orb_true_r.
      * unfold ensure_creation_from_events. now rewrite E, X, V.
Qed.

(* ------------------------------------------------------------------ *)
(** ** Matches come in document order *)

Lemma sorted_app (l1 l2 : list path) :
  StronglySorted before l1 -> StronglySorted before l2 ->
  (forall p q, In p l1 -> In q l2 -> before p q) ->
  StronglySorted before (l1 ++ l2).
Proof.
  induction l1 as [|p l1 IH]; simpl; intros H1 H2 H; [assumption|].
  inversion H1 as [|? ? Hs Hf]; subst. constructor.
  - apply IH; auto.
  - apply Forall_app. split; [assumption|].
    apply Forall_forall. intros q Hq. apply H; auto.
Qed.

Lemma sorted_shift (k : nat) (l : list path) :
  StronglySorted before l -> StronglySorted before (map (cons k) l).
Proof.
  induction 1 as [|p l Hs IH Hf]; simpl; constructor; [assumption|].
  apply Forall_forall. intros q Hq. apply in_map_iff in Hq.
  destruct Hq as (q' & <- & Hq'). rewrite Forall_forall in Hf.
  unfold before. simpl. rewrite Nat.eqb_refl, Nat.ltb_irrefl. simpl.
  now apply Hf.
Qed.

Section SelectOrder.
Variable sel : list str -> node -> bool.

Lemma select_list_from anc k l p :
  In p (map fst (select_list sel anc k l)) ->
  exists i p', p = i :: p' /\ k <= i.
Proof.
  intros H. apply in_map_iff in H. destruct H as ([q e] & <- & H).
  apply in_select_list in H. destruct H as (i & c & p' & -> & _ & _).
  exists (k + i), p'. split; [reflexivity | lia].
Qed.

Lemma select_list_sorted anc l :
  Forall (fun c => forall anc', StronglySorted before
                                  (map fst (select sel anc' c))) l ->
  forall k, StronglySorted before (map fst (select_list sel anc k l)).
Proof.
  induction 1 as [|c l Hc Hl IH]; intros k; simpl; [constructor|].
  rewrite map_app, map_fst_shift. apply sorted_app.
  - apply sorted_shift, Hc.
  - apply IH.
  - intros p q Hp Hq. apply in_map_iff in Hp. destruct Hp as (p' & <- & _).
    apply select_list_from in Hq. destruct Hq as (j & q' & -> & Hj).
    unfold before. simpl.
    destruct (Nat.ltb_spec k j); [reflexivity | lia].
Qed.

Lemma select_sorted n :
  forall anc, StronglySorted before (map fst (select sel anc n)).
Proof.
  induction n as [t a x cs tl IH|c tl] using node_tree_ind; intros anc.
  - rewrite select_Elem, map_app. apply sorted_app.
    + destruct (sel anc _); simpl; repeat constructor.
    + now apply select_list_sorted.
    + intros p q Hp Hq.
      destruct (sel anc _); simpl in Hp; [|contradiction].
      destruct Hp as [<-|[]].
      apply select_list_from in Hq. destruct Hq as (j & q' & -> & _).
      reflexivity.
  - rewrite select_Misc. destruct (sel anc _); simpl; repeat constructor.
Qed.

(** The head of the result is the first match in document order. *)
Lemma select_head_first root q e rest :
  select sel [] root = (q, e) :: rest -> first_match sel root q e.
Proof.
  intros E.
  assert (Hin : In (q, e) (select sel [] root)) by (rewrite E; now left).
  apply select_sound in Hin. destruct Hin as [Hg Hs].
  split; [exact Hg|]. split; [exact Hs|].
  intros q' e' Hg' Hs'.
  pose proof (select_complete sel q' [] root Hg' Hs') as Hin'.
  rewrite E in Hin'. destruct Hin' as [Heq|Hin'].
  - left. congruence.
  - right. pose proof (select_sorted root []) as Hsorted.
    rewrite E in Hsorted. simpl in Hsorted.
    inversion Hsorted as [|? ? _ Hf]; subst.
    rewrite Forall_forall in Hf. apply Hf.
    apply in_map_iff. now exists (q', e').
Qed.

Lemma select_nil_no_match root :
  select sel [] root = [] -> no_match sel root.
Proof.
  intros E q e Hg. destruct (sel (anc_at q [] root) e) eqn:Hs; [|reflexivity].
  pose proof (select_complete sel q [] root Hg Hs) as Hin.
  rewrite E in Hin. contradiction.
Qed.
End SelectOrder.

Lemma select_desc_head_first sel root q e rest :
  select_desc sel root = (q, e) :: rest -> first_below sel root q e.
Proof.
  intros E.
  destruct root as [t a x cs tl|c tl]; [|discriminate].
  assert (Hsel : select sel [] (Elem t a x cs tl)
                 = (if sel [] (Elem t a x cs tl)
                    then [([], Elem t a x cs tl)] else [])
                   ++ select_desc sel (Elem t a x cs tl))
    by apply select_Elem.
  assert (Hin : In (q, e) (select_desc sel (Elem t a x cs tl)))
    by (rewrite E; now left).
  destruct (select_desc_sound _ _ _ _ Hin) as (Hg & i & q0 & ->).
  assert (Hin0 : In (i :: q0, e) (select sel [] (Elem t a x cs tl)))
    by (rewrite Hsel; apply in_app_iff; now right).
  apply select_sound in Hin0. destruct Hin0 as [_ Hs].
  split; [discriminate|]. split; [exact Hg|]. split; [exact Hs|].
  intros q' e' Hne Hg' Hs'.
  pose proof (select_complete sel q' [] (Elem t a x cs tl) Hg' Hs') as Hin'.
  rewrite Hsel in Hin'. apply in_app_iff in Hin'. destruct Hin' as [Hin'|Hin'].
  - destruct (sel [] (Elem t a x cs tl)); [|contradiction].
    destruct Hin' as [Heq|[]]. injection Heq as <- _. congruence.
  - rewrite E in Hin'. destruct Hin' as [Heq|Hin']; [left; congruence|].
    right.
    assert (Hsorted : StronglySorted before
                        (map fst (select_desc sel (Elem t a x cs tl)))).
    { simpl select_desc. apply select_list_sorted.
      apply Forall_forall. intros c _ anc'. apply select_sorted. }
    rewrite E in Hsorted. simpl in Hsorted.
    inversion Hsorted as [|? ? _ Hf]; subst.
    rewrite Forall_forall in Hf. apply Hf.
    apply in_map_iff. now exists (q', e').
Qed.

(* ------------------------------------------------------------------ *)
(** ** The date attributes copied from an event *)

Lemma get_copy_step ev date attr k :
  Attr.get k (copy_step ev date attr)
  = if Str.eqb k attr && otruthy (Attr.get k (attrib_of ev))
    then Attr.get k (attrib_of ev) else Attr.get k date.
Proof.
  unfold copy_step. destruct (Str.eqb k attr) eqn:E.
  - apply StrFacts.eqb_eq in E. subst k. simpl.
    destruct (Attr.get attr (attrib_of ev)) as [v|]; simpl; [|reflexivity].
    destruct (truthy v); [apply AttrFacts.get_set_same | reflexivity].
  - apply StrFacts.eqb_neq in E. simpl.
    destruct (Attr.get attr (attrib_of ev)) as [v|]; [|reflexivity].
    destruct (truthy v); [|reflexivity].
    apply AttrFacts.get_set_other. congruence.
Qed.

Lemma get_fold_copy ev k (l : list str) :
  forall date,
    Attr.get k (fold_left (copy_step ev) l date)
    = if existsb (Str.eqb k) l && otruthy (Attr.get k (attrib_of ev))
      then Attr.get k (attrib_of ev) else Attr.get k date.
Proof.
  induction l as [|attr l IH]; intros date; simpl; [reflexivity|].
  rewrite IH, get_copy_step.
  destruct (Str.eqb k attr), (existsb (Str.eqb k) l),
    (otruthy (Attr.get k (attrib_of ev))); reflexivity.
Qed.

(** The date node carries an attribute exactly when it is one of the
    three and the event has it with a non-empty value. *)
Lemma get_copy_dates ev k :
  Attr.get k (copy_dates ev)
  = if existsb (Str.eqb k) DATE_ATTRS && otruthy (Attr.get k (attrib_of ev))
    then Attr.get k (attrib_of ev) else None.
Proof. unfold copy_dates. apply (get_fold_copy ev k DATE_ATTRS []). Qed.

(* ------------------------------------------------------------------ *)
(** ** First matches *)

Lemma doc_before_asym p :
  forall q, doc_before p q = true -> doc_before q p = false.
Proof.
  induction p as [|i p IH]; intros [|j q]; simpl; auto; try discriminate.
  intros H. apply orb_true_iff in H. destruct H as [H|H].
  - apply Nat.ltb_lt in H.
    destruct (Nat.ltb_spec j i); [lia|]. destruct (Nat.eqb_spec j i); [lia|].
    reflexivity.
  - apply andb_true_iff in H. destruct H as [H1 H2].
    apply Nat.eqb_eq in H1. subst j. rewrite Nat.ltb_irrefl, Nat.eqb_refl.
    simpl. now apply IH.
Qed.

Lemma first_match_head sel root q e :
  first_match sel root q e -> exists rest, select sel [] root = (q, e) :: rest.
Proof.
  intros (Hg & Hs & Hmin).
  pose proof (select_complete sel q [] root Hg Hs) as Hin.
  destruct (select sel [] root) as [|[q0 e0] rest] eqn:E; [contradiction|].
  destruct (select_head_first _ _ E) as (Hg0 & Hs0 & Hmin0).
  assert (q0 = q) as ->.
  { destruct (Hmin _ _ Hg0 Hs0) as [H|H]; [assumption|].
    destruct (Hmin0 _ _ Hg Hs) as [H'|H']; [congruence|].
    apply doc_before_asym in H. congruence. }
  exists rest. do 2 f_equal. congruence.
Qed.

Lemma no_match_nil sel root : no_match sel root -> select sel [] root = [].
Proof.
  intros H. destruct (select sel [] root) as [|[q e] rest] eqn:E; [reflexivity|].
  destruct (select_head_first _ _ E) as (Hg & Hs & _).
  rewrite (H _ _ Hg) in Hs. discriminate.
Qed.

Lemma existsb_eqb_In k (l : list str) :
  existsb (Str.eqb k) l = true <-> In k l.
Proof.
  rewrite existsb_exists. split.
  - intros (y & Hy & E). apply StrFacts.eqb_eq in E. now subst.
  - intros H. exists k. split; [assumption | apply StrFacts.eqb_refl].
Qed.

Lemma copy_dates_exact ev k v :
  Attr.get k (copy_dates ev) = Some v
  <-> In k DATE_ATTRS /\ Attr.get k (attrib_of ev) = Some v /\ v <> [].
Proof.
  rewrite get_copy_dates.
  destruct (existsb (Str.eqb k) DATE_ATTRS) eqn:E.
  - apply existsb_eqb_In in E.
    destruct (Attr.get k (attrib_of ev)) as [[|c w]|]; cbn [andb otruthy truthy];
      split; try discriminate; try (intros (_ & H & H'); congruence).
    intros [= <-]. repeat split; auto. discriminate.
  - cbn [andb]. split; [discriminate|]. intros (H & _).
    apply existsb_eqb_In in H. congruence.
Qed.

Lemma copy_step_ext ev ev' date attr :
  (if otruthy (Attr.get attr (attrib_of ev))
   then Attr.get attr (attrib_of ev) else None)
  = (if otruthy (Attr.get attr (attrib_of ev'))
     then Attr.get attr (attrib_of ev') else None) ->
  copy_step ev date attr = copy_step ev' date attr.
Proof.
  unfold copy_step.
  destruct (Attr.get attr (attrib_of ev)) as [[|c v]|],
    (Attr.get attr (attrib_of ev')) as [[|c' v']|]; simpl;
    intros H; try reflexivity; try discriminate.
  now injection H as -> ->.
Qed.

(* ------------------------------------------------------------------ *)
(** ** The first child with a property *)

Section UpdateFirst.
Variable q : node -> bool.
Variable g : node -> node.

Lemma update_first_none l :
  update_first q g l = None <-> List.find q l = None.
Proof.
  induction l as [|c l IH]; simpl; [tauto|].
  destruct (q c); [split; discriminate|].
  destruct (update_first q g l); simpl.
  - split; [discriminate|]. intros H. apply IH in H. discriminate.
  - split; [intros _; now apply IH | reflexivity].
Qed.

Lemma update_first_some l l' :
  update_first q g l = Some l' ->
  exists l1 c l2,
    l = l1 ++ c :: l2 /\ l' = l1 ++ g c :: l2
    /\ existsb q l1 = false /\ List.find q l = Some c.
Proof.
  revert l'; induction l as [|c l IH]; intros l' H; simpl in H.
  - discriminate.
  - destruct (q c) eqn:E.
    + injection H as <-. exists [], c, l. simpl. now rewrite E.
    + destruct (update_first q g l) as [l0|]; [|discriminate].
      injection H as <-.
      destruct (IH l0 eq_refl) as (l1 & c0 & l2 & -> & -> & H1 & H2).
      exists (c :: l1), c0, l2. simpl. now rewrite E, H1.
Qed.

Lemma find_prefix (l1 l2 : list node) c :
  existsb q l1 = false -> q c = true -> List.find q (l1 ++ c :: l2) = Some c.
Proof.
  induction l1 as [|c1 l1 IH]; simpl; intros H Hc.
  - now rewrite Hc.
  - apply orb_false_iff in H. destruct H as [-> H]. now apply IH.
Qed.

Lemma find_snoc (l : list node) c :
  List.find q l = None -> q c = true -> List.find q (l ++ [c]) = Some c.
Proof.
  induction l as [|c1 l IH]; simpl; intros H Hc.
  - now rewrite Hc.
  - destruct (q c1); [discriminate | now apply IH].
Qed.

Lemma filter_none (l : list node) : List.find q l = None -> filter q l = [].
Proof.
  induction l as [|c l IH]; simpl; [reflexivity|].
  destruct (q c); [discriminate | exact IH].
Qed.
End UpdateFirst.

(* ------------------------------------------------------------------ *)
(** ** Rules that rewrite each match in place

    Rules 1 to 4 replace the attributes of an element and append
    children to it, and do so only where the rule fires; the elements of
    the input keep their places. *)

Section LocalRule.
Variable R : node -> node.
Variable fires : list str -> node -> bool.
Hypothesis fires_anc : forall anc anc' n, fires anc n = fires anc' n.
Hypothesis R_Misc : forall c tl, R (Misc c tl) = Misc c tl.
Hypothesis R_Elem :
  forall t a x cs tl,
  exists a' extra,
    R (Elem t a x cs tl) = Elem t a' x (map R cs ++ extra) tl
    /\ (forall anc, fires anc (Elem t a x cs tl) = false ->
                    a' = a /\ extra = []).

Lemma local_get_at q :
  forall n e, get_at q n = Some e -> get_at q (R n) = Some (R e).
Proof.
  induction q as [|i q IH]; intros n e H; simpl in H.
  - now injection H as ->.
  - destruct n as [t a x cs tl|c tl]; simpl in H.
    + destruct (nth_error cs i) as [c|] eqn:Hn; [|discriminate].
      destruct (R_Elem t a x cs tl) as (a' & extra & -> & _). simpl.
      rewrite nth_error_app1
        by (rewrite length_map; apply nth_error_Some; congruence).
      rewrite nth_error_map, Hn. simpl. now apply IH.
    + destruct i; discriminate.
Qed.

Lemma local_shallow anc e :
  fires anc e = false -> shallow (R e) = shallow e.
Proof.
  destruct e as [t a x cs tl|c tl]; intros H.
  - destruct (R_Elem t a x cs tl) as (a' & extra & -> & Hq).
    destruct (Hq anc H) as [-> _]. reflexivity.
  - now rewrite R_Misc.
Qed.

Lemma local_quiet n :
  forall anc, select fires anc n = [] -> R n = n.
Proof.
  induction n as [t a x cs tl IH|c tl] using node_tree_ind; intros anc H.
  - apply select_nil_Elem in H. destruct H as [H1 H2].
    destruct (R_Elem t a x cs tl) as (a' & extra & -> & Hq).
    destruct (Hq anc H1) as [-> ->]. rewrite app_nil_r. f_equal.
    rewrite <- (map_id cs) at 2. apply map_ext_in. intros c Hc.
    rewrite Forall_forall in IH, H2. apply (IH c Hc (t :: anc)).
    now apply H2.
  - apply R_Misc.
Qed.

(** The frame of a local rule. *)
Lemma local_frame root q e :
  get_at q root = Some e ->
  (forall t, In t (map fst (select fires [] root)) -> is_prefix t q = false) ->
  exists e', get_at q (R root) = Some e' /\ shallow e' = shallow e.
Proof.
  intros Hg Hout. exists (R e). split; [now apply local_get_at|].
  apply local_shallow with (anc := anc_at q [] root).
  destruct (fires (anc_at q [] root) e) eqn:F; [|reflexivity].
  pose proof (select_complete fires q [] root Hg F) as Hin.
  assert (Hq : In q (map fst (select fires [] root)))
    by (apply in_map_iff; now exists (q, e)).
  apply Hout in Hq. rewrite is_prefix_refl in Hq. discriminate.
Qed.
End LocalRule.

Lemma wikidata_local t a x cs tl :
  exists a' extra,
    add_wikidata_corresp (Elem t a x cs tl)
    = Elem t a' x (map add_wikidata_corresp cs ++ extra) tl
    /\ (forall anc, wikidata_fires anc (Elem t a x cs tl) = false ->
                    a' = a /\ extra = []).
Proof.
  exists (if is_wikidata_idno (Elem t a x cs tl) then wikidata_body a x else a),
    [].
  rewrite app_nil_r. split; [reflexivity|].
  intros anc H. split; [|reflexivity].
  unfold wikidata_fires in H. simpl text_of in H. simpl attrib_of in H.
  destruct (is_wikidata_idno (Elem t a x cs tl)); [|reflexivity].
  simpl in H. unfold wikidata_body. now rewrite H.
Qed.

Lemma pnd_local t a x cs tl :
  exists a' extra,
    convert_pnd_to_gnd (Elem t a x cs tl)
    = Elem t a' x (map convert_pnd_to_gnd cs ++ extra) tl
    /\ (forall anc, pnd_fires anc (Elem t a x cs tl) = false ->
                    a' = a /\ extra = []).
Proof.
  exists (if is_pnd_idno (Elem t a x cs tl) then pnd_body a x else a), [].
  rewrite app_nil_r. split; [reflexivity|].
  intros anc H. unfold pnd_fires in H. now rewrite H.
Qed.

Lemma langusage_local t a x cs tl :
  exists a' extra,
    ensure_langusage_spanish (Elem t a x cs tl)
    = Elem t a' x (map ensure_langusage_spanish cs ++ extra) tl
    /\ (forall anc, langusage_fires anc (Elem t a x cs tl) = false ->
                    a' = a /\ extra = []).
Proof.
  exists a,
    (if Str.eqb t (tei "profileDesc") then langusage_added cs else []).
  split; [reflexivity|].
  intros anc H. split; [reflexivity|].
  unfold langusage_fires in H. simpl has_tag in H. simpl children_of in H.
  destruct (Str.eqb t (tei "profileDesc")); [|reflexivity].
  simpl in H. apply negb_false_iff in H. unfold langusage_added.
  now rewrite H.
Qed.

Lemma keywords_local t a x cs tl :
  exists a' extra,
    ensure_textclass_keywords (Elem t a x cs tl)
    = Elem t a' x (map ensure_textclass_keywords cs ++ extra) tl
    /\ (forall anc, keywords_fires anc (Elem t a x cs tl) = false ->
                    a' = a /\ extra = []).
Proof.
  exists a,
    (if Str.eqb t (tei "textClass") then keywords_added cs else []).
  split; [reflexivity|].
  intros anc H. split; [reflexivity|].
  unfold keywords_fires in H. simpl has_tag in H. simpl children_of in H.
  destruct (Str.eqb t (tei "textClass")); [|reflexivity].
  simpl in H. apply negb_false_iff in H.
  apply andb_true_iff in H. destruct H as [H H3].
  apply andb_true_iff in H. destruct H as [H1 H2].
  rewrite keywords_added_independent. unfold group_added.
  now rewrite H1, H2, H3.
Qed.

(* ------------------------------------------------------------------ *)
(** ** The name normaliser along a path *)

Lemma is_prefix_nil_l (q : path) : is_prefix [] q = true.
Proof. reflexivity. Qed.

(** An entry that does not lie inside a rebuilt entry is found at the
    same place after the rule, as the rule leaves it. *)
Lemma normalize_from_at q :
  forall anc n e,
    get_at q n = Some e ->
    (forall t, In t (map fst (select persname_fires anc n)) ->
               is_prefix t q = true -> t = q) ->
    get_at q (normalize_from (parent_is (tei "respStmt") anc) n)
    = Some (normalize_from (parent_is (tei "respStmt") (anc_at q anc n)) e).
Proof.
  induction q as [|i q IH]; intros anc n e Hg Hout; simpl in Hg.
  - now injection Hg as ->.
  - destruct n as [t a x cs tl|c tl]; simpl in Hg.
    + destruct (nth_error cs i) as [c|] eqn:Hn; [|discriminate].
      assert (F : persname_fires anc (Elem t a x cs tl) = false).
      { destruct (persname_fires anc (Elem t a x cs tl)) eqn:F; [|reflexivity].
        assert (Hin : In [] (map fst (select persname_fires anc
                                        (Elem t a x cs tl)))).
        { rewrite select_Elem, F. now left. }
        apply Hout in Hin; [discriminate | reflexivity]. }
      rewrite normalize_from_Elem. unfold persname_fires in F. rewrite F.
      cbn [get_at children_of anc_at]. rewrite nth_error_map, Hn.
      cbn [option_map].
      apply (IH (t :: anc) c e Hg).
      intros t' Hin Hp.
      assert (Hin' : In (i :: t') (map fst (select persname_fires anc
                                             (Elem t a x cs tl)))).
      { apply in_map_iff in Hin. destruct Hin as ([p' e'] & <- & Hin).
        apply in_map_iff. exists (i :: p', e'). split; [reflexivity|].
        rewrite select_Elem. apply in_app_iff. right.
        apply in_select_list. exists i, c, p'. auto. }
      apply Hout in Hin'; [now injection Hin' | ].
      simpl. now rewrite Nat.eqb_refl.
    + destruct i; discriminate.
Qed.

Lemma persname_quiet n :
  forall anc,
    select persname_fires anc n = [] ->
    normalize_from (parent_is (tei "respStmt") anc) n = n.
Proof.
  induction n as [t a x cs tl IH|c tl] using node_tree_ind; intros anc H;
    [|reflexivity].
  apply select_nil_Elem in H. destruct H as [H1 H2].
  rewrite normalize_from_Elem. unfold persname_fires in H1. rewrite H1.
  f_equal. rewrite <- (map_id cs) at 2. apply map_ext_in. intros c Hc.
  rewrite Forall_forall in IH, H2. apply (IH c Hc (t :: anc)). now apply H2.
Qed.

Lemma persname_frame root q e :
  get_at q root = Some e ->
  (forall t, In t (map fst (select persname_fires [] root)) ->
             is_prefix t q = false) ->
  exists e',
    get_at q (normalize_persname_rojas root) = Some e'
    /\ shallow e' = shallow e.
Proof.
  intros Hg Hout.
  exists (normalize_from (parent_is (tei "respStmt") (anc_at q [] root)) e).
  split.
  - apply (@normalize_from_at q [] root e Hg).
    intros t Hin Hp. apply Hout in Hin. congruence.
  - destruct e as [t a x cs tl|c tl]; [|reflexivity].
    rewrite normalize_from_Elem.
    destruct (is_resp_persname _ _ && rojas_heuristic _) eqn:F;
      [|reflexivity].
    assert (Hin : In q (map fst (select persname_fires [] root))).
    { apply in_map_iff. exists (q, Elem t a x cs tl). split; [reflexivity|].
      now apply select_complete. }
    apply Hout in Hin. rewrite is_prefix_refl in Hin. discriminate.
Qed.

(* ------------------------------------------------------------------ *)
(** ** Entries and containers without matches *)

Lemma keywords_no_container c :
  no_match is_text_class c -> ensure_textclass_keywords c = c.
Proof.
  intros N.
  apply local_quiet with (fires := keywords_fires) (anc := []).
  - reflexivity.
  - apply keywords_local.
  - destruct (select keywords_fires [] c) as [|[p e] rest] eqn:E;
      [reflexivity|].
    destruct (select_head_first _ _ E) as (Hg & Hs & _).
    unfold keywords_fires in Hs. apply andb_true_iff in Hs.
    destruct Hs as [Hs _]. specialize (N p e Hg). unfold is_text_class in N.
    congruence.
Qed.


(* ------------------------------------------------------------------ *)
(** ** The loops and the recursive functions agree *)

Lemma for_each_app refs1 refs2 body root :
  for_each (refs1 ++ refs2) body root
  = for_each refs2 body (for_each refs1 body root).
Proof. unfold for_each. apply fold_left_app. Qed.

Lemma update_nth_middle (A : Type) (g : A -> A) (pre : list A) c post :
  update_nth (List.length pre) g (pre ++ c :: post) = pre ++ g c :: post.
Proof. induction pre as [|b pre IH]; simpl; [reflexivity | now rewrite IH]. Qed.

(** Updates through the references into one child are updates of that
    child. *)
Lemma for_each_shift body i t a x tl (refs : list (path * node)) :
  forall cs,
    for_each (map (fun m => (i :: fst m, snd m)) refs) body (Elem t a x cs tl)
    = Elem t a x (update_nth i (for_each refs body) cs) tl.
Proof.
  induction refs as [|m refs IH]; intros cs.
  - unfold for_each. simpl. f_equal. symmetry. now apply update_nth_id.
  - unfold for_each in *. simpl. rewrite IH, update_nth_twice. reflexivity.
Qed.

Section LoopChildren.
Variable sel : list str -> node -> bool.
Variable body : node -> node.
Variable F : node -> node.

Lemma for_each_children anc t a x tl post cs :
  Forall (fun c => for_each (select sel anc c) body c = F c) cs ->
  forall pre,
    for_each (select_list sel anc (List.length pre) cs) body
             (Elem t a x (pre ++ cs ++ post) tl)
    = Elem t a x (pre ++ map F cs ++ post) tl.
Proof.
  induction 1 as [|c cs Hc _ IH]; intros pre; [reflexivity|].
  cbn [select_list]. rewrite for_each_app, for_each_shift.
  simpl app. rewrite update_nth_middle, Hc.
  replace (pre ++ F c :: cs ++ post) with ((pre ++ [F c]) ++ cs ++ post)
    by (now rewrite <- app_assoc).
  replace (S (List.length pre)) with (List.length (pre ++ [F c]))
    by (rewrite length_app; simpl; lia).
  rewrite IH, <- app_assoc. reflexivity.
Qed.
End LoopChildren.

Section LoopLocal.
Variable sel : node -> bool.
Variable body R : node -> node.
Hypothesis R_Misc : forall c tl, R (Misc c tl) = Misc c tl.
Hypothesis body_Misc : forall c tl, body (Misc c tl) = Misc c tl.
Hypothesis body_R :
  forall t a x cs tl,
  exists a' extra,
    body (Elem t a x cs tl) = Elem t a' x (cs ++ extra) tl
    /\ R (Elem t a x cs tl)
       = if sel (Elem t a x cs tl)
         then Elem t a' x (map R cs ++ extra) tl
         else Elem t a x (map R cs ++ []) tl.

Lemma loop_local n :
  forall anc, for_each (select (fun _ => sel) anc n) body n = R n.
Proof.
  induction n as [t a x cs tl IH|c tl] using node_tree_ind; intros anc.
  - rewrite select_Elem, for_each_app.
    destruct (body_R t a x cs tl) as (a' & extra & Hb & ->).
    assert (IH' : Forall (fun c => for_each (select (fun _ => sel)
                                               (t :: anc) c) body c = R c)
                    cs).
    { apply Forall_forall. intros c Hc. rewrite Forall_forall in IH.
      now apply IH. }
    destruct (sel (Elem t a x cs tl)).
    + pose proof (@for_each_children (fun _ => sel) body R (t :: anc) t a' x
                    tl extra cs IH' []) as Hcs.
      cbn [app List.length] in Hcs.
      change (for_each [([], Elem t a x cs tl)] body (Elem t a x cs tl))
        with (body (Elem t a x cs tl)).
      rewrite Hb. exact Hcs.
    + pose proof (@for_each_children (fun _ => sel) body R (t :: anc) t a x
                    tl [] cs IH' []) as Hcs.
      cbn [app List.length] in Hcs. rewrite app_nil_r in Hcs. exact Hcs.
  - rewrite select_Misc. destruct (sel (Misc c tl)).
    + unfold for_each. simpl. now rewrite body_Misc, R_Misc.
    + unfold for_each. simpl. now rewrite R_Misc.
Qed.
End LoopLocal.

Lemma wikidata_loop_eq root : wikidata_loop root = add_wikidata_corresp root.
Proof.
  unfold wikidata_loop. apply loop_local; try reflexivity.
  intros t a x cs tl. exists (wikidata_body a x), [].
  rewrite !app_nil_r. split; [reflexivity|].
  rewrite add_wikidata_corresp_Elem.
  now destruct (is_wikidata_idno (Elem t a x cs tl)).
Qed.

Lemma pnd_loop_eq root : pnd_loop root = convert_pnd_to_gnd root.
Proof.
  unfold pnd_loop. apply loop_local; try reflexivity.
  intros t a x cs tl. exists (pnd_body a x), [].
  rewrite !app_nil_r. split; [reflexivity|].
  rewrite convert_pnd_to_gnd_Elem.
  now destruct (is_pnd_idno (Elem t a x cs tl)).
Qed.

Lemma langusage_loop_eq root :
  langusage_loop root = ensure_langusage_spanish root.
Proof.
  unfold langusage_loop. apply loop_local; try reflexivity.
  intros t a x cs tl. exists a, (langusage_added cs).
  split; [reflexivity|].
  rewrite ensure_langusage_spanish_Elem. simpl has_tag.
  now destruct (Str.eqb t (tei "profileDesc")).
Qed.

Lemma keywords_loop_eq root :
  keywords_loop root = ensure_textclass_keywords root.
Proof.
  unfold keywords_loop. apply loop_local; try reflexivity.
  intros t a x cs tl. exists a, (keywords_added cs).
  split; [reflexivity|].
  rewrite ensure_textclass_keywords_Elem. simpl has_tag.
  now destruct (Str.eqb t (tei "textClass")).
Qed.

(** A reference below a rebuilt entry leads to nothing the body
    changes. *)
Lemma update_nth_nil (A : Type) (g : A -> A) i : update_nth i g [] = [].
Proof. now destruct i. Qed.

Lemma update_at_leaf body t a x tl p :
  body (Elem t a x [] tl) = Elem t a x [] tl ->
  update_at p body (Elem t a x [] tl) = Elem t a x [] tl.
Proof.
  intros H. destruct p as [|j p]; [exact H|].
  cbn [update_at]. now rewrite update_nth_nil.
Qed.

Lemma update_at_rebuilt t p :
  p <> [] -> update_at p persname_body (rebuilt t) = rebuilt t.
Proof.
  destruct p as [|i p]; [congruence|]. intros _.
  unfold rebuilt, new_elem. cbn [update_at]. f_equal.
  destruct i as [|[|i]]; cbn [update_nth].
  - now rewrite update_at_leaf.
  - now rewrite update_at_leaf.
  - now rewrite update_nth_nil.
Qed.

Lemma for_each_rebuilt t (refs : list (path * node)) :
  Forall (fun r => fst r <> []) refs ->
  for_each refs persname_body (rebuilt t) = rebuilt t.
Proof.
  induction 1 as [|r refs Hr _ IH]; [reflexivity|].
  unfold for_each in *. simpl. now rewrite update_at_rebuilt.
Qed.

Lemma persname_loop_from n :
  forall anc,
    for_each (select is_entry anc n) persname_body n
    = normalize_from (parent_is (tei "respStmt") anc) n.
Proof.
  induction n as [t a x cs tl IH|c tl] using node_tree_ind; intros anc.
  - rewrite select_Elem, for_each_app, normalize_from_Elem.
    assert (IH' : Forall
                    (fun c => for_each (select is_entry (t :: anc) c)
                                persname_body c
                              = normalize_from (Str.eqb t (tei "respStmt")) c)
                    cs).
    { apply Forall_forall. intros c Hc. rewrite Forall_forall in IH.
      now rewrite (IH c Hc (t :: anc)). }
    pose proof (@for_each_children is_entry persname_body
                  (normalize_from (Str.eqb t (tei "respStmt")))
                  (t :: anc) t a x tl [] cs IH' []) as Hcs.
    simpl app in Hcs. rewrite !app_nil_r in Hcs. simpl List.length in Hcs.
    change (is_entry anc (Elem t a x cs tl))
      with (is_resp_persname (parent_is (tei "respStmt") anc)
              (Elem t a x cs tl)).
    destruct (is_resp_persname (parent_is (tei "respStmt") anc)
                (Elem t a x cs tl)) eqn:E.
    + change (for_each [([], Elem t a x cs tl)] persname_body
                (Elem t a x cs tl))
        with (if rojas_heuristic (Elem t a x cs tl)
              then rebuilt t else Elem t a x cs tl).
      destruct (rojas_heuristic (Elem t a x cs tl)) eqn:Hh; cbn [andb].
      * apply for_each_rebuilt. apply Forall_forall. intros [p e] Hin.
        apply in_select_list in Hin. destruct Hin as (i & c & p' & Hp & _).
        simpl in Hp. subst p. simpl. discriminate.
      * exact Hcs.
    + change (for_each [] persname_body (Elem t a x cs tl))
        with (Elem t a x cs tl).
      cbn [andb]. exact Hcs.
  - rewrite select_Misc. now destruct (is_entry anc (Misc c tl)).
Qed.

Lemma persname_loop_eq root : persname_loop root = normalize_persname_rojas root.
Proof. apply (persname_loop_from root []). Qed.

(* ================================================================== *)
(** * The claims *)

(* ------------------------------------------------------------------ *)
(** ** C6: the Wikidata rule *)

(** C6, as stated, fails: an [idno] typed "wikidata" that carries a
    [corresp] attribute with the empty value does not keep that
    attribute as it is; it is overwritten with the Wikidata URL. *)
Lemma wikidata_overwrites_empty_corresp :
  is_wikidata_idno idno_Q42_empty_corresp = true
  /\ Attr.get (u "corresp") (attrib_of idno_Q42_empty_corresp) = Some []
  /\ Attr.get (u "corresp")
       (attrib_of (add_wikidata_corresp idno_Q42_empty_corresp))
     = Some (u "https://www.wikidata.org/wiki/Q42")
  /\ Attr.get (u "corresp")
       (attrib_of (add_wikidata_corresp idno_Q42_empty_corresp))
     <> Attr.get (u "corresp") (attrib_of idno_Q42_empty_corresp).
Proof. repeat split. discriminate. Qed.

(** C6 (amended): for every [idno] with type "wikidata" in the
    document, the rule sets [corresp] to
    "https://www.wikidata.org/wiki/" followed by the trimmed text when
    that trimmed text is non-empty and the node has no [corresp]
    attribute or an empty one; in every other case (empty trimmed text,
    or a non-empty [corresp]) the attributes are left as they are.
    Name, text and tail never change. *)
Theorem wikidata_rule root q t a x cs tl :
  get_at q root = Some (Elem t a x cs tl) ->
  is_wikidata_idno (Elem t a x cs tl) = true ->
  let qid := strip (or_empty x) in
  let fires :=
    qid <> []
    /\ (Attr.get (u "corresp") a = None \/ Attr.get (u "corresp") a = Some [])
  in
  exists a',
    get_at q (add_wikidata_corresp root)
    = Some (Elem t a' x (map add_wikidata_corresp cs) tl)
    /\ (fires ->
        a' = Attr.set (u "corresp")
               (u "https://www.wikidata.org/wiki/" ++ qid) a)
    /\ (~ fires -> a' = a).
Proof.
  intros Hg H qid fires. exists (wikidata_body a x).
  rewrite local_get_at with (fires := wikidata_fires)
                            (e := Elem t a x cs tl);
    auto using wikidata_local.
  rewrite add_wikidata_corresp_Elem, H. split; [reflexivity|].
  unfold wikidata_body. fold qid. subst fires.
  destruct qid as [|c q']; simpl truthy.
  - split; [intros [[] _]; reflexivity | reflexivity].
  - destruct (Attr.get (u "corresp") a) as [[|c' v]|]; simpl; split;
      intros F; try reflexivity; exfalso.
    + apply F. split; [discriminate | now right].
    + destruct F as [_ [F|F]]; discriminate.
    + apply F. split; [discriminate | now left].
Qed.

Lemma wikidata_rule_witness :
  get_at [] idno_Q42 = Some idno_Q42
  /\ is_wikidata_idno idno_Q42 = true
  /\ get_at [] (add_wikidata_corresp idno_Q42)
     = Some (Elem (tei "idno")
               [(u "type", u "wikidata");
                (u "corresp", u "https://www.wikidata.org/wiki/Q42")]
               (Some (u "Q42")) [] None).
Proof.
  split; [reflexivity|]. split; [reflexivity|].
  destruct (@wikidata_rule idno_Q42 [] (tei "idno")
              [(u "type", u "wikidata")] (Some (u "Q42")) [] None
              eq_refl eq_refl) as (a' & E & F & _).
  rewrite E, F; [reflexivity|].
  split; [discriminate | now left].
Defined.

(* ------------------------------------------------------------------ *)
(** ** C5: the GND rule *)

(** C5, as stated, fails: an [idno] typed "pnd" whose [corresp]
    attribute is present with the empty value still gets the GND URL. *)
Lemma gnd_overwrites_empty_corresp :
  is_pnd_idno idno_pnd_empty_corresp = true
  /\ Attr.get (u "corresp") (attrib_of idno_pnd_empty_corresp) = Some []
  /\ Attr.get (u "corresp")
       (attrib_of (convert_pnd_to_gnd idno_pnd_empty_corresp))
     = Some (u "https://d-nb.info/gnd/118529579")
  /\ Attr.get (u "corresp")
       (attrib_of (convert_pnd_to_gnd idno_pnd_empty_corresp))
     <> Attr.get (u "corresp") (attrib_of idno_pnd_empty_corresp).
Proof. repeat split. discriminate. Qed.

(** C5 (amended): for every [idno] with type "pnd" in the document,
    the rule sets [type] to "gnd" in every case, and sets [corresp] to
    "https://d-nb.info/gnd/" followed by the trimmed text when the
    trimmed text is non-empty and [corresp] is absent or empty;
    otherwise [corresp] is left as it is. *)
Theorem gnd_rule root q t a x cs tl :
  get_at q root = Some (Elem t a x cs tl) ->
  is_pnd_idno (Elem t a x cs tl) = true ->
  let num := strip (or_empty x) in
  let typed := Attr.set (u "type") (u "gnd") a in
  let fires :=
    num <> []
    /\ (Attr.get (u "corresp") a = None \/ Attr.get (u "corresp") a = Some [])
  in
  exists a',
    get_at q (convert_pnd_to_gnd root)
    = Some (Elem t a' x (map convert_pnd_to_gnd cs) tl)
    /\ Attr.get (u "type") a' = Some (u "gnd")
    /\ (fires ->
        a' = Attr.set (u "corresp") (u "https://d-nb.info/gnd/" ++ num) typed)
    /\ (~ fires -> a' = typed).
Proof.
  intros Hg H num typed fires. exists (pnd_body a x).
  rewrite local_get_at with (fires := pnd_fires) (e := Elem t a x cs tl);
    auto using pnd_local.
  rewrite convert_pnd_to_gnd_Elem, H. split; [reflexivity|].
  split; [apply pnd_body_type|].
  unfold pnd_body. fold num. fold typed. subst fires.
  assert (Hc : Attr.get (u "corresp") typed = Attr.get (u "corresp") a).
  { apply AttrFacts.get_set_other. intros E. symmetry in E.
    now apply corresp_neq_type in E. }
  rewrite Hc.
  destruct num as [|c q']; simpl truthy.
  - split; [intros [[] _]; reflexivity | reflexivity].
  - destruct (Attr.get (u "corresp") a) as [[|c' v]|]; simpl; split;
      intros F; try reflexivity; exfalso.
    + apply F. split; [discriminate | now right].
    + destruct F as [_ [F|F]]; discriminate.
    + apply F. split; [discriminate | now left].
Qed.

Lemma gnd_rule_witness :
  get_at [] idno_pnd = Some idno_pnd
  /\ is_pnd_idno idno_pnd = true
  /\ get_at [] (convert_pnd_to_gnd idno_pnd)
     = Some (Elem (tei "idno")
               [(u "type", u "gnd");
                (u "corresp", u "https://d-nb.info/gnd/118529579")]
               (Some (u "118529579")) [] None).
Proof.
  split; [reflexivity|]. split; [reflexivity|].
  destruct (@gnd_rule idno_pnd [] (tei "idno") [(u "type", u "pnd")]
              (Some (u "118529579")) [] None eq_refl eq_refl)
    as (a' & E & _ & F & _).
  rewrite E, F; [reflexivity|].
  split; [discriminate | now left].
Defined.

(* ------------------------------------------------------------------ *)
(** ** C3: the creation-date rule *)

(** C3, as stated, fails: the selected event carries [when] (with the
    empty value), and the [date] that is created does not carry it. *)
Lemma creation_drops_empty_when :
  let root := doc_with_events [event_empty_when] in
  chosen_event root = Some event_empty_when
  /\ Attr.get (u "when") (attrib_of event_empty_when) = Some []
  /\ get_at [0; 0; 0; 0] root = None
  /\ get_at [0; 0; 0; 0] (ensure_creation_from_events root)
     = Some (Elem (tei "date") [] None [] None).
Proof. repeat split. Qed.

(** C3 (amended): let [pd] be the first [profileDesc] below the root.
    If [pd] has a [creation] child the document is unchanged, whatever
    the events.  Otherwise the rule takes the first [event] of type
    "written" under [standOff/listEvent] or, when there is none, the
    first of type "print"; when there is neither the document is
    unchanged; when there is one, [pd] gains as last child a [creation]
    holding one [date], which carries exactly those of [when],
    [notBefore], [notAfter] that the event carries with a non-empty
    value, with that value. *)
Theorem creation_rule root p pd rest :
  select_desc is_profile_desc root = (p, pd) :: rest ->
  first_below is_profile_desc root p pd
  /\ (existsb (has_tag (tei "creation")) (children_of pd) = true ->
      ensure_creation_from_events root = root)
  /\ (existsb (has_tag (tei "creation")) (children_of pd) = false ->
      (forall q ev, first_match (is_event (u "written")) root q ev ->
                    chosen_event root = Some ev)
      /\ (no_match (is_event (u "written")) root ->
          forall q ev, first_match (is_event (u "print")) root q ev ->
                       chosen_event root = Some ev)
      /\ (no_match (is_event (u "written")) root ->
          no_match (is_event (u "print")) root ->
          ensure_creation_from_events root = root)
      /\ (forall ev,
            chosen_event root = Some ev ->
            exists dattrs,
              let creation :=
                Elem (tei "creation") [] None
                     [Elem (tei "date") dattrs None [] None] None in
              ensure_creation_from_events root
              = update_at p (append_child creation) root
              /\ get_at p (ensure_creation_from_events root)
                 = Some (append_child creation pd)
              /\ forall k v,
                   Attr.get k dattrs = Some v
                   <-> In k [u "when"; u "notBefore"; u "notAfter"]
                       /\ Attr.get k (attrib_of ev) = Some v /\ v <> [])).
Proof.
  intros E. split; [exact (select_desc_head_first _ _ E)|].
  unfold ensure_creation_from_events. rewrite E. split.
  - now intros ->.
  - intros ->. repeat split.
    + intros q ev F. destruct (first_match_head F) as [r Hr].
      unfold chosen_event, first_event. now rewrite Hr.
    + intros N q ev F. destruct (first_match_head F) as [r Hr].
      unfold chosen_event, first_event.
      now rewrite (no_match_nil N), Hr.
    + intros N1 N2. unfold chosen_event, first_event.
      now rewrite (no_match_nil N1), (no_match_nil N2).
    + intros ev ->. exists (copy_dates ev). cbv zeta. split; [reflexivity|].
      split.
      * destruct (profile_desc_head _ E) as [Hg _].
        now apply get_at_update_at_same.
      * intros k v. apply copy_dates_exact.
Qed.

Lemma creation_rule_witness :
  let root := doc_with_events [event_print; event_written] in
  select_desc is_profile_desc root
  = [([0; 0], Elem (tei "profileDesc") [] None [] None)]
  /\ chosen_event root = Some event_written
  /\ exists dattrs,
       get_at [0; 0] (ensure_creation_from_events root)
       = Some (Elem (tei "profileDesc") [] None
                 [Elem (tei "creation") [] None
                    [Elem (tei "date") dattrs None [] None] None] None)
       /\ Attr.get (u "notBefore") dattrs = Some (u "1630")
       /\ Attr.get (u "notAfter") dattrs = Some (u "1640")
       /\ Attr.get (u "when") dattrs = None.
Proof.
  cbv zeta. split; [reflexivity|]. split; [reflexivity|].
  destruct (creation_rule (doc_with_events [event_print; event_written])
              (p := [0; 0]) (pd := Elem (tei "profileDesc") [] None [] None)
              (rest := []) eq_refl) as (_ & _ & H).
  destruct (H eq_refl) as (_ & _ & _ & H4).
  destruct (H4 event_written eq_refl) as (dattrs & _ & G & D).
  exists dattrs. split; [exact G|]. split; [|split].
  - apply D. split; [simpl; auto|]. split; [reflexivity | discriminate].
  - apply D. split; [simpl; auto|]. split; [reflexivity | discriminate].
  - destruct (Attr.get (u "when") dattrs) as [v|] eqn:W; [|reflexivity].
    apply D in W. destruct W as (_ & W & _). discriminate.
Defined.

(* ------------------------------------------------------------------ *)
(** ** C10: empty date attributes *)

(** C10: when the rule creates a [date] from the selected event, an
    attribute that the event has with the empty string is not copied,
    so the [date] never carries an empty value; an event that has the
    attribute empty gives the same [creation] as one that lacks it. *)
Theorem creation_date_skips_empty root p pd rest ev :
  select_desc is_profile_desc root = (p, pd) :: rest ->
  existsb (has_tag (tei "creation")) (children_of pd) = false ->
  chosen_event root = Some ev ->
  exists dattrs,
    ensure_creation_from_events root
    = update_at p
        (append_child
           (Elem (tei "creation") [] None
                 [Elem (tei "date") dattrs None [] None] None)) root
    /\ (forall k, Attr.get k (attrib_of ev) = Some [] ->
                  Attr.get k dattrs = None)
    /\ (forall k v, Attr.get k dattrs = Some v -> v <> [])
    /\ (forall ev',
          (forall k, In k DATE_ATTRS ->
                     (if otruthy (Attr.get k (attrib_of ev))
                      then Attr.get k (attrib_of ev) else None)
                     = (if otruthy (Attr.get k (attrib_of ev'))
                        then Attr.get k (attrib_of ev') else None)) ->
          creation_block ev' = creation_block ev).
Proof.
  intros E X V. exists (copy_dates ev).
  unfold ensure_creation_from_events. rewrite E, X, V.
  split; [reflexivity|]. split; [|split].
  - intros k H. rewrite get_copy_dates, H. simpl. now rewrite andb_false_r.
  - intros k v H. now apply copy_dates_exact in H.
  - intros ev' H. unfold creation_block, copy_dates, DATE_ATTRS. simpl.
    rewrite 3 (copy_step_ext ev ev'); [reflexivity| | |];
      apply H; simpl; auto.
Qed.

Lemma creation_date_skips_empty_witness :
  let root := doc_with_events [event_empty_when] in
  select_desc is_profile_desc root
  = [([0; 0], Elem (tei "profileDesc") [] None [] None)]
  /\ chosen_event root = Some event_empty_when
  /\ Attr.get (u "when") (attrib_of event_empty_when) = Some []
  /\ exists dattrs,
       ensure_creation_from_events root
       = update_at [0; 0]
           (append_child
              (Elem (tei "creation") [] None
                    [Elem (tei "date") dattrs None [] None] None)) root
       /\ Attr.get (u "when") dattrs = None.
Proof.
  cbv zeta. split; [reflexivity|]. split; [reflexivity|].
  split; [reflexivity|].
  destruct (creation_date_skips_empty
              (doc_with_events [event_empty_when])
              (p := [0; 0]) (pd := Elem (tei "profileDesc") [] None [] None)
              (rest := []) (ev := event_empty_when)
              eq_refl eq_refl eq_refl) as (dattrs & E & W & _).
  exists dattrs. split; [exact E|]. now apply W.
Defined.

(* ------------------------------------------------------------------ *)
(** ** C7: the publisher rule *)

(** C7: a document has either no [publicationStmt] under a [fileDesc],
    and the rule leaves it as it is (no container is created), or a
    first one in document order, and the rule works on that one: its
    first [publisher] child gets the project title "Tracing Regularities
    in Pedro Calderón de la Barca's Dramatic OEuvre with a Computational
    Approach (508056339)" as text, or, when it has
    no [publisher] child, one with that text is appended; the container
    then has one [publisher] when it had none and as many as before
    otherwise, and running the rule a second time gives the same
    document. *)
Theorem publisher_rule root :
  let title :=
    u "Tracing Regularities in Pedro Calder" ++ 243%N
      :: u "n de la Barca's Dramatic OEuvre with a Computational Approach (508056339)" in
  (no_match is_pub_stmt root
   \/ exists p ps, first_match is_pub_stmt root p ps)
  /\ (no_match is_pub_stmt root -> ensure_publisher root = root)
  /\ (forall p ps,
        first_match is_pub_stmt root p ps ->
        exists ps',
          ensure_publisher root = update_at p (fun _ => ps') root
          /\ get_at p (ensure_publisher root) = Some ps'
          /\ shallow ps' = shallow ps
          /\ (exists pub,
                find_child (tei "publisher") ps' = Some pub
                /\ text_of pub = Some title)
          /\ count_tag (tei "publisher") ps'
             = Nat.max 1 (count_tag (tei "publisher") ps)
          /\ (find_child (tei "publisher") ps = None ->
              children_of ps'
              = children_of ps
                ++ [Elem (tei "publisher") [] (Some title) [] None])
          /\ (forall pub,
                find_child (tei "publisher") ps = Some pub ->
                exists l1 l2,
                  children_of ps = l1 ++ pub :: l2
                  /\ children_of ps' = l1 ++ set_text title pub :: l2
                  /\ existsb (has_tag (tei "publisher")) l1 = false))
  /\ ensure_publisher (ensure_publisher root) = ensure_publisher root.
Proof.
  intros title. change title with PUBLISHER_TEXT. clear title.
  split; [|split; [|split]].
  - destruct (select is_pub_stmt [] root) as [|[p ps] rest] eqn:E.
    + left. now apply select_nil_no_match.
    + right. exists p, ps. exact (select_head_first _ _ E).
  - intros N. unfold ensure_publisher, pub_stmts. now rewrite (no_match_nil N).
  - intros p ps FM. destruct (first_match_head FM) as [rest E].
    change (pub_stmts root = (p, ps) :: rest) in E.
    destruct (pub_stmts_head _ E) as (Hg & a & x & cs & tl & ->).
    exists (publisher_body (Elem (tei "publicationStmt") a x cs tl)).
    unfold ensure_publisher. rewrite E.
    split; [apply update_at_ext; intros e He; congruence|].
    split; [now apply get_at_update_at_same|].
    unfold publisher_body, find_child, count_tag. simpl children_of.
    destruct (update_first _ _ cs) as [cs'|] eqn:U.
    + destruct (update_first_some _ _ _ U)
        as (l1 & c & l2 & -> & -> & H1 & H2).
      assert (Hc : has_tag (tei "publisher") c = true)
        by (apply find_some in H2; tauto).
      split; [reflexivity|]. simpl children_of. split; [|split; [|split]].
      * exists (set_text PUBLISHER_TEXT c). split.
        -- apply find_prefix; [assumption|]. now destruct c.
        -- destruct c; [reflexivity | discriminate].
      * rewrite !filter_app. simpl filter.
        replace (has_tag (tei "publisher") (set_text PUBLISHER_TEXT c))
          with true by (now destruct c).
        rewrite Hc, !length_app. cbn [List.length]. lia.
      * rewrite H2. discriminate.
      * intros pub Hp. rewrite H2 in Hp. injection Hp as <-.
        now exists l1, l2.
    + apply update_first_none in U.
      split; [reflexivity|]. simpl children_of. split; [|split; [|split]].
      * exists (Elem (tei "publisher") [] (Some PUBLISHER_TEXT) [] None).
        split; [|reflexivity]. now apply find_snoc.
      * rewrite filter_app, (filter_none _ _ U). reflexivity.
      * reflexivity.
      * intros pub Hp. rewrite U in Hp. discriminate.
  - apply ensure_publisher_idem.
Qed.

(** The rule on two documents: a container whose [publisher] reads
    "Old" keeps that one element, with the project title as text and
    the line break after it; an empty container gains the
    [publisher]. *)
Lemma publisher_rule_witness :
  (first_match is_pub_stmt doc_old_publisher [0]
     (Elem (tei "publicationStmt") [] None
        [Elem (tei "publisher") [] (Some (u "Old")) [] (Some [10%N])] None)
   /\ exists ps',
        get_at [0] (ensure_publisher doc_old_publisher) = Some ps'
        /\ children_of ps'
           = [Elem (tei "publisher") [] (Some project_title) []
                (Some [10%N])])
  /\ (first_match is_pub_stmt doc_empty_pub_stmt [0]
        (Elem (tei "publicationStmt") [] None [] None)
      /\ exists ps',
           get_at [0] (ensure_publisher doc_empty_pub_stmt) = Some ps'
           /\ children_of ps'
              = [Elem (tei "publisher") [] (Some project_title) [] None]).
Proof.
  assert (F1 : first_match is_pub_stmt doc_old_publisher [0]
                 (Elem (tei "publicationStmt") [] None
                    [Elem (tei "publisher") [] (Some (u "Old")) []
                       (Some [10%N])] None))
    by (apply select_head_first with (rest := []); reflexivity).
  assert (F2 : first_match is_pub_stmt doc_empty_pub_stmt [0]
                 (Elem (tei "publicationStmt") [] None [] None))
    by (apply select_head_first with (rest := []); reflexivity).
  split.
  - split; [exact F1|].
    destruct (publisher_rule doc_old_publisher) as (_ & _ & H & _).
    destruct (H _ _ F1) as (ps' & _ & G & _ & _ & _ & _ & Hpub).
    exists ps'. split; [exact G|].
    destruct (Hpub _ eq_refl) as (l1 & l2 & E1 & E2 & _).
    destruct l1 as [|c1 l1]; simpl in E1.
    + injection E1 as <-. exact E2.
    + injection E1 as _ E1. destruct l1; discriminate.
  - split; [exact F2|].
    destruct (publisher_rule doc_empty_pub_stmt) as (_ & _ & H & _).
    destruct (H _ _ F2) as (ps' & _ & G & _ & _ & _ & Hnone & _).
    exists ps'. split; [exact G|]. exact (Hnone eq_refl).
Defined.

(* ------------------------------------------------------------------ *)
(** ** C8: the corpus-identifier rule *)

(** C8: let [ps] be the first [publicationStmt] under a [fileDesc].
    When [ps] already has an [idno] child typed "caldracor" the document
    is unchanged, whatever the text of that node and the document id;
    when it has none, [ps] gains as last child an [idno] typed
    "caldracor" whose text is the document id. *)
Theorem caldracor_rule root basename p ps rest :
  pub_stmts root = (p, ps) :: rest ->
  first_match is_pub_stmt root p ps
  /\ (existsb is_caldracor_idno (children_of ps) = true ->
      ensure_caldracor_id root basename = root)
  /\ (existsb is_caldracor_idno (children_of ps) = false ->
      let idno :=
        Elem (tei "idno") [(u "type", u "caldracor")] (Some basename) []
             None in
      ensure_caldracor_id root basename = update_at p (append_child idno) root
      /\ get_at p (ensure_caldracor_id root basename)
         = Some (append_child idno ps)
      /\ is_caldracor_idno idno = true
      /\ text_of idno = Some basename).
Proof.
  intros E. split; [exact (select_head_first _ _ E)|].
  unfold ensure_caldracor_id. rewrite E. split.
  - now intros ->.
  - intros ->. cbv zeta. split; [reflexivity|]. split; [|split; reflexivity].
    destruct (pub_stmts_head _ E) as [Hg _].
    now apply get_at_update_at_same.
Qed.

Lemma caldracor_rule_witness :
  pub_stmts doc_with_caldracor_id
  = [([0], Elem (tei "publicationStmt") [] None
             [Elem (tei "idno") [(u "type", u "caldracor")]
                (Some (u "by-hand")) [] None] None)]
  /\ ensure_caldracor_id doc_with_caldracor_id (u "comedia42")
     = doc_with_caldracor_id
  /\ pub_stmts doc_empty_pub_stmt
     = [([0], Elem (tei "publicationStmt") [] None [] None)]
  /\ get_at [0] (ensure_caldracor_id doc_empty_pub_stmt (u "comedia42"))
     = Some (Elem (tei "publicationStmt") [] None
               [Elem (tei "idno") [(u "type", u "caldracor")]
                  (Some (u "comedia42")) [] None] None).
Proof.
  split; [reflexivity|]. split; [|split; [reflexivity|]].
  - destruct (caldracor_rule doc_with_caldracor_id (u "comedia42")
                (p := [0]) (rest := []) eq_refl) as (_ & H & _).
    now apply H.
  - destruct (caldracor_rule doc_empty_pub_stmt (u "comedia42")
                (p := [0]) (rest := []) eq_refl) as (_ & _ & H).
    destruct (H eq_refl) as (_ & G & _). exact G.
Defined.

(* ------------------------------------------------------------------ *)
(** ** C1: idempotence *)

(** C1, as stated, fails for the name normaliser: the entry of the
    sample fails the heuristic on the first run; the entry nested in
    its note is rebuilt, which puts "Antonio" and "Rojas Castro" into
    the text of the outer entry, and the second run rebuilds the outer
    entry too. *)
Lemma name_normaliser_not_idempotent :
  rojas_heuristic entry_with_nested_entry = false
  /\ text_of (nth 1 (children_of
                       (apply_rule [] NormalizePersnameRojas
                          doc_nested_entries)) (Misc [] None))
     = Some (u "Ana Ruiz")
  /\ nth 1 (children_of
              (apply_rule [] NormalizePersnameRojas
                 (apply_rule [] NormalizePersnameRojas doc_nested_entries)))
         (Misc [] None)
     = canonical_rojas
  /\ apply_rule [] NormalizePersnameRojas
       (apply_rule [] NormalizePersnameRojas doc_nested_entries)
     <> apply_rule [] NormalizePersnameRojas doc_nested_entries.
Proof.
  split; [reflexivity|]. split; [reflexivity|]. split; [reflexivity|].
  intros H.
  apply (f_equal (fun d => text_of (nth 1 (children_of d) (Misc [] None))))
    in H.
  vm_compute in H. discriminate H.
Qed.

(** C1 (amended): every rule other than the name normaliser gives the
    same tree when applied twice as when applied once, on every
    document; the name normaliser does so on every document in which no
    entry that fails the heuristic contains an entry that satisfies
    it. *)
Theorem rule_idempotent basename r root :
  (r = NormalizePersnameRojas -> settled false root = true) ->
  apply_rule basename r (apply_rule basename r root)
  = apply_rule basename r root.
Proof.
  intros H. destruct r; simpl.
  - apply add_wikidata_corresp_idem.
  - apply convert_pnd_to_gnd_idem.
  - apply ensure_langusage_spanish_idem.
  - apply ensure_textclass_keywords_idem.
  - apply normalize_from_idem. now apply H.
  - apply ensure_publisher_idem.
  - apply ensure_caldracor_id_idem.
  - apply ensure_creation_from_events_idem.
Qed.

Lemma rule_idempotent_witness :
  settled false doc_rojas_entry = true
  /\ apply_rule [] NormalizePersnameRojas
       (apply_rule [] NormalizePersnameRojas doc_rojas_entry)
     = apply_rule [] NormalizePersnameRojas doc_rojas_entry.
Proof.
  split; [reflexivity|].
  apply rule_idempotent. intros _. reflexivity.
Defined.

(* ------------------------------------------------------------------ *)
(** ** C9: the frame of a rule *)

(** C9 fails for the name normaliser.  In the sample the statement of
    responsibility, at [[0]], holds the entry, at [[0; 1]], and after it
    the text " (Univ. Potsdam), 2024".  The entry is the one element the
    rule rebuilds.  The text after it belongs to the statement and not
    to the subtree of the entry, and it is gone from the output:
    [clear()] also resets the tail of the element it empties.  The
    texts of the statement are "edited by", "Antonio Rojas Castro",
    " (Univ. Potsdam), 2024" before the rule and "edited by", "Antonio",
    "Rojas Castro" after it. *)
Theorem name_normaliser_drops_following_text :
  mutated [] NormalizePersnameRojas doc_entry_with_affiliation = [[0; 1]]
  /\ get_at [0; 1] doc_entry_with_affiliation
     = Some (Elem (tei "persName") [] (Some (u "Antonio Rojas Castro")) []
               (Some (u " (Univ. Potsdam), 2024")))
  /\ get_at [0; 1] (normalize_persname_rojas doc_entry_with_affiliation)
     = Some canonical_rojas
  /\ tail_of canonical_rojas = None
  /\ is_prefix [0; 1] [0] = false
  /\ option_map itertext (get_at [0] doc_entry_with_affiliation)
     = Some [u "edited by"; u "Antonio Rojas Castro";
             u " (Univ. Potsdam), 2024"]
  /\ option_map itertext
       (get_at [0] (normalize_persname_rojas doc_entry_with_affiliation))
     = Some [u "edited by"; u "Antonio"; u "Rojas Castro"].
Proof. repeat split. Qed.

(** The same on the entry of the specification, followed by a line
    break. *)
Remark rebuilt_entry_has_no_tail :
  tail_of (nth 0 (children_of doc_rojas_entry) (Misc [] None)) = Some [10%N]
  /\ tail_of (nth 0 (children_of (normalize_persname_rojas doc_rojas_entry))
                  (Misc [] None)) = None.
Proof. split; reflexivity. Qed.

(** What does hold of every rule.  With the tail counted as a field of
    the element it follows, as lxml keeps it: a node that is not in the
    subtree of an element the rule mutates is found at the same place
    after the rule, with the same name, attributes, text and tail; and
    when the rule mutates no element the tree that comes out is the
    tree that went in. *)
Theorem rule_frame basename r root :
  (forall q e,
     get_at q root = Some e ->
     (forall t, In t (mutated basename r root) -> is_prefix t q = false) ->
     exists e',
       get_at q (apply_rule basename r root) = Some e'
       /\ shallow e' = shallow e)
  /\ (mutated basename r root = [] -> apply_rule basename r root = root).
Proof.
  destruct r; simpl mutated; simpl apply_rule.
  - split.
    + intros q e. apply local_frame; auto using wikidata_local.
    + intros H. apply map_eq_nil in H.
      eapply local_quiet; eauto using wikidata_local.
  - split.
    + intros q e. apply local_frame; auto using pnd_local.
    + intros H. apply map_eq_nil in H.
      eapply local_quiet; eauto using pnd_local.
  - split.
    + intros q e. apply local_frame; auto using langusage_local.
    + intros H. apply map_eq_nil in H.
      eapply local_quiet; eauto using langusage_local.
  - split.
    + intros q e. apply local_frame; auto using keywords_local.
    + intros H. apply map_eq_nil in H.
      eapply local_quiet; eauto using keywords_local.
  - split.
    + intros q e. apply persname_frame.
    + intros H. apply map_eq_nil in H. now apply (persname_quiet root []).
  - unfold ensure_publisher.
    destruct (pub_stmts root) as [|[p ps] rest].
    + split; [intros q e Hg _; eauto | reflexivity].
    + split; [|discriminate].
      intros q e Hg Hout. apply get_at_update_at_frame; [assumption|].
      apply Hout. now left.
  - unfold ensure_caldracor_id.
    destruct (pub_stmts root) as [|[p ps] rest].
    + split; [intros q e Hg _; eauto | reflexivity].
    + destruct (existsb _ _).
      * split; [intros q e Hg _; eauto | reflexivity].
      * split; [|discriminate].
        intros q e Hg Hout. apply get_at_update_at_frame; [assumption|].
        apply Hout. now left.
  - unfold ensure_creation_from_events.
    destruct (select_desc _ root) as [|[p pd] rest].
    + split; [intros q e Hg _; eauto | reflexivity].
    + destruct (existsb _ _).
      * split; [intros q e Hg _; eauto | reflexivity].
      * destruct (chosen_event root).
        -- split; [|discriminate].
           intros q e Hg Hout. apply get_at_update_at_frame; [assumption|].
           apply Hout. now left.
        -- split; [intros q e Hg _; eauto | reflexivity].
Qed.

(* ------------------------------------------------------------------ *)
(** ** C4: the classification keywords *)

(** C4, as stated, fails: a group that is already present is not
    always left as it was.  The GND group of the sample has a
    [textClass] inside its term; the query [//tei:textClass] finds that
    one too, and it gains the three groups. *)
Lemma present_group_is_changed :
  get_at [0; 0] doc_group_holding_text_class
  = Some group_holding_text_class
  /\ is_keywords (u "https://d-nb.info/gnd/") group_holding_text_class
     = true
  /\ get_at [0; 0] (ensure_textclass_keywords doc_group_holding_text_class)
     = Some (Elem (tei "keywords")
               [(u "scheme", u "https://d-nb.info/gnd/")] None
               [Elem (tei "term") [] (Some (u "Comedia"))
                  [Elem (tei "textClass") [] None
                     [bk_group; gnd_group; tg_group] None] None] None)
  /\ get_at [0; 0] (ensure_textclass_keywords doc_group_holding_text_class)
     <> get_at [0; 0] doc_group_holding_text_class.
Proof. repeat split. discriminate. Qed.

(** C4 (amended): a [textClass] found in the document gains, after its
    children, exactly those of the three keyword groups, with the terms
    written out in [bk_group], [gnd_group] and [tg_group], whose scheme
    is not among its [keywords] children, in the order BK, GND,
    TextGrid; with none present it gains all three, and the number
    gained is three less the number present.  The children it had,
    the groups that were present among them, stay where they are with
    name, attributes, text and tail; nothing is added to a child that is
    not itself a [textClass], so that a group that was present keeps its
    terms in their places, and a child that holds no [textClass] below
    it is identical to the input. *)
Theorem keywords_rule root q a x cs tl :
  get_at q root = Some (Elem (tei "textClass") a x cs tl) ->
  let added :=
    (if has_group (u "http://uri.gbv.de/terminology/bk/") cs
     then [] else [bk_group])
    ++ (if has_group (u "https://d-nb.info/gnd/") cs
        then [] else [gnd_group])
    ++ (if has_group
             (u "http://textgrid.info/namespaces/metadata/core/2010#genre")
             cs
        then [] else [tg_group]) in
  get_at q (ensure_textclass_keywords root)
  = Some (Elem (tei "textClass") a x
            (map ensure_textclass_keywords cs ++ added) tl)
  /\ (forall c, In c cs ->
        shallow (ensure_textclass_keywords c) = shallow c
        /\ (has_tag (tei "textClass") c = false ->
            children_of (ensure_textclass_keywords c)
            = map ensure_textclass_keywords (children_of c))
        /\ (no_match is_text_class c -> ensure_textclass_keywords c = c))
  /\ (has_group (u "http://uri.gbv.de/terminology/bk/") cs = false ->
      has_group (u "https://d-nb.info/gnd/") cs = false ->
      has_group
        (u "http://textgrid.info/namespaces/metadata/core/2010#genre") cs
      = false ->
      added = [bk_group; gnd_group; tg_group])
  /\ List.length added
     = 3 - (group_count (u "http://uri.gbv.de/terminology/bk/") cs
            + group_count (u "https://d-nb.info/gnd/") cs
            + group_count
                (u "http://textgrid.info/namespaces/metadata/core/2010#genre")
                cs).
Proof.
  intros Hg added.
  change (u "http://uri.gbv.de/terminology/bk/") with BK_SCHEME in *.
  change (u "https://d-nb.info/gnd/") with GND_SCHEME in *.
  change (u "http://textgrid.info/namespaces/metadata/core/2010#genre")
    with TG_SCHEME in *.
  split; [|split; [|split]].
  - rewrite local_get_at with (fires := keywords_fires) (e := Elem (tei "textClass") a x cs tl);
      auto using keywords_local.
    rewrite ensure_textclass_keywords_Elem, StrFacts.eqb_refl.
    rewrite keywords_added_independent. reflexivity.
  - intros c _. split; [apply keywords_shallow|].
    split; [|apply keywords_no_container].
    destruct c as [t' a' x' cs' tl'|k tl']; [|reflexivity].
    simpl has_tag. intros E.
    rewrite ensure_textclass_keywords_Elem, E. simpl. apply app_nil_r.
  - subst added. now intros -> -> ->.
  - subst added. unfold group_count.
    destruct (has_group BK_SCHEME cs), (has_group GND_SCHEME cs),
      (has_group TG_SCHEME cs); reflexivity.
Qed.

(** The two cases of the specification: a [textClass] with a GND group
    of its own gains the two other groups and keeps its own; an empty
    one gains the three. *)
Lemma keywords_rule_witness :
  (get_at [0] doc_text_class
   = Some (Elem (tei "textClass") [] None [own_gnd_group] None)
   /\ get_at [0] (ensure_textclass_keywords doc_text_class)
      = Some (Elem (tei "textClass") [] None
                [own_gnd_group; bk_group; tg_group] None))
  /\ (get_at [0] doc_empty_text_class
      = Some (Elem (tei "textClass") [] None [] None)
      /\ get_at [0] (ensure_textclass_keywords doc_empty_text_class)
         = Some (Elem (tei "textClass") [] None
                   [bk_group; gnd_group; tg_group] None)).
Proof.
  split.
  - split; [reflexivity|].
    destruct (keywords_rule doc_text_class [0] (a := []) (x := None)
                (cs := [own_gnd_group]) (tl := None) eq_refl) as (G & _).
    exact G.
  - split; [reflexivity|].
    destruct (keywords_rule doc_empty_text_class [0] (a := []) (x := None)
                (cs := []) (tl := None) eq_refl) as (G & _).
    exact G.
Defined.

(* ------------------------------------------------------------------ *)
(** ** C2: the name normaliser *)




(* ================================================================== *)
(** * Further properties of the rules and of the pipeline *)

(* ------------------------------------------------------------------ *)
(** ** Rule 3 on one container *)

(** X1: a [profileDesc] found in the document gains the Spanish
    [langUsage] block as last child exactly when it has no [langUsage]
    child; one that has a [langUsage] child gains nothing, whatever that
    child holds.  The children it had stay in place with name,
    attributes, text and tail. *)
Theorem langusage_rule root q a x cs tl :
  get_at q root = Some (Elem (tei "profileDesc") a x cs tl) ->
  get_at q (ensure_langusage_spanish root)
  = Some (Elem (tei "profileDesc") a x
            (map ensure_langusage_spanish cs
               ++ (if existsb (has_tag (tei "langUsage")) cs then []
                   else [spanish_block])) tl)
  /\ (forall c, In c cs ->
        shallow (ensure_langusage_spanish c) = shallow c)
  /\ existsb (has_tag (tei "langUsage"))
       (map ensure_langusage_spanish cs
          ++ (if existsb (has_tag (tei "langUsage")) cs then []
              else [spanish_block])) = true.
Proof.
  intros Hg. split; [|split].
  - rewrite local_get_at with (fires := langusage_fires)
                              (e := Elem (tei "profileDesc") a x cs tl);
      auto using langusage_local.
  - intros c _. apply langusage_shallow.
  - rewrite existsb_app.
    rewrite existsb_map_ext with (g := has_tag (tei "langUsage"))
      by (intros c; now rewrite has_tag_shallow, langusage_shallow,
                            <- has_tag_shallow).
    destruct (existsb (has_tag (tei "langUsage")) cs); reflexivity.
Qed.

Lemma langusage_rule_witness :
  get_at [0] doc_latin_profile
  = Some (Elem (tei "profileDesc") [] None
            [Elem (tei "langUsage") [] None
               [Elem (tei "language") [(u "ident", u "lat")]
                  (Some (u "Latin")) [] None] None] None)
  /\ get_at [0] (ensure_langusage_spanish doc_latin_profile)
     = get_at [0] doc_latin_profile.
Proof.
  split; [reflexivity|].
  destruct (@langusage_rule doc_latin_profile [0] [] None
              [Elem (tei "langUsage") [] None
                 [Elem (tei "language") [(u "ident", u "lat")]
                    (Some (u "Latin")) [] None] None] None eq_refl)
    as (G & _).
  rewrite G. reflexivity.
Defined.

(* ------------------------------------------------------------------ *)
(** ** What holds of every node *)

Lemma all_nodes_Elem P t a x cs tl :
  all_nodes P (Elem t a x cs tl)
  = P (Elem t a x cs tl) && forallb (all_nodes P) cs.
Proof. reflexivity. Qed.

Lemma all_nodes_ext P P' n :
  (forall e, P e = P' e) -> all_nodes P n = all_nodes P' n.
Proof.
  intros H. induction n as [t a x cs tl IH|c tl] using node_tree_ind.
  - rewrite !all_nodes_Elem, H. f_equal.
    induction IH as [|c cs Hc _ IHcs]; simpl; [reflexivity|].
    now rewrite Hc, IHcs.
  - simpl. now rewrite H.
Qed.

Lemma select_list_all_nil sel anc l :
  Forall (fun c => select sel anc c = []) l ->
  forall k, select_list sel anc k l = [].
Proof.
  induction 1 as [|c l Hc _ IH]; intros k; simpl; [reflexivity|].
  now rewrite Hc, IH.
Qed.

(** Where the guard fails at every node the query has no match. *)
Lemma all_quiet_select_nil sel n :
  (forall anc e, sel anc e = sel [] e) ->
  all_nodes (quiet sel) n = true -> forall anc, select sel anc n = [].
Proof.
  intros Hsel.
  induction n as [t a x cs tl IH|c tl] using node_tree_ind; intros H anc.
  - rewrite all_nodes_Elem in H. apply andb_true_iff in H.
    destruct H as [H1 H2]. unfold quiet in H1. apply negb_true_iff in H1.
    rewrite select_Elem, (Hsel anc), H1. simpl.
    apply select_list_all_nil. apply Forall_forall. intros c Hc.
    rewrite Forall_forall in IH. rewrite forallb_forall in H2.
    apply IH; auto.
  - simpl in H. rewrite andb_true_r in H. unfold quiet in H.
    apply negb_true_iff in H. now rewrite select_Misc, (Hsel anc), H.
Qed.

Lemma all_quiet_no_match sel n :
  (forall anc e, sel anc e = sel [] e) ->
  all_nodes (quiet sel) n = true -> no_match sel n.
Proof.
  intros Hsel H. apply select_nil_no_match. now apply all_quiet_select_nil.
Qed.

Lemma forallb_update_nth (A : Type) (P : A -> bool) (g : A -> A) l :
  (forall c, In c l -> P c = true -> P (g c) = true) ->
  forallb P l = true -> forall i, forallb P (update_nth i g l) = true.
Proof.
  induction l as [|c l IH]; intros Hg H i; simpl in *.
  - now destruct i.
  - apply andb_true_iff in H. destruct H as [H1 H2].
    destruct i as [|i]; simpl; apply andb_true_iff; split; auto.
Qed.

(* ------------------------------------------------------------------ *)
(** ** Children as the presence checks see them *)

Lemma same_kind_refl c : same_kind c c.
Proof. split; auto. Qed.

Lemma same_kind_tagattr c c' :
  tag_of c' = tag_of c -> attrib_of c' = attrib_of c -> same_kind c c'.
Proof.
  destruct c, c'; simpl; intros Ht Ha; try discriminate.
  - injection Ht as ->. subst. split; reflexivity.
  - split; reflexivity.
Qed.

Lemma same_kind_shallow c c' : shallow c' = shallow c -> same_kind c c'.
Proof.
  intros H. apply same_kind_tagattr.
  - destruct c, c'; simpl in *; congruence.
  - destruct c, c'; simpl in *; congruence.
Qed.

Lemma existsb_Forall2 (q : node -> bool) (cs cs' : list node) :
  Forall2 (fun c c' => q c' = q c) cs cs' ->
  existsb q cs' = existsb q cs.
Proof. induction 1 as [|c c' cs cs' H _ IH]; simpl; congruence. Qed.

Lemma kinds_kept_Forall2 cs cs' extra :
  Forall2 same_kind cs cs' -> kinds_kept cs (cs' ++ extra).
Proof.
  intros H. split.
  - intros E. rewrite existsb_app.
    rewrite (existsb_Forall2 (has_tag (tei "langUsage")) (cs := cs)), E;
      [reflexivity|].
    eapply Forall2_impl; [|exact H]. now intros c c' [Hc _].
  - intros s E. unfold has_group in *. rewrite existsb_app.
    rewrite (existsb_Forall2 (is_keywords s) (cs := cs)), E; [reflexivity|].
    eapply Forall2_impl; [|exact H]. intros c c' [_ Hc]. apply Hc.
Qed.

Lemma Forall2_map_r (A : Type) (Rel : A -> A -> Prop) (g : A -> A) l :
  (forall c, Rel c (g c)) -> Forall2 Rel l (map g l).
Proof. intros H. induction l; simpl; constructor; auto. Qed.

Lemma Forall2_update_nth (A : Type) (Rel : A -> A -> Prop) (g : A -> A) l :
  (forall c, Rel c c) -> (forall c, Rel c (g c)) ->
  forall i, Forall2 Rel l (update_nth i g l).
Proof.
  intros Hr Hg. induction l as [|c l IH]; intros [|i]; simpl;
    constructor; auto.
  clear IH. induction l; constructor; auto.
Qed.

Lemma Forall2_update_first (Rel : node -> node -> Prop) q g l l' :
  (forall c, Rel c c) -> (forall c, Rel c (g c)) ->
  update_first q g l = Some l' -> Forall2 Rel l l'.
Proof.
  intros Hr Hg. revert l'.
  induction l as [|c l IH]; intros l' H; simpl in H; [discriminate|].
  destruct (q c).
  - injection H as <-. constructor; auto.
    clear IH. induction l; constructor; auto.
  - destruct (update_first q g l) as [l0|]; [|discriminate].
    injection H as <-. constructor; auto.
Qed.

Lemma kinds_kept_map g cs extra :
  (forall c, same_kind c (g c)) -> kinds_kept cs (map g cs ++ extra).
Proof. intros H. apply kinds_kept_Forall2. now apply Forall2_map_r. Qed.

Lemma kinds_kept_update_nth g cs i :
  (forall c, same_kind c (g c)) -> kinds_kept cs (update_nth i g cs).
Proof.
  intros H. rewrite <- (app_nil_r (update_nth i g cs)).
  apply kinds_kept_Forall2.
  apply Forall2_update_nth; auto using same_kind_refl.
Qed.

Lemma kinds_kept_app cs extra : kinds_kept cs (cs ++ extra).
Proof.
  apply kinds_kept_Forall2. rewrite <- (map_id cs) at 2.
  apply Forall2_map_r. apply same_kind_refl.
Qed.

(* ------------------------------------------------------------------ *)
(** ** A check that later rules keep satisfied

    A check [Q] on nodes that looks at the name, attributes and text of
    the node and at the kinds of its children, and that holds of every
    block a rule creates, goes on holding of every node after rules 3
    to 8. *)

Lemma forallb_map_comp (A B : Type) (P : B -> bool) (g : A -> B) l :
  forallb P (map g l) = forallb (fun c => P (g c)) l.
Proof. induction l as [|c l IH]; simpl; [reflexivity | now rewrite IH]. Qed.

Section Kept.
Variable Q : node -> bool.
Hypothesis Q_Misc : forall c tl, Q (Misc c tl) = true.
Hypothesis Q_kinds :
  forall t a x cs tl cs' tl',
    kinds_kept cs cs' ->
    Q (Elem t a x cs tl) = true -> Q (Elem t a x cs' tl') = true.
Hypothesis Q_publisher_text :
  forall v n, has_tag (tei "publisher") n = true ->
              Q n = true -> Q (set_text v n) = true.
Hypothesis Q_langusage : all_nodes Q langusage_block = true.
Hypothesis Q_bk : all_nodes Q kw_bk = true.
Hypothesis Q_gnd : all_nodes Q kw_gnd = true.
Hypothesis Q_tg : all_nodes Q kw_tg = true.
Hypothesis Q_rebuilt : all_nodes Q (rebuilt (tei "persName")) = true.
Hypothesis Q_publisher : all_nodes Q publisher_block = true.
Hypothesis Q_caldracor : forall b, all_nodes Q (caldracor_idno b) = true.
Hypothesis Q_creation : forall ev, all_nodes Q (creation_block ev) = true.

Lemma kept_local (R : node -> node) (added : str -> list node -> list node) :
  (forall c tl, R (Misc c tl) = Misc c tl) ->
  (forall t a x cs tl,
     R (Elem t a x cs tl) = Elem t a x (map R cs ++ added t cs) tl) ->
  (forall t cs, forallb (all_nodes Q) (added t cs) = true) ->
  forall n, all_nodes Q n = true -> all_nodes Q (R n) = true.
Proof.
  intros RM RE Hadd.
  induction n as [t a x cs tl IH|c tl] using node_tree_ind; intros H.
  - rewrite all_nodes_Elem in H. apply andb_true_iff in H.
    destruct H as [H1 H2]. rewrite RE, all_nodes_Elem.
    apply andb_true_iff. split.
    + apply Q_kinds with (cs := cs) (tl := tl); [|assumption].
      apply kinds_kept_map. intros c. apply same_kind_shallow.
      destruct c as [t' a' x' cs' tl'|c' tl']; [|now rewrite RM].
      now rewrite RE.
    + rewrite forallb_app, Hadd, andb_true_r.
      rewrite forallb_map_comp. apply forallb_forall. intros c Hc.
      rewrite Forall_forall in IH. rewrite forallb_forall in H2. auto.
  - now rewrite RM.
Qed.

Lemma kept_langusage n :
  all_nodes Q n = true -> all_nodes Q (ensure_langusage_spanish n) = true.
Proof.
  apply kept_local
    with (added := fun t cs => if Str.eqb t (tei "profileDesc")
                               then langusage_added cs else []);
    try reflexivity.
  intros t cs. destruct (Str.eqb t (tei "profileDesc")); [|reflexivity].
  unfold langusage_added. destruct (existsb _ cs); [reflexivity|].
  cbn [forallb]. now rewrite Q_langusage.
Qed.

Lemma kept_keywords n :
  all_nodes Q n = true -> all_nodes Q (ensure_textclass_keywords n) = true.
Proof.
  apply kept_local
    with (added := fun t cs => if Str.eqb t (tei "textClass")
                               then keywords_added cs else []);
    try reflexivity.
  intros t cs. destruct (Str.eqb t (tei "textClass")); [|reflexivity].
  rewrite keywords_added_independent. unfold group_added.
  destruct (has_group BK_SCHEME cs), (has_group GND_SCHEME cs),
    (has_group TG_SCHEME cs); cbn [forallb app];
    rewrite ?Q_bk, ?Q_gnd, ?Q_tg; reflexivity.
Qed.

Lemma same_kind_normalize u c : same_kind c (normalize_from u c).
Proof.
  destruct c as [t a x cs tl|c tl]; [|apply same_kind_refl].
  rewrite normalize_from_Elem.
  destruct (is_resp_persname u (Elem t a x cs tl)) eqn:E; cbn [andb].
  - destruct (rojas_heuristic (Elem t a x cs tl));
      [|now apply same_kind_shallow].
    unfold is_resp_persname in E. apply andb_true_iff in E.
    destruct E as [_ E]. simpl in E. apply StrFacts.eqb_eq in E. subst t.
    split; [reflexivity|]. intros s. reflexivity.
  - now apply same_kind_shallow.
Qed.

Lemma kept_normalize n :
  forall u, all_nodes Q n = true -> all_nodes Q (normalize_from u n) = true.
Proof.
  induction n as [t a x cs tl IH|c tl] using node_tree_ind; intros u H;
    [|exact H].
  rewrite normalize_from_Elem.
  destruct (is_resp_persname u (Elem t a x cs tl)
            && rojas_heuristic (Elem t a x cs tl)) eqn:E.
  - apply andb_true_iff in E. destruct E as [E _].
    unfold is_resp_persname in E. apply andb_true_iff in E.
    destruct E as [_ E]. simpl in E. apply StrFacts.eqb_eq in E. subst t.
    exact Q_rebuilt.
  - rewrite all_nodes_Elem in H. apply andb_true_iff in H.
    destruct H as [H1 H2]. rewrite all_nodes_Elem.
    apply andb_true_iff. split.
    + apply Q_kinds with (cs := cs) (tl := tl); [|assumption].
      rewrite <- (app_nil_r (map _ cs)). apply kinds_kept_map.
      intros c. apply same_kind_normalize.
    + rewrite forallb_map_comp. apply forallb_forall. intros c Hc.
      rewrite Forall_forall in IH. rewrite forallb_forall in H2. auto.
Qed.

Lemma same_kind_update_at f p :
  (forall e, tag_of (f e) = tag_of e /\ attrib_of (f e) = attrib_of e) ->
  forall c, same_kind c (update_at p f c).
Proof.
  intros Hf c. apply same_kind_tagattr.
  - destruct p as [|i p]; [apply Hf|]. now destruct c.
  - destruct p as [|i p]; [apply Hf|]. now destruct c.
Qed.

Lemma kept_update_at f p :
  (forall e, tag_of (f e) = tag_of e /\ attrib_of (f e) = attrib_of e) ->
  (forall e, all_nodes Q e = true -> all_nodes Q (f e) = true) ->
  forall n, all_nodes Q n = true -> all_nodes Q (update_at p f n) = true.
Proof.
  intros Hf1 Hf2. induction p as [|i p IH]; intros n H; simpl.
  - now apply Hf2.
  - destruct n as [t a x cs tl|c tl]; [|exact H].
    rewrite all_nodes_Elem in H. apply andb_true_iff in H.
    destruct H as [H1 H2]. rewrite all_nodes_Elem.
    apply andb_true_iff. split.
    + apply Q_kinds with (cs := cs) (tl := tl); [|assumption].
      apply kinds_kept_update_nth. now apply same_kind_update_at.
    + apply forallb_update_nth; [|assumption]. intros c _. apply IH.
Qed.

Lemma kept_append_child c e :
  all_nodes Q c = true ->
  all_nodes Q e = true -> all_nodes Q (append_child c e) = true.
Proof.
  intros Hc H. destruct e as [t a x cs tl|k tl]; [|exact H].
  rewrite all_nodes_Elem in H. apply andb_true_iff in H.
  destruct H as [H1 H2]. simpl append_child. rewrite all_nodes_Elem.
  apply andb_true_iff. split.
  - apply Q_kinds with (cs := cs) (tl := tl); [apply kinds_kept_app | assumption].
  - rewrite forallb_app, H2. cbn [forallb andb]. now rewrite Hc.
Qed.

Lemma append_child_tagattr c e :
  tag_of (append_child c e) = tag_of e
  /\ attrib_of (append_child c e) = attrib_of e.
Proof. destruct e; split; reflexivity. Qed.

Lemma kept_set_text v c :
  has_tag (tei "publisher") c = true ->
  all_nodes Q c = true -> all_nodes Q (set_text v c) = true.
Proof.
  intros Ht H. destruct c as [t a x cs tl|k tl]; [|exact H].
  rewrite all_nodes_Elem in H. apply andb_true_iff in H.
  destruct H as [H1 H2]. simpl set_text. rewrite all_nodes_Elem.
  apply andb_true_iff. split; [|assumption].
  apply (@Q_publisher_text v (Elem t a x cs tl)); assumption.
Qed.

Lemma kept_publisher_body e :
  all_nodes Q e = true -> all_nodes Q (publisher_body e) = true.
Proof.
  intros H. destruct e as [t a x cs tl|k tl]; [|exact H].
  unfold publisher_body.
  destruct (update_first _ _ cs) as [cs'|] eqn:U.
  - rewrite all_nodes_Elem in H. apply andb_true_iff in H.
    destruct H as [H1 H2]. rewrite all_nodes_Elem.
    apply andb_true_iff. split.
    + apply Q_kinds with (cs := cs) (tl := tl); [|assumption].
      rewrite <- (app_nil_r cs'). apply kinds_kept_Forall2.
      eapply Forall2_update_first; [| |exact U];
        auto using same_kind_refl.
      intros c. apply same_kind_tagattr; now destruct c.
    + destruct (update_first_some _ _ _ U)
        as (l1 & c & l2 & -> & -> & _ & Hf).
      apply find_some in Hf. destruct Hf as [_ Hc].
      rewrite forallb_app in *. apply andb_true_iff in H2.
      destruct H2 as [H2 H3]. simpl in H3. apply andb_true_iff in H3.
      destruct H3 as [H3 H4]. rewrite H2. simpl.
      now rewrite kept_set_text, H4.
  - apply (@kept_append_child publisher_block (Elem t a x cs tl));
      assumption.
Qed.

Lemma publisher_body_tagattr e :
  tag_of (publisher_body e) = tag_of e
  /\ attrib_of (publisher_body e) = attrib_of e.
Proof.
  destruct e as [t a x cs tl|k tl]; [|split; reflexivity].
  unfold publisher_body. destruct (update_first _ _ cs); split; reflexivity.
Qed.

Lemma kept_publisher n :
  all_nodes Q n = true -> all_nodes Q (ensure_publisher n) = true.
Proof.
  intros H. unfold ensure_publisher.
  destruct (pub_stmts n) as [|[p ps] rest]; [exact H|].
  apply kept_update_at; auto using publisher_body_tagattr,
    kept_publisher_body.
Qed.

Lemma kept_caldracor n basename :
  all_nodes Q n = true -> all_nodes Q (ensure_caldracor_id n basename) = true.
Proof.
  intros H. unfold ensure_caldracor_id.
  destruct (pub_stmts n) as [|[p ps] rest]; [exact H|].
  destruct (existsb _ _); [exact H|].
  apply kept_update_at; auto using append_child_tagattr, kept_append_child.
Qed.

Lemma kept_creation n :
  all_nodes Q n = true -> all_nodes Q (ensure_creation_from_events n) = true.
Proof.
  intros H. unfold ensure_creation_from_events.
  destruct (select_desc _ n) as [|[p pd] rest]; [exact H|].
  destruct (existsb _ _); [exact H|].
  destruct (chosen_event n); [|exact H].
  apply kept_update_at; auto using append_child_tagattr, kept_append_child.
Qed.
(** The rules of [process_file] from the fifth, the fourth and the third
    on. *)
Lemma kept_from_5 n basename :
  all_nodes Q n = true ->
  all_nodes Q
    (ensure_creation_from_events
       (ensure_caldracor_id
          (ensure_publisher (normalize_persname_rojas n)) basename)) = true.
Proof.
  intros H. apply kept_creation, kept_caldracor, kept_publisher.
  now apply kept_normalize.
Qed.

Lemma kept_from_4 n basename :
  all_nodes Q n = true ->
  all_nodes Q
    (ensure_creation_from_events
       (ensure_caldracor_id
          (ensure_publisher
             (normalize_persname_rojas (ensure_textclass_keywords n)))
          basename)) = true.
Proof. intros H. now apply kept_from_5, kept_keywords. Qed.

Lemma kept_from_3 n basename :
  all_nodes Q n = true ->
  all_nodes Q
    (ensure_creation_from_events
       (ensure_caldracor_id
          (ensure_publisher
             (normalize_persname_rojas
                (ensure_textclass_keywords (ensure_langusage_spanish n))))
          basename)) = true.
Proof. intros H. now apply kept_from_4, kept_langusage. Qed.
End Kept.

(* ------------------------------------------------------------------ *)
(** ** The four checks *)

Lemma wikidata_quiet_kinds t a x cs tl cs' tl' :
  kinds_kept cs cs' ->
  quiet wikidata_fires (Elem t a x cs tl) = true ->
  quiet wikidata_fires (Elem t a x cs' tl') = true.
Proof. intros _ H. exact H. Qed.

Lemma pnd_quiet_kinds t a x cs tl cs' tl' :
  kinds_kept cs cs' ->
  quiet pnd_fires (Elem t a x cs tl) = true ->
  quiet pnd_fires (Elem t a x cs' tl') = true.
Proof. intros _ H. exact H. Qed.

Lemma langusage_quiet_kinds t a x cs tl cs' tl' :
  kinds_kept cs cs' ->
  quiet langusage_fires (Elem t a x cs tl) = true ->
  quiet langusage_fires (Elem t a x cs' tl') = true.
Proof.
  intros [K _]. unfold quiet, langusage_fires.
  cbn [has_tag children_of].
  destruct (Str.eqb t (tei "profileDesc")); [|reflexivity].
  destruct (existsb (has_tag (tei "langUsage")) cs); [|discriminate].
  now rewrite K.
Qed.

Lemma keywords_quiet_kinds t a x cs tl cs' tl' :
  kinds_kept cs cs' ->
  quiet keywords_fires (Elem t a x cs tl) = true ->
  quiet keywords_fires (Elem t a x cs' tl') = true.
Proof.
  intros [_ K]. unfold quiet, keywords_fires.
  cbn [has_tag children_of].
  destruct (Str.eqb t (tei "textClass")); [|reflexivity].
  destruct (has_group BK_SCHEME cs) eqn:E1; [|discriminate].
  destruct (has_group GND_SCHEME cs) eqn:E2; [|discriminate].
  destruct (has_group TG_SCHEME cs) eqn:E3; [|discriminate].
  now rewrite (K _ E1), (K _ E2), (K _ E3).
Qed.

Lemma wikidata_quiet_text v n :
  has_tag (tei "publisher") n = true ->
  quiet wikidata_fires n = true -> quiet wikidata_fires (set_text v n) = true.
Proof.
  intros Ht _. apply has_tag_Elem in Ht.
  destruct Ht as (a & x & cs & tl & ->). reflexivity.
Qed.

Lemma pnd_quiet_text v n :
  has_tag (tei "publisher") n = true ->
  quiet pnd_fires n = true -> quiet pnd_fires (set_text v n) = true.
Proof.
  intros Ht _. apply has_tag_Elem in Ht.
  destruct Ht as (a & x & cs & tl & ->). reflexivity.
Qed.

Lemma langusage_quiet_text v n :
  has_tag (tei "publisher") n = true ->
  quiet langusage_fires n = true ->
  quiet langusage_fires (set_text v n) = true.
Proof.
  intros Ht _. apply has_tag_Elem in Ht.
  destruct Ht as (a & x & cs & tl & ->). reflexivity.
Qed.

Lemma keywords_quiet_text v n :
  has_tag (tei "publisher") n = true ->
  quiet keywords_fires n = true ->
  quiet keywords_fires (set_text v n) = true.
Proof.
  intros Ht _. apply has_tag_Elem in Ht.
  destruct Ht as (a & x & cs & tl & ->). reflexivity.
Qed.

(** After its own rule a check holds of every node. *)

Lemma wikidata_body_quiet t a x cs tl :
  quiet wikidata_fires
    (Elem t (if is_wikidata_idno (Elem t a x cs tl)
             then wikidata_body a x else a) x cs tl) = true.
Proof.
  unfold quiet, wikidata_fires. cbn [text_of attrib_of].
  apply negb_true_iff.
  destruct (is_wikidata_idno (Elem t a x cs tl)) eqn:E.
  - unfold is_wikidata_idno in *.
    rewrite idno_typed_eq with (a := a) (x := x) (cs := cs) (tl := tl)
      by apply wikidata_body_type.
    rewrite E. cbn [andb]. unfold wikidata_body.
    destruct (truthy (strip (or_empty x))) eqn:T; [|reflexivity].
    destruct (negb (otruthy (Attr.get (u "corresp") a))) eqn:G; cbn [andb].
    + rewrite AttrFacts.get_set_same. unfold otruthy.
      now rewrite truthy_app_l.
    + exact G.
  - now rewrite E.
Qed.

Lemma wikidata_all_quiet n :
  all_nodes (quiet wikidata_fires) (add_wikidata_corresp n) = true.
Proof.
  induction n as [t a x cs tl IH|c tl] using node_tree_ind; [|reflexivity].
  rewrite add_wikidata_corresp_Elem, all_nodes_Elem.
  apply andb_true_iff. split.
  - apply wikidata_quiet_kinds with (cs := cs) (tl := tl).
    + rewrite <- (app_nil_r (map _ cs)). apply kinds_kept_map.
      intros c. destruct c as [t' a' x' cs' tl'|k tl'];
        [|apply same_kind_refl].
      rewrite add_wikidata_corresp_Elem. split; [reflexivity|].
      intros s. unfold is_keywords, is_wikidata_idno.
      cbn [has_tag attr_is attrib_of].
      destruct (Str.eqb t' (tei "keywords")) eqn:K; [|reflexivity].
      apply StrFacts.eqb_eq in K. subst t'. reflexivity.
    + apply wikidata_body_quiet.
  - rewrite forallb_map_comp. apply forallb_forall. intros c Hc.
    rewrite Forall_forall in IH. auto.
Qed.

Lemma pnd_body_quiet t a x cs tl :
  quiet pnd_fires
    (Elem t (if is_pnd_idno (Elem t a x cs tl) then pnd_body a x else a)
          x cs tl) = true.
Proof.
  unfold quiet, pnd_fires. apply negb_true_iff.
  destruct (is_pnd_idno (Elem t a x cs tl)) eqn:E; [|exact E].
  unfold is_pnd_idno, attr_is, attrib_of. rewrite pnd_body_type.
  destruct (Str.eqb (u "gnd") (u "pnd")) eqn:E'.
  - apply StrFacts.eqb_eq in E'. now apply gnd_neq_pnd in E'.
  - now rewrite andb_false_r.
Qed.

Lemma pnd_all_quiet n :
  all_nodes (quiet pnd_fires) (convert_pnd_to_gnd n) = true.
Proof.
  induction n as [t a x cs tl IH|c tl] using node_tree_ind; [|reflexivity].
  rewrite convert_pnd_to_gnd_Elem, all_nodes_Elem.
  apply andb_true_iff. split.
  - apply (pnd_body_quiet t a x cs tl).
  - rewrite forallb_map_comp. apply forallb_forall. intros c Hc.
    rewrite Forall_forall in IH. auto.
Qed.

(** Rule 2 keeps what rule 1 established: a node it relabels is no
    longer typed "wikidata", and the other nodes keep their attributes. *)
Lemma wikidata_quiet_after_pnd n :
  all_nodes (quiet wikidata_fires) n = true ->
  all_nodes (quiet wikidata_fires) (convert_pnd_to_gnd n) = true.
Proof.
  induction n as [t a x cs tl IH|c tl] using node_tree_ind; intros H;
    [|exact H].
  rewrite all_nodes_Elem in H. apply andb_true_iff in H.
  destruct H as [H1 H2].
  rewrite convert_pnd_to_gnd_Elem, all_nodes_Elem.
  apply andb_true_iff. split.
  - destruct (is_pnd_idno (Elem t a x cs tl)) eqn:E; [|exact H1].
    unfold quiet, wikidata_fires, is_wikidata_idno, attr_is.
    cbn [attrib_of]. rewrite pnd_body_type.
    replace (Str.eqb (u "gnd") (u "wikidata")) with false by reflexivity.
    now rewrite andb_false_r.
  - rewrite forallb_map_comp. apply forallb_forall. intros c Hc.
    rewrite Forall_forall in IH. rewrite forallb_forall in H2. auto.
Qed.

Lemma langusage_all_quiet n :
  all_nodes (quiet langusage_fires) (ensure_langusage_spanish n) = true.
Proof.
  induction n as [t a x cs tl IH|c tl] using node_tree_ind; [|reflexivity].
  rewrite ensure_langusage_spanish_Elem, all_nodes_Elem.
  apply andb_true_iff. split.
  - unfold quiet, langusage_fires. cbn [has_tag children_of].
    destruct (Str.eqb t (tei "profileDesc")); [|reflexivity].
    rewrite existsb_app.
    rewrite existsb_map_ext with (g := has_tag (tei "langUsage"))
      by (intros c; now rewrite has_tag_shallow, langusage_shallow,
                            <- has_tag_shallow).
    unfold langusage_added.
    destruct (existsb (has_tag (tei "langUsage")) cs); reflexivity.
  - rewrite forallb_app. apply andb_true_iff. split.
    + rewrite forallb_map_comp. apply forallb_forall. intros c Hc.
      rewrite Forall_forall in IH. auto.
    + destruct (Str.eqb t (tei "profileDesc")); [|reflexivity].
      unfold langusage_added. now destruct (existsb _ cs).
Qed.

Lemma keywords_all_quiet n :
  all_nodes (quiet keywords_fires) (ensure_textclass_keywords n) = true.
Proof.
  induction n as [t a x cs tl IH|c tl] using node_tree_ind; [|reflexivity].
  rewrite ensure_textclass_keywords_Elem, all_nodes_Elem.
  apply andb_true_iff. split.
  - unfold quiet, keywords_fires. cbn [has_tag children_of].
    destruct (Str.eqb t (tei "textClass")); [|reflexivity].
    rewrite !has_group_app, !has_group_map_keywords.
    rewrite keywords_added_independent. unfold group_added.
    destruct (has_group BK_SCHEME cs), (has_group GND_SCHEME cs),
      (has_group TG_SCHEME cs); reflexivity.
  - rewrite forallb_app. apply andb_true_iff. split.
    + rewrite forallb_map_comp. apply forallb_forall. intros c Hc.
      rewrite Forall_forall in IH. auto.
    + destruct (Str.eqb t (tei "textClass")); [|reflexivity].
      rewrite keywords_added_independent. unfold group_added.
      destruct (has_group BK_SCHEME cs), (has_group GND_SCHEME cs),
        (has_group TG_SCHEME cs); reflexivity.
Qed.

(* ------------------------------------------------------------------ *)
(** ** What each scanning rule leaves behind *)

(** X2: after rule 1 the document holds no [idno] typed "wikidata"
    that has a non-empty trimmed text and lacks a non-empty [corresp]:
    the rule has nothing left to do anywhere in its output. *)
Theorem wikidata_nothing_left root :
  select wikidata_fires [] (add_wikidata_corresp root) = []
  /\ no_match wikidata_fires (add_wikidata_corresp root).
Proof.
  assert (H : select wikidata_fires [] (add_wikidata_corresp root) = []).
  { apply all_quiet_select_nil; [reflexivity | apply wikidata_all_quiet]. }
  split; [exact H | now apply select_nil_no_match].
Qed.

(** X3: after rule 2 the query [//tei:idno[@type="pnd"]] finds nothing:
    no [idno] typed "pnd" is left anywhere in the document. *)
Theorem pnd_nothing_left root :
  select (fun _ => is_pnd_idno) [] (convert_pnd_to_gnd root) = []
  /\ no_match (fun _ => is_pnd_idno) (convert_pnd_to_gnd root).
Proof.
  assert (H : select pnd_fires [] (convert_pnd_to_gnd root) = []).
  { apply all_quiet_select_nil; [reflexivity | apply pnd_all_quiet]. }
  split; [exact H | now apply (select_nil_no_match pnd_fires)].
Qed.

(** X4: after rule 3 every [profileDesc] of the document, at any depth
    and the root included, has a [langUsage] child. *)
Theorem langusage_everywhere root :
  all_nodes
    (fun e => negb (has_tag (tei "profileDesc") e)
              || existsb (has_tag (tei "langUsage")) (children_of e))
    (ensure_langusage_spanish root) = true
  /\ no_match langusage_fires (ensure_langusage_spanish root).
Proof.
  split.
  - rewrite all_nodes_ext with (P' := quiet langusage_fires);
      [apply langusage_all_quiet|].
    intros e. unfold quiet, langusage_fires.
    now rewrite negb_andb, negb_involutive.
  - apply all_quiet_no_match; [reflexivity | apply langusage_all_quiet].
Qed.

(** X5: after rule 4 every [textClass] of the document has a
    [keywords] child for each of the three schemes. *)
Theorem keywords_everywhere root :
  all_nodes
    (fun e => negb (has_tag (tei "textClass") e)
              || (has_group BK_SCHEME (children_of e)
                  && has_group GND_SCHEME (children_of e)
                  && has_group TG_SCHEME (children_of e)))
    (ensure_textclass_keywords root) = true
  /\ no_match keywords_fires (ensure_textclass_keywords root).
Proof.
  split.
  - rewrite all_nodes_ext with (P' := quiet keywords_fires);
      [apply keywords_all_quiet|].
    intros e. unfold quiet, keywords_fires.
    now rewrite negb_andb, negb_involutive.
  - apply all_quiet_no_match; [reflexivity | apply keywords_all_quiet].
Qed.

(* ------------------------------------------------------------------ *)
(** ** What the pipeline leaves behind *)

Ltac block_checks := intros; reflexivity.

Lemma process_tree_unfold basename root :
  process_tree basename root
  = ensure_creation_from_events
      (ensure_caldracor_id
         (ensure_publisher
            (normalize_persname_rojas
               (ensure_textclass_keywords
                  (ensure_langusage_spanish
                     (convert_pnd_to_gnd (add_wikidata_corresp root))))))
         basename).
Proof. reflexivity. Qed.

Lemma pipeline_all_quiet basename root :
  all_nodes (quiet wikidata_fires) (process_tree basename root) = true
  /\ all_nodes (quiet pnd_fires) (process_tree basename root) = true
  /\ all_nodes (quiet langusage_fires) (process_tree basename root) = true
  /\ all_nodes (quiet keywords_fires) (process_tree basename root) = true.
Proof.
  rewrite process_tree_unfold. repeat split.
  - apply kept_from_3;
      try exact (@wikidata_quiet_kinds); try exact (@wikidata_quiet_text);
      try block_checks.
    apply wikidata_quiet_after_pnd, wikidata_all_quiet.
  - apply kept_from_3;
      try exact (@pnd_quiet_kinds); try exact (@pnd_quiet_text);
      try block_checks.
    apply pnd_all_quiet.
  - apply kept_from_4;
      try exact (@langusage_quiet_kinds); try exact (@langusage_quiet_text);
      try block_checks.
    apply langusage_all_quiet.
  - apply kept_from_5;
      try exact (@keywords_quiet_kinds); try exact (@keywords_quiet_text);
      try block_checks.
    apply keywords_all_quiet.
Qed.

(** X6: in the tree [process_file] writes out, whatever the input and
    the document id: no [idno] typed "wikidata" with a non-empty
    trimmed text lacks a non-empty [corresp]; no [idno] is typed "pnd";
    every [profileDesc] has a [langUsage] child; every [textClass] has
    the three keyword groups.  The later rules undo nothing of what the
    first four established. *)
Theorem pipeline_postconditions basename root :
  no_match wikidata_fires (process_tree basename root)
  /\ no_match (fun _ => is_pnd_idno) (process_tree basename root)
  /\ no_match langusage_fires (process_tree basename root)
  /\ no_match keywords_fires (process_tree basename root).
Proof.
  destruct (pipeline_all_quiet basename root) as (H1 & H2 & H3 & H4).
  repeat split.
  - now apply all_quiet_no_match.
  - now apply (all_quiet_no_match pnd_fires).
  - now apply all_quiet_no_match.
  - now apply all_quiet_no_match.
Qed.

(* ------------------------------------------------------------------ *)
(** ** Nothing is removed *)

Lemma stays_refl r e : stays r e e.
Proof. repeat split; auto. Qed.

Lemma stays_same_shape r e e' :
  shallow e' = shallow e ->
  List.length (children_of e') = List.length (children_of e) ->
  stays r e e'.
Proof.
  intros Hs Hl. destruct e, e'; simpl in *; try discriminate;
    injection Hs as -> -> -> ->||injection Hs as -> ->;
    repeat split; auto; simpl; lia.
Qed.

Lemma length_update_nth (A : Type) (g : A -> A) l :
  forall i, List.length (update_nth i g l) = List.length l.
Proof. induction l as [|c l IH]; intros [|i]; simpl; auto. Qed.

Lemma Forall2_nth (A : Type) (Rel : A -> A -> Prop) l l' :
  Forall2 Rel l l' ->
  forall j c, nth_error l j = Some c ->
              exists c', nth_error l' j = Some c' /\ Rel c c'.
Proof.
  induction 1 as [|c c' l l' H _ IH]; intros [|j] c0 Hn; simpl in *;
    try discriminate.
  - injection Hn as <-. eauto.
  - now apply IH.
Qed.

Section UpdateStays.
Variable r : rule.
Variable f : node -> node.
Hypothesis f_stays :
  forall e q e1,
    get_at q e = Some e1 ->
    exists e1', get_at q (f e) = Some e1' /\ stays r e1 e1'.

Lemma update_at_stays p :
  forall n q e,
    get_at q n = Some e ->
    exists e', get_at q (update_at p f n) = Some e' /\ stays r e e'.
Proof.
  induction p as [|i p IH]; intros n q e Hg; simpl update_at.
  - now apply f_stays.
  - destruct n as [t a x cs tl|c tl]; [|eauto using stays_refl].
    destruct q as [|j q]; simpl in Hg.
    + injection Hg as <-. eexists. split; [reflexivity|].
      apply stays_same_shape; [reflexivity|].
      simpl. apply length_update_nth.
    + destruct (nth_error cs j) as [c|] eqn:Hn; [|discriminate].
      cbn [get_at children_of].
      destruct (Nat.eq_dec i j) as [->|Hij].
      * rewrite nth_error_update_nth_same, Hn. simpl. now apply IH.
      * rewrite nth_error_update_nth_other, Hn by assumption.
        eauto using stays_refl.
Qed.
End UpdateStays.

Lemma append_child_stays r c e q e1 :
  get_at q e = Some e1 ->
  exists e1', get_at q (append_child c e) = Some e1' /\ stays r e1 e1'.
Proof.
  intros Hg. destruct e as [t a x cs tl|k tl]; [|eauto using stays_refl].
  destruct q as [|j q]; simpl in Hg.
  - injection Hg as <-. eexists. split; [reflexivity|].
    repeat split; auto. simpl. rewrite length_app. lia.
  - destruct (nth_error cs j) as [c1|] eqn:Hn; [|discriminate].
    simpl. rewrite nth_error_app1 by (apply nth_error_Some; congruence).
    rewrite Hn. eauto using stays_refl.
Qed.

Lemma set_text_stays v c q e1 :
  get_at q c = Some e1 ->
  exists e1',
    get_at q (set_text v c) = Some e1' /\ stays EnsurePublisher e1 e1'.
Proof.
  intros Hg. destruct c as [t a x cs tl|k tl]; [|eauto using stays_refl].
  destruct q as [|j q]; simpl in Hg.
  - injection Hg as <-. eexists. split; [reflexivity|].
    repeat split; auto. intros H. now contradiction H.
  - simpl. destruct (nth_error cs j); [|discriminate].
    eauto using stays_refl.
Qed.

Lemma publisher_body_stays e q e1 :
  get_at q e = Some e1 ->
  exists e1',
    get_at q (publisher_body e) = Some e1' /\ stays EnsurePublisher e1 e1'.
Proof.
  intros Hg. destruct e as [t a x cs tl|k tl]; [|eauto using stays_refl].
  unfold publisher_body.
  destruct (update_first _ _ cs) as [cs'|] eqn:U.
  - assert (F : Forall2 (fun c c' => c' = c
                                     \/ c' = set_text PUBLISHER_TEXT c)
                  cs cs').
    { eapply Forall2_update_first; [| |exact U]; auto. }
    destruct q as [|j q]; simpl in Hg.
    + injection Hg as <-. eexists. split; [reflexivity|].
      repeat split; auto. simpl.
      apply Forall2_length in F. lia.
    + destruct (nth_error cs j) as [c1|] eqn:Hn; [|discriminate].
      destruct (Forall2_nth F _ Hn) as (c1' & Hn' & [->| ->]);
        simpl; rewrite Hn'.
      * eauto using stays_refl.
      * now apply set_text_stays.
  - now apply (append_child_stays EnsurePublisher publisher_block
                 (Elem t a x cs tl)).
Qed.

Section LocalStays.
Variable r : rule.
Variable R : node -> node.
Variable fires : list str -> node -> bool.
Hypothesis R_Misc : forall c tl, R (Misc c tl) = Misc c tl.
Hypothesis R_Elem :
  forall t a x cs tl,
  exists a' extra,
    R (Elem t a x cs tl) = Elem t a' x (map R cs ++ extra) tl
    /\ (forall anc, fires anc (Elem t a x cs tl) = false ->
                    a' = a /\ extra = []).
Hypothesis R_attrib :
  r <> AddWikidataCorresp -> r <> ConvertPndToGnd ->
  forall e, attrib_of (R e) = attrib_of e.

Lemma local_stays root q e :
  get_at q root = Some e ->
  exists e', get_at q (R root) = Some e' /\ stays r e e'.
Proof.
  intros Hg. exists (R e).
  split; [now apply local_get_at with (fires := fires)|].
  destruct e as [t a x cs tl|c tl]; [|rewrite R_Misc; apply stays_refl].
  pose proof (R_attrib) as Ha.
  destruct (R_Elem t a x cs tl) as (a' & extra & E & _).
  repeat split.
  - now rewrite E.
  - now rewrite E.
  - rewrite E. simpl. rewrite length_app, length_map. lia.
  - now rewrite E.
  - intros H1 H2. apply (Ha H1 H2).
Qed.
End LocalStays.

(** X7: a rule other than the name normaliser removes and moves
    nothing.  Every node of the input is found at the same place after
    the rule, with the same name and tail and with at least the children
    it had; its text is the same unless the rule is the publisher rule,
    and its attributes are the same unless the rule is one of the two
    identifier rules. *)
Theorem nothing_removed basename r root q e :
  r <> NormalizePersnameRojas ->
  get_at q root = Some e ->
  exists e',
    get_at q (apply_rule basename r root) = Some e' /\ stays r e e'.
Proof.
  intros Hr Hg. destruct r; simpl apply_rule; try congruence.
  - apply local_stays with (fires := wikidata_fires);
      auto using wikidata_local. congruence.
  - apply local_stays with (fires := pnd_fires);
      auto using pnd_local. congruence.
  - apply local_stays with (fires := langusage_fires);
      auto using langusage_local.
    intros _ _ [t a x cs tl|c tl]; reflexivity.
  - apply local_stays with (fires := keywords_fires);
      auto using keywords_local.
    intros _ _ [t a x cs tl|c tl]; reflexivity.
  - unfold ensure_publisher.
    destruct (pub_stmts root) as [|[p ps] rest]; [eauto using stays_refl|].
    apply update_at_stays; [|assumption].
    intros. now apply publisher_body_stays.
  - unfold ensure_caldracor_id.
    destruct (pub_stmts root) as [|[p ps] rest]; [eauto using stays_refl|].
    destruct (existsb _ _); [eauto using stays_refl|].
    apply update_at_stays; [|assumption].
    intros. now apply append_child_stays.
  - unfold ensure_creation_from_events.
    destruct (select_desc _ root) as [|[p pd] rest];
      [eauto using stays_refl|].
    destruct (existsb _ _); [eauto using stays_refl|].
    destruct (chosen_event root); [|eauto using stays_refl].
    apply update_at_stays; [|assumption].
    intros. now apply append_child_stays.
Qed.

Lemma nothing_removed_witness :
  get_at [0; 0] doc_old_publisher
  = Some (Elem (tei "publisher") [] (Some (u "Old")) [] (Some [10%N]))
  /\ exists e',
       get_at [0; 0] (apply_rule [] EnsurePublisher doc_old_publisher)
       = Some e'
       /\ tag_of e' = Some (tei "publisher")
       /\ tail_of e' = Some [10%N].
Proof.
  split; [reflexivity|].
  destruct (@nothing_removed [] EnsurePublisher doc_old_publisher [0; 0]
              (Elem (tei "publisher") [] (Some (u "Old")) [] (Some [10%N])))
    as (e' & G & T1 & T2 & _); [discriminate | reflexivity |].
  exists e'. auto.
Defined.

(* ------------------------------------------------------------------ *)
(** ** What the name heuristic sees of the text *)

Lemma starts_with_iff needle s :
  starts_with needle s = true <-> exists l2, s = needle ++ l2.
Proof.
  revert s. induction needle as [|a needle IH]; intros s; simpl.
  - split; eauto.
  - destruct s as [|b s].
    + split; [discriminate | intros [l2 H]; discriminate].
    + rewrite andb_true_iff, N.eqb_eq, IH. split.
      * intros (-> & l2 & ->). eauto.
      * intros (l2 & [= -> ->]). eauto.
Qed.

Lemma contains_iff needle s :
  contains needle s = true <-> exists l1 l2, s = l1 ++ needle ++ l2.
Proof.
  induction s as [|b s IH]; simpl; rewrite orb_true_iff, starts_with_iff.
  - split.
    + intros [[l2 H]|H]; [|discriminate]. exists [], l2. exact H.
    + intros (l1 & l2 & H). left. destruct l1; simpl in H; eauto.
      discriminate.
  - rewrite IH. split.
    + intros [[l2 H]|(l1 & l2 & ->)].
      * exists [], l2. exact H.
      * exists (b :: l1), l2. reflexivity.
    + intros (l1 & l2 & H). destruct l1 as [|c l1]; simpl in H.
      * left. eauto.
      * right. injection H as -> ->. eauto.
Qed.

Lemma contains_rev needle s :
  contains (rev needle) (rev s) = contains needle s.
Proof.
  apply eq_true_iff_eq. rewrite !contains_iff. split.
  - intros (l1 & l2 & H). exists (rev l2), (rev l1).
    apply (f_equal (@rev N)) in H.
    rewrite rev_involutive, !rev_app_distr, rev_involutive in H.
    now rewrite H, app_assoc.
  - intros (l1 & l2 & ->). exists (rev l2), (rev l1).
    now rewrite !rev_app_distr, app_assoc.
Qed.

(** A word: a non-empty string without white space. *)
Section Word.
Variable needle : str.
Hypothesis needle_word : forallb (fun c => negb (is_space c)) needle = true.
Hypothesis needle_some : needle <> [].

Lemma word_head_no_space c s :
  is_space c = true -> starts_with needle (c :: s) = false.
Proof.
  intros Hc. destruct needle as [|a n']; [congruence|].
  simpl in *. apply andb_true_iff in needle_word.
  destruct needle_word as [Ha _].
  destruct (N.eqb_spec a c) as [->|]; [|reflexivity].
  rewrite Hc in Ha. discriminate.
Qed.

Lemma word_not_in_nil : contains needle [] = false.
Proof. destruct needle; [congruence | reflexivity]. Qed.

Lemma contains_lstrip s : contains needle (lstrip s) = contains needle s.
Proof.
  induction s as [|c s IH]; [reflexivity|].
  cbn [lstrip]. destruct (is_space c) eqn:Hc; [|reflexivity].
  rewrite IH. cbn [contains]. now rewrite word_head_no_space.
Qed.
End Word.

Lemma word_rev needle :
  forallb (fun c => negb (is_space c)) needle = true ->
  forallb (fun c => negb (is_space c)) (rev needle) = true.
Proof.
  rewrite !forallb_forall. intros H c Hc. apply H. now apply in_rev.
Qed.

Lemma contains_strip needle s :
  forallb (fun c => negb (is_space c)) needle = true ->
  needle <> [] ->
  contains needle (strip s) = contains needle s.
Proof.
  intros W Hne. unfold strip, rstrip.
  rewrite <- (contains_rev needle (rev _)), rev_involutive.
  rewrite contains_lstrip.
  - rewrite contains_rev. now apply contains_lstrip.
  - now apply word_rev.
  - intros H. apply Hne. apply (f_equal (@rev N)) in H.
    now rewrite rev_involutive in H.
Qed.

Lemma starts_with_replace1 needle :
  forallb (fun c => negb (is_space c)) needle = true ->
  forall s, starts_with needle (replace1 160 32 s) = starts_with needle s.
Proof.
  induction needle as [|a n' IH]; intros W s; [reflexivity|].
  simpl in W. apply andb_true_iff in W. destruct W as [Ha W].
  destruct s as [|c s]; [reflexivity|].
  cbn [replace1 map starts_with]. fold (replace1 160 32 s).
  rewrite (IH W). f_equal.
  destruct (N.eqb_spec c 160) as [->|Hc]; [|reflexivity].
  destruct (N.eqb_spec a 32) as [E|_]; [subst a; discriminate|].
  destruct (N.eqb_spec a 160) as [E|_]; [subst a; discriminate|].
  reflexivity.
Qed.

Lemma contains_replace1 needle s :
  forallb (fun c => negb (is_space c)) needle = true ->
  contains needle (replace1 160 32 s) = contains needle s.
Proof.
  intros W. induction s as [|c s IH]; [reflexivity|].
  change (replace1 160 32 (c :: s))
    with ((if N.eqb c 160 then 32%N else c) :: replace1 160 32 s).
  cbn [contains]. rewrite IH. f_equal.
  apply (@starts_with_replace1 needle W (c :: s)).
Qed.

Lemma starts_with_sep needle :
  forallb (fun c => negb (is_space c)) needle = true ->
  forall p r, starts_with needle (p ++ 32%N :: r) = starts_with needle p.
Proof.
  induction needle as [|a n' IH]; intros W p r; [reflexivity|].
  simpl in W. apply andb_true_iff in W. destruct W as [Ha W].
  destruct p as [|c p]; simpl.
  - destruct (N.eqb_spec a 32) as [->|]; [discriminate | reflexivity].
  - now rewrite (IH W).
Qed.

Lemma contains_sep needle p r :
  forallb (fun c => negb (is_space c)) needle = true ->
  needle <> [] ->
  contains needle (p ++ 32%N :: r) = contains needle p || contains needle r.
Proof.
  intros W Hne. induction p as [|c p IH].
  - rewrite word_not_in_nil by assumption. cbn [app contains orb].
    now rewrite word_head_no_space.
  - cbn [app contains]. rewrite IH, <- orb_assoc. f_equal.
    apply (@starts_with_sep needle W (c :: p) r).
Qed.

Lemma contains_join needle parts :
  forallb (fun c => negb (is_space c)) needle = true ->
  needle <> [] ->
  contains needle (join (u " ") parts) = existsb (contains needle) parts.
Proof.
  intros W Hne. induction parts as [|p [|q rest] IH].
  - now apply word_not_in_nil.
  - cbn [join existsb]. now rewrite orb_false_r.
  - change (join (u " ") (p :: q :: rest))
      with (p ++ 32%N :: join (u " ") (q :: rest)).
    rewrite contains_sep, IH by assumption. reflexivity.
Qed.

Lemma contains_full_text needle pers :
  forallb (fun c => negb (is_space c)) needle = true ->
  needle <> [] ->
  contains needle (full_text pers) = existsb (contains needle) (itertext pers).
Proof.
  intros W Hne. unfold full_text.
  now rewrite contains_replace1, contains_strip, contains_join.
Qed.

(** X8: the name heuristic decides on the pieces of text one by one.
    An entry is taken for the known contributor exactly when its
    [xml:id] is "rojas", or one of the strings [itertext] yields
    contains "Rojas" and one of them contains "Antonio": joining the
    pieces with spaces, trimming and replacing no-break spaces change
    nothing in the decision, and a name split over two pieces is not
    seen. *)
Theorem heuristic_piecewise pers :
  rojas_heuristic pers
  = (match Attr.get XML_ID (attrib_of pers) with
     | Some v => Str.eqb v (u "rojas")
     | None => false
     end
     || existsb (contains (u "Rojas")) (itertext pers)
        && existsb (contains (u "Antonio")) (itertext pers)).
Proof.
  unfold rojas_heuristic.
  rewrite !contains_full_text by (reflexivity || discriminate).
  reflexivity.
Qed.

(* ------------------------------------------------------------------ *)
(** ** The header after the pipeline *)

Lemma Forall2_same (A : Type) (Rel : A -> A -> Prop) l :
  (forall c, Rel c c) -> Forall2 Rel l l.
Proof. intros H. induction l; constructor; auto. Qed.

Lemma grown_refl e : grown e e.
Proof.
  split; [reflexivity|]. exists (children_of e), [].
  split; [now rewrite app_nil_r | now apply Forall2_same].
Qed.

Lemma shallow_append_child c e : shallow (append_child c e) = shallow e.
Proof. destruct e; reflexivity. Qed.

Lemma shallow_update_at f :
  (forall e, shallow (f e) = shallow e) ->
  forall p n, shallow (update_at p f n) = shallow n.
Proof. intros Hf [|i p] [t a x cs tl|c tl]; simpl; auto; apply Hf. Qed.

Lemma grown_append_child c e : grown e (append_child c e).
Proof.
  destruct e as [t a x cs tl|k tl]; [|apply grown_refl].
  split; [reflexivity|]. exists cs, [c].
  split; [reflexivity | now apply Forall2_same].
Qed.

(** Adding a child somewhere in the tree: what was at [p] has grown. *)
Lemma grown_update_at c q :
  forall n p e,
    get_at p n = Some e ->
    exists e', get_at p (update_at q (append_child c) n) = Some e'
               /\ grown e e'.
Proof.
  induction q as [|i q IH]; intros n p e Hg; simpl update_at.
  - destruct p as [|j p]; simpl in Hg.
    + injection Hg as <-. eexists. split; [reflexivity|].
      apply grown_append_child.
    + destruct n as [t a x cs tl|k tl]; [|destruct j; discriminate].
      simpl in Hg. destruct (nth_error cs j) as [c1|] eqn:Hn; [|discriminate].
      simpl. rewrite nth_error_app1 by (apply nth_error_Some; congruence).
      rewrite Hn. eauto using grown_refl.
  - destruct n as [t a x cs tl|k tl]; [|eauto using grown_refl].
    destruct p as [|j p]; simpl in Hg.
    + injection Hg as <-. eexists. split; [reflexivity|].
      split; [reflexivity|].
      exists (update_nth i (update_at q (append_child c)) cs), [].
      split; [now rewrite app_nil_r|].
      apply Forall2_update_nth; [reflexivity|].
      intros k. apply shallow_update_at. apply shallow_append_child.
    + destruct (nth_error cs j) as [c1|] eqn:Hn; [|discriminate].
      cbn [get_at children_of].
      destruct (Nat.eq_dec i j) as [->|Hij].
      * rewrite nth_error_update_nth_same, Hn. simpl. now apply IH.
      * rewrite nth_error_update_nth_other, Hn by assumption.
        eauto using grown_refl.
Qed.

Lemma find_Forall2 (q : node -> bool) cs cs1 extra pub :
  Forall2 (fun k k' => shallow k' = shallow k) cs cs1 ->
  (forall k k', shallow k' = shallow k -> q k' = q k) ->
  List.find q cs = Some pub ->
  exists pub', List.find q (cs1 ++ extra) = Some pub'
               /\ shallow pub' = shallow pub.
Proof.
  intros F Hq. induction F as [|k k' cs cs1 Hk _ IH]; simpl;
    [discriminate|].
  rewrite (Hq _ _ Hk). destruct (q k).
  - intros [= <-]. eauto.
  - exact IH.
Qed.

Lemma existsb_Forall2_app (q : node -> bool) cs cs1 extra :
  Forall2 (fun k k' => shallow k' = shallow k) cs cs1 ->
  (forall k k', shallow k' = shallow k -> q k' = q k) ->
  existsb q cs = true -> existsb q (cs1 ++ extra) = true.
Proof.
  intros F Hq. induction F as [|k k' cs cs1 Hk _ IH]; simpl;
    [discriminate|].
  rewrite (Hq _ _ Hk). destruct (q k); auto.
Qed.

Lemma has_tag_of_shallow t k k' :
  shallow k' = shallow k -> has_tag t k' = has_tag t k.
Proof. intros H. now rewrite (has_tag_shallow t k'), H, <- has_tag_shallow. Qed.

Lemma is_caldracor_of_shallow k k' :
  shallow k' = shallow k -> is_caldracor_idno k' = is_caldracor_idno k.
Proof.
  destruct k, k'; simpl; intros H; try discriminate; [|reflexivity].
  now injection H as -> -> -> ->.
Qed.

Lemma text_of_shallow k k' :
  shallow k' = shallow k -> text_of k' = text_of k.
Proof.
  destruct k, k'; simpl; intros H; try discriminate; [|reflexivity].
  now injection H as -> -> -> ->.
Qed.

Lemma grown_publisher ps ps' :
  grown ps ps' ->
  (exists pub, find_child (tei "publisher") ps = Some pub
               /\ text_of pub = Some PUBLISHER_TEXT) ->
  exists pub, find_child (tei "publisher") ps' = Some pub
              /\ text_of pub = Some PUBLISHER_TEXT.
Proof.
  intros (_ & cs1 & extra & E & F) (pub & Hf & Ht).
  unfold find_child in *. rewrite E.
  destruct (find_Forall2 (has_tag (tei "publisher")) extra F
              (has_tag_of_shallow (tei "publisher")) Hf) as (pub' & Hf' & S).
  exists pub'. split; [exact Hf'|]. now rewrite (@text_of_shallow _ _ S).
Qed.

Lemma grown_caldracor ps ps' :
  grown ps ps' ->
  existsb is_caldracor_idno (children_of ps) = true ->
  existsb is_caldracor_idno (children_of ps') = true.
Proof.
  intros (_ & cs1 & extra & E & F) H. rewrite E.
  now apply (existsb_Forall2_app _ extra F is_caldracor_of_shallow).
Qed.

Lemma publisher_body_find t a x cs tl :
  exists pub,
    find_child (tei "publisher") (publisher_body (Elem t a x cs tl))
    = Some pub
    /\ text_of pub = Some PUBLISHER_TEXT.
Proof.
  unfold publisher_body, find_child.
  destruct (update_first _ _ cs) as [cs'|] eqn:U; simpl children_of.
  - destruct (update_first_some _ _ _ U)
      as (l1 & c & l2 & -> & -> & H1 & H2).
    assert (Hc : has_tag (tei "publisher") c = true)
      by (apply find_some in H2; tauto).
    exists (set_text PUBLISHER_TEXT c). split.
    + apply find_prefix; [assumption|]. now destruct c.
    + destruct c; [reflexivity | discriminate].
  - apply update_first_none in U.
    exists (Elem (tei "publisher") [] (Some PUBLISHER_TEXT) [] None).
    split; [|reflexivity]. now apply find_snoc.
Qed.

Lemma publisher_pub_paths d :
  map fst (pub_stmts (ensure_publisher d)) = map fst (pub_stmts d).
Proof.
  unfold ensure_publisher.
  destruct (pub_stmts d) as [|[p ps] rest] eqn:E; [now rewrite E|].
  unfold pub_stmts in *. rewrite <- E.
  apply select_update_at; [exact is_pub_stmt_tag|].
  apply publisher_body_stable.
Qed.

Lemma append_pub_paths c q d :
  (forall anc, select is_pub_stmt anc c = []) ->
  map fst (pub_stmts (update_at q (append_child c) d))
  = map fst (pub_stmts d).
Proof.
  intros Hc. unfold pub_stmts.
  apply select_update_at; [exact is_pub_stmt_tag|].
  intros anc e. now apply append_child_stable; [exact is_pub_stmt_tag|].
Qed.

Lemma caldracor_pub_paths d b :
  map fst (pub_stmts (ensure_caldracor_id d b)) = map fst (pub_stmts d).
Proof.
  unfold ensure_caldracor_id.
  destruct (pub_stmts d) as [|[p ps] rest] eqn:E; [now rewrite E|].
  destruct (existsb _ _); [now rewrite E|].
  rewrite <- E. apply append_pub_paths. reflexivity.
Qed.

Lemma creation_pub_paths d :
  map fst (pub_stmts (ensure_creation_from_events d))
  = map fst (pub_stmts d).
Proof.
  unfold ensure_creation_from_events.
  destruct (select_desc _ d) as [|[p pd] rest]; [reflexivity|].
  destruct (existsb _ _); [reflexivity|].
  destruct (chosen_event d); [|reflexivity].
  apply append_pub_paths. reflexivity.
Qed.

(** Rules 6 and 7, one after the other, on any document. *)
Lemma publication_after_7 d b p ps rest :
  pub_stmts (ensure_caldracor_id (ensure_publisher d) b) = (p, ps) :: rest ->
  publication_complete ps.
Proof.
  intros E7.
  destruct (fst_head _ (eq_sym (caldracor_pub_paths (ensure_publisher d) b))
              E7) as (ps6 & rest6 & E6).
  destruct (fst_head _ (eq_sym (publisher_pub_paths d)) E6)
    as (ps5 & rest5 & E5).
  destruct (pub_stmts_head _ E5) as (G5 & a & x & cs & tl & ->).
  destruct (pub_stmts_head _ E6) as (G6 & _).
  destruct (pub_stmts_head _ E7) as (G7 & _).
  assert (P6 : ps6 = publisher_body (Elem (tei "publicationStmt") a x cs tl)).
  { unfold ensure_publisher in G6. rewrite E5 in G6.
    rewrite (get_at_update_at_same _ _ _ G5) in G6. congruence. }
  pose proof (publisher_body_find (tei "publicationStmt") a x cs tl) as F6.
  rewrite <- P6 in F6.
  unfold ensure_caldracor_id in G7. rewrite E6 in G7.
  destruct (existsb is_caldracor_idno (children_of ps6)) eqn:X.
  - assert (ps = ps6) by congruence. subst ps. now split.
  - rewrite (get_at_update_at_same _ _ _ G6) in G7.
    injection G7 as <-. split.
    + apply (grown_publisher (grown_append_child _ ps6) F6).
    + destruct ps6 as [t6 a6 x6 cs6 tl6|k tl6].
      * simpl. rewrite existsb_app. simpl. now rewrite orb_true_r.
      * destruct F6 as (pub & F & _). discriminate.
Qed.

Lemma publication_after_8 d p ps rest :
  (forall p7 ps7 rest7,
     pub_stmts d = (p7, ps7) :: rest7 -> publication_complete ps7) ->
  pub_stmts (ensure_creation_from_events d) = (p, ps) :: rest ->
  publication_complete ps.
Proof.
  intros H7 E8.
  destruct (fst_head _ (eq_sym (creation_pub_paths d)) E8)
    as (ps7 & rest7 & E7).
  specialize (H7 _ _ _ E7).
  destruct (pub_stmts_head _ E7) as (G7 & _).
  destruct (pub_stmts_head _ E8) as (G8 & _).
  assert (G : grown ps7 ps).
  { unfold ensure_creation_from_events in G8.
    destruct (select_desc _ d) as [|[q pd] rest'];
      [replace ps with ps7 by congruence; apply grown_refl|].
    destruct (existsb _ _);
      [replace ps with ps7 by congruence; apply grown_refl|].
    destruct (chosen_event d) as [ev|];
      [|replace ps with ps7 by congruence; apply grown_refl].
    destruct (grown_update_at (creation_block ev) q _ _ G7)
      as (e' & Ge & Gr).
    congruence. }
  destruct H7 as [F X]. split.
  - exact (grown_publisher G F).
  - exact (grown_caldracor G X).
Qed.

(** X9: the publication statement of every output document is
    complete.  If the document the pipeline returns has a
    [publicationStmt] under a [fileDesc], the first one has a
    [publisher] child, the first of which carries the project title, and
    an [idno] child typed "caldracor". *)
Theorem pipeline_publication_complete basename root p ps rest :
  pub_stmts (process_tree basename root) = (p, ps) :: rest ->
  (exists pub, find_child (tei "publisher") ps = Some pub
               /\ text_of pub = Some PUBLISHER_TEXT)
  /\ existsb is_caldracor_idno (children_of ps) = true.
Proof.
  rewrite process_tree_unfold. intros E.
  change (publication_complete ps).
  eapply publication_after_8; [|exact E].
  intros p7 ps7 rest7. apply publication_after_7.
Qed.

Lemma pipeline_publication_complete_witness :
  exists ps,
    pub_stmts (process_tree (u "comedia42") doc_print_event)
    = [([0; 0; 0], ps)]
    /\ (exists pub, find_child (tei "publisher") ps = Some pub
                    /\ text_of pub = Some PUBLISHER_TEXT)
    /\ existsb is_caldracor_idno (children_of ps) = true.
Proof.
  eexists. split; [vm_compute; reflexivity|].
  eapply (@pipeline_publication_complete (u "comedia42") doc_print_event
            [0; 0; 0] _ []).
  vm_compute. reflexivity.
Defined.

Lemma creation_after d q pd rest :
  select_desc is_profile_desc (ensure_creation_from_events d)
  = (q, pd) :: rest ->
  existsb (has_tag (tei "creation")) (children_of pd) = true
  \/ chosen_event (ensure_creation_from_events d) = None.
Proof.
  unfold ensure_creation_from_events.
  destruct (select_desc is_profile_desc d) as [|[p pd7] rest7] eqn:E7.
  - rewrite E7. discriminate.
  - destruct (existsb (has_tag (tei "creation")) (children_of pd7)) eqn:X.
    + rewrite E7. intros [= <- <- <-]. now left.
    + destruct (chosen_event d) as [ev|] eqn:V; [|now right].
      destruct (@first_desc_after_append is_profile_desc
                  (creation_block ev) is_profile_desc_tag
                  (fun anc => eq_refl) d p pd7 rest7 E7) as [rest' E'].
      rewrite E'. intros [= <- <- <-]. left.
      destruct (profile_desc_head _ E7) as (_ & a & x & cs & tl & ->).
      simpl. rewrite existsb_app. simpl. now rewrite orb_true_r.
Qed.




(* ------------------------------------------------------------------ *)
(** ** The corpus identifier under another file name *)

(** X11: the corpus identifier is written once.  Running the rule
    again with another document id (the file was renamed, say) changes
    nothing: the result of the first run is kept, whether that run
    created the identifier or found one. *)
Theorem caldracor_id_written_once root basename basename' :
  ensure_caldracor_id (ensure_caldracor_id root basename) basename'
  = ensure_caldracor_id root basename.
Proof.
  unfold ensure_caldracor_id at 2 3.
  destruct (pub_stmts root) as [|[p ps] rest] eqn:E.
  - unfold ensure_caldracor_id. now rewrite E.
  - destruct (existsb is_caldracor_idno (children_of ps)) eqn:X.
    + unfold ensure_caldracor_id. now rewrite E, X.
    + destruct (@first_after_append is_pub_stmt (caldracor_idno basename)
                  is_pub_stmt_tag (fun anc => eq_refl) root p ps rest E)
        as [rest' E'].
      unfold ensure_caldracor_id, pub_stmts. rewrite E'.
      destruct (pub_stmts_head _ E) as (_ & a & x & cs & tl & ->).
      simpl append_child. simpl children_of. rewrite existsb_app.
      simpl existsb at 2. now rewrite orb_true_r.
Qed.


(* ------------------------------------------------------------------ *)
(** ** The order of the first four rules *)

Lemma wikidata_pnd_commute n :
  add_wikidata_corresp (convert_pnd_to_gnd n)
  = convert_pnd_to_gnd (add_wikidata_corresp n).
Proof.
  induction n as [t a x cs tl IH|c tl] using node_tree_ind; [|reflexivity].
  rewrite !convert_pnd_to_gnd_Elem, !add_wikidata_corresp_Elem,
    !convert_pnd_to_gnd_Elem.
  f_equal; [|rewrite !map_map; apply map_ext_in; now apply Forall_forall].
  unfold is_pnd_idno, is_wikidata_idno, has_tag, attr_is, attrib_of.
  destruct (Str.eqb t (tei "idno")); [|reflexivity]. cbn [andb].
  destruct (Attr.get (u "type") a) as [v|] eqn:T.
  - destruct (Str.eqb v (u "pnd")) eqn:P.
    + apply StrFacts.eqb_eq in P. subst v.
      replace (Str.eqb (u "pnd") (u "wikidata")) with false by reflexivity.
      rewrite pnd_body_type, T, StrFacts.eqb_refl. reflexivity.
    + destruct (Str.eqb v (u "wikidata")) eqn:W.
      * now rewrite T, W, wikidata_body_type, T, P.
      * now rewrite T, W, P.
  - now rewrite T.
Qed.

(** A rule that rewrites attributes and a rule that appends blocks. *)
Section AttribAppend.
Variables RA RB : node -> node.
Variable fa : str -> Attr.attrs -> option str -> Attr.attrs.
Variable fb : str -> list node -> list node.
Hypothesis RA_Misc : forall c tl, RA (Misc c tl) = Misc c tl.
Hypothesis RB_Misc : forall c tl, RB (Misc c tl) = Misc c tl.
Hypothesis RA_Elem :
  forall t a x cs tl,
    RA (Elem t a x cs tl) = Elem t (fa t a x) x (map RA cs) tl.
Hypothesis RB_Elem :
  forall t a x cs tl,
    RB (Elem t a x cs tl) = Elem t a x (map RB cs ++ fb t cs) tl.
Hypothesis fb_RA : forall t cs, fb t (map RA cs) = fb t cs.
Hypothesis RA_fb : forall t cs, map RA (fb t cs) = fb t cs.

Lemma attrib_append_commute n : RA (RB n) = RB (RA n).
Proof.
  induction n as [t a x cs tl IH|c tl] using node_tree_ind;
    [|now rewrite RB_Misc, RA_Misc, RB_Misc].
  rewrite RB_Elem, !RA_Elem, RB_Elem. f_equal.
  rewrite map_app, !map_map, RA_fb, fb_RA. f_equal.
  apply map_ext_in. now apply Forall_forall.
Qed.
End AttribAppend.

(** Two rules that append blocks, never to the same element. *)
Section AppendAppend.
Variables RB RC : node -> node.
Variables fb fc : str -> list node -> list node.
Hypothesis RB_Misc : forall c tl, RB (Misc c tl) = Misc c tl.
Hypothesis RC_Misc : forall c tl, RC (Misc c tl) = Misc c tl.
Hypothesis RB_Elem :
  forall t a x cs tl,
    RB (Elem t a x cs tl) = Elem t a x (map RB cs ++ fb t cs) tl.
Hypothesis RC_Elem :
  forall t a x cs tl,
    RC (Elem t a x cs tl) = Elem t a x (map RC cs ++ fc t cs) tl.
Hypothesis fb_RC : forall t cs, fb t (map RC cs) = fb t cs.
Hypothesis fc_RB : forall t cs, fc t (map RB cs) = fc t cs.
Hypothesis RC_fb : forall t cs, map RC (fb t cs) = fb t cs.
Hypothesis RB_fc : forall t cs, map RB (fc t cs) = fc t cs.
Hypothesis apart :
  forall t, (forall cs, fb t cs = []) \/ (forall cs, fc t cs = []).

Lemma append_append_commute n : RB (RC n) = RC (RB n).
Proof.
  induction n as [t a x cs tl IH|c tl] using node_tree_ind;
    [|now rewrite RC_Misc, RB_Misc, RC_Misc].
  rewrite RC_Elem, !RB_Elem, RC_Elem. f_equal.
  rewrite !map_app, !map_map, RB_fc, RC_fb.
  assert (M : map (fun c => RB (RC c)) cs = map (fun c => RC (RB c)) cs)
    by (apply map_ext_in; now apply Forall_forall).
  rewrite M. destruct (apart t) as [Hb|Hc].
  - rewrite !Hb, !app_nil_r, fc_RB. reflexivity.
  - rewrite !Hc, !app_nil_r, fb_RC. reflexivity.
Qed.
End AppendAppend.

Lemma wikidata_tag_of c : tag_of (add_wikidata_corresp c) = tag_of c.
Proof. destruct c; reflexivity. Qed.

Lemma pnd_tag_of c : tag_of (convert_pnd_to_gnd c) = tag_of c.
Proof. destruct c; reflexivity. Qed.

Lemma has_tag_of_tag t c c' : tag_of c' = tag_of c -> has_tag t c' = has_tag t c.
Proof.
  destruct c, c'; simpl; intros H; try discriminate; [|reflexivity].
  now injection H as ->.
Qed.

Lemma wikidata_is_keywords s c :
  is_keywords s (add_wikidata_corresp c) = is_keywords s c.
Proof.
  destruct c as [t a x cs tl|k tl]; [|reflexivity].
  rewrite add_wikidata_corresp_Elem.
  unfold is_keywords, is_wikidata_idno, has_tag, attr_is, attrib_of.
  destruct (Str.eqb t (tei "keywords")) eqn:K; [|reflexivity].
  apply StrFacts.eqb_eq in K. subst t. reflexivity.
Qed.

Lemma pnd_is_keywords s c :
  is_keywords s (convert_pnd_to_gnd c) = is_keywords s c.
Proof.
  destruct c as [t a x cs tl|k tl]; [|reflexivity].
  rewrite convert_pnd_to_gnd_Elem.
  unfold is_keywords, is_pnd_idno, has_tag, attr_is, attrib_of.
  destruct (Str.eqb t (tei "keywords")) eqn:K; [|reflexivity].
  apply StrFacts.eqb_eq in K. subst t. reflexivity.
Qed.

Lemma langusage_extra_tags (g : node -> node) t cs :
  (forall c, tag_of (g c) = tag_of c) ->
  langusage_extra t (map g cs) = langusage_extra t cs.
Proof.
  intros Hg. unfold langusage_extra, langusage_added.
  rewrite (existsb_map_ext (has_tag (tei "langUsage"))
             (has_tag (tei "langUsage")) g cs); [reflexivity|].
  intros c. apply has_tag_of_tag, Hg.
Qed.

Lemma keywords_extra_groups (g : node -> node) t cs :
  (forall s c, is_keywords s (g c) = is_keywords s c) ->
  keywords_extra t (map g cs) = keywords_extra t cs.
Proof.
  intros Hg. unfold keywords_extra.
  destruct (Str.eqb t (tei "textClass")); [|reflexivity].
  assert (H : forall s extra,
             has_group s (map g cs ++ extra) = has_group s (cs ++ extra)).
  { intros s extra. rewrite !has_group_app. f_equal.
    apply existsb_map_ext. apply Hg. }
  assert (H0 : forall s, has_group s (map g cs) = has_group s cs).
  { intros s. apply existsb_map_ext. apply Hg. }
  unfold keywords_added, group_added. cbv zeta.
  rewrite H0. rewrite !H. reflexivity.
Qed.

Lemma langusage_extra_fixed (g : node -> node) t cs :
  g langusage_block = langusage_block ->
  map g (langusage_extra t cs) = langusage_extra t cs.
Proof.
  intros Hg. unfold langusage_extra, langusage_added.
  destruct (Str.eqb t _); [|reflexivity].
  destruct (existsb _ cs); [reflexivity|]. simpl. now rewrite Hg.
Qed.

Lemma keywords_extra_fixed (g : node -> node) t cs :
  g kw_bk = kw_bk -> g kw_gnd = kw_gnd -> g kw_tg = kw_tg ->
  map g (keywords_extra t cs) = keywords_extra t cs.
Proof.
  intros H1 H2 H3. unfold keywords_extra, keywords_added, group_added.
  destruct (Str.eqb t _); [|reflexivity]. cbv zeta.
  destruct (has_group BK_SCHEME cs);
    destruct (has_group GND_SCHEME _);
    destruct (has_group TG_SCHEME _);
    simpl; rewrite ?H1, ?H2, ?H3; reflexivity.
Qed.

Lemma langusage_tag_of c : tag_of (ensure_langusage_spanish c) = tag_of c.
Proof. destruct c; reflexivity. Qed.

Lemma keywords_tag_of c : tag_of (ensure_textclass_keywords c) = tag_of c.
Proof. destruct c; reflexivity. Qed.

Lemma langusage_is_keywords s c :
  is_keywords s (ensure_langusage_spanish c) = is_keywords s c.
Proof. destruct c; reflexivity. Qed.

Lemma extras_apart t :
  (forall cs, langusage_extra t cs = [])
  \/ (forall cs, keywords_extra t cs = []).
Proof.
  unfold langusage_extra, keywords_extra.
  destruct (Str.eqb t (tei "profileDesc")) eqn:E.
  - right. intros cs. apply StrFacts.eqb_eq in E. subst t. reflexivity.
  - left. reflexivity.
Qed.

(** X12: the first four rules can run in any order.  For any two of
    the rules that link identifiers, convert identifiers, ensure the
    language block and ensure the keyword groups, running one and then
    the other gives the same document as running them the other way
    round. *)
Theorem header_scans_commute basename r1 r2 root :
  header_scan r1 = true -> header_scan r2 = true ->
  apply_rule basename r1 (apply_rule basename r2 root)
  = apply_rule basename r2 (apply_rule basename r1 root).
Proof.
  assert (H12 := wikidata_pnd_commute).
  assert (H13 : forall n, add_wikidata_corresp (ensure_langusage_spanish n)
                          = ensure_langusage_spanish (add_wikidata_corresp n)).
  { apply attrib_append_commute
      with (fa := fun t a x =>
                    if is_wikidata_idno (Elem t a x [] None)
                    then wikidata_body a x else a)
           (fb := langusage_extra); try reflexivity.
    - intros. apply langusage_extra_tags, wikidata_tag_of.
    - intros. now apply langusage_extra_fixed. }
  assert (H14 : forall n, add_wikidata_corresp (ensure_textclass_keywords n)
                          = ensure_textclass_keywords (add_wikidata_corresp n)).
  { apply attrib_append_commute
      with (fa := fun t a x =>
                    if is_wikidata_idno (Elem t a x [] None)
                    then wikidata_body a x else a)
           (fb := keywords_extra); try reflexivity.
    - intros. apply keywords_extra_groups, wikidata_is_keywords.
    - intros. now apply keywords_extra_fixed. }
  assert (H23 : forall n, convert_pnd_to_gnd (ensure_langusage_spanish n)
                          = ensure_langusage_spanish (convert_pnd_to_gnd n)).
  { apply attrib_append_commute
      with (fa := fun t a x =>
                    if is_pnd_idno (Elem t a x [] None)
                    then pnd_body a x else a)
           (fb := langusage_extra); try reflexivity.
    - intros. apply langusage_extra_tags, pnd_tag_of.
    - intros. now apply langusage_extra_fixed. }
  assert (H24 : forall n, convert_pnd_to_gnd (ensure_textclass_keywords n)
                          = ensure_textclass_keywords (convert_pnd_to_gnd n)).
  { apply attrib_append_commute
      with (fa := fun t a x =>
                    if is_pnd_idno (Elem t a x [] None)
                    then pnd_body a x else a)
           (fb := keywords_extra); try reflexivity.
    - intros. apply keywords_extra_groups, pnd_is_keywords.
    - intros. now apply keywords_extra_fixed. }
  assert (H34 : forall n,
             ensure_langusage_spanish (ensure_textclass_keywords n)
             = ensure_textclass_keywords (ensure_langusage_spanish n)).
  { apply append_append_commute
      with (fb := langusage_extra) (fc := keywords_extra); try reflexivity.
    - intros. apply langusage_extra_tags, keywords_tag_of.
    - intros. apply keywords_extra_groups, langusage_is_keywords.
    - intros. now apply langusage_extra_fixed.
    - intros. now apply keywords_extra_fixed.
    - apply extras_apart. }
  destruct r1, r2; simpl; intros; try discriminate; auto.
Qed.

Lemma header_scans_commute_witness :
  header_scan ConvertPndToGnd = true
  /\ header_scan EnsureTextclassKeywords = true
  /\ apply_rule [] ConvertPndToGnd
       (apply_rule [] EnsureTextclassKeywords doc_two_idnos)
     = apply_rule [] EnsureTextclassKeywords
         (apply_rule [] ConvertPndToGnd doc_two_idnos).
Proof.
  split; [reflexivity|]. split; [reflexivity|].
  apply (@header_scans_commute [] ConvertPndToGnd EnsureTextclassKeywords
           doc_two_idnos); reflexivity.
Defined.


(* ------------------------------------------------------------------ *)
(** ** A second run of the pipeline *)

Lemma update_at_id (f : node -> node) p :
  forall n e, get_at p n = Some e -> f e = e -> update_at p f n = n.
Proof.
  induction p as [|i p IH]; intros n e Hg Hf; simpl in *.
  - congruence.
  - destruct n as [t a x cs tl|c tl]; [|reflexivity].
    f_equal. apply update_nth_id. intros c Hc.
    simpl in Hg. rewrite Hc in Hg. now apply IH with (e := e).
Qed.

Lemma set_text_same v c : text_of c = Some v -> set_text v c = c.
Proof. destruct c; simpl; [now intros -> | reflexivity]. Qed.

Lemma publisher_body_done ps :
  (exists pub, find_child (tei "publisher") ps = Some pub
               /\ text_of pub = Some PUBLISHER_TEXT) ->
  publisher_body ps = ps.
Proof.
  intros (pub & Hf & Ht). destruct ps as [t a x cs tl|c tl]; [|reflexivity].
  unfold find_child in Hf. simpl in Hf. unfold publisher_body.
  destruct (update_first _ _ cs) as [cs'|] eqn:U.
  - destruct (update_first_some _ _ _ U)
      as (l1 & c & l2 & -> & -> & _ & H2).
    rewrite Hf in H2. injection H2 as <-.
    now rewrite set_text_same.
  - apply update_first_none in U. congruence.
Qed.

Lemma ensure_publisher_done d :
  (forall p ps rest, pub_stmts d = (p, ps) :: rest ->
                     publication_complete ps) ->
  ensure_publisher d = d.
Proof.
  intros H. unfold ensure_publisher.
  destruct (pub_stmts d) as [|[p ps] rest] eqn:E; [reflexivity|].
  destruct (pub_stmts_head _ E) as [G _].
  apply update_at_id with (e := ps); [exact G|].
  apply publisher_body_done. exact (proj1 (H _ _ _ eq_refl)).
Qed.

Lemma ensure_caldracor_id_done d b :
  (forall p ps rest, pub_stmts d = (p, ps) :: rest ->
                     publication_complete ps) ->
  ensure_caldracor_id d b = d.
Proof.
  intros H. unfold ensure_caldracor_id.
  destruct (pub_stmts d) as [|[p ps] rest] eqn:E; [reflexivity|].
  now rewrite (proj2 (H _ _ _ eq_refl)).
Qed.

Lemma ensure_creation_done d :
  creation_settled d -> ensure_creation_from_events d = d.
Proof.
  intros H. unfold ensure_creation_from_events.
  destruct (select_desc is_profile_desc d) as [|[q pd] rest] eqn:E;
    [reflexivity|].
  destruct (H _ _ _ E) as [X|V].
  - now rewrite X.
  - rewrite V. now destruct (existsb _ _).
Qed.

(** X13: a second run of the whole pipeline.  If the name normaliser
    finds nothing to change in the document the pipeline returned, then
    running the pipeline again on that document, with the same document
    id, returns it unchanged: the other seven rules have nothing left to
    do after the first run. *)
Theorem pipeline_second_run basename root :
  normalize_persname_rojas (process_tree basename root)
  = process_tree basename root ->
  process_tree basename (process_tree basename root)
  = process_tree basename root.
Proof.
  intros H5.
  destruct (pipeline_all_quiet basename root) as (Q1 & Q2 & Q3 & Q4).
  assert (P : forall p ps rest,
             pub_stmts (process_tree basename root) = (p, ps) :: rest ->
             publication_complete ps).
  { rewrite process_tree_unfold. intros p ps rest E.
    eapply publication_after_8; [|exact E].
    intros p7 ps7 rest7. apply publication_after_7. }
  assert (C : creation_settled (process_tree basename root)).
  { rewrite process_tree_unfold. intros q pd rest.
    apply creation_after. }
  remember (process_tree basename root) as out eqn:Eout.
  rewrite (process_tree_unfold basename out).
  assert (E1 : add_wikidata_corresp out = out).
  { apply local_quiet with (fires := wikidata_fires) (anc := []).
    - reflexivity.
    - apply wikidata_local.
    - now apply all_quiet_select_nil. }
  assert (E2 : convert_pnd_to_gnd out = out).
  { apply local_quiet with (fires := pnd_fires) (anc := []).
    - reflexivity.
    - apply pnd_local.
    - now apply all_quiet_select_nil. }
  assert (E3 : ensure_langusage_spanish out = out).
  { apply local_quiet with (fires := langusage_fires) (anc := []).
    - reflexivity.
    - apply langusage_local.
    - now apply all_quiet_select_nil. }
  assert (E4 : ensure_textclass_keywords out = out).
  { apply local_quiet with (fires := keywords_fires) (anc := []).
    - reflexivity.
    - apply keywords_local.
    - now apply all_quiet_select_nil. }
  rewrite E1, E2, E3, E4, H5.
  rewrite (@ensure_publisher_done out P),
    (@ensure_caldracor_id_done out basename P).
  now apply ensure_creation_done.
Qed.

Lemma pipeline_second_run_witness :
  normalize_persname_rojas (process_tree (u "comedia42") doc_print_event)
  = process_tree (u "comedia42") doc_print_event
  /\ process_tree (u "comedia42")
       (process_tree (u "comedia42") doc_print_event)
     = process_tree (u "comedia42") doc_print_event.
Proof.
  split; [vm_compute; reflexivity|].
  apply (@pipeline_second_run (u "comedia42") doc_print_event).
  vm_compute. reflexivity.
Defined.


(* ------------------------------------------------------------------ *)
(** ** Entries marked as the contributor's *)

Lemma normalize_from_marked n :
  forall anc q e,
    get_at q (normalize_from (parent_is (tei "respStmt") anc) n) = Some e ->
    parent_is (tei "respStmt")
      (anc_at q anc (normalize_from (parent_is (tei "respStmt") anc) n))
    = true ->
    has_tag (tei "persName") e = true ->
    Attr.get XML_ID (attrib_of e) = Some (u "rojas") ->
    e = canonical_rojas.
Proof.
  induction n as [t a x cs tl IH|c tl] using node_tree_ind;
    intros anc q e Hg Hp Ht Hid.
  - rewrite normalize_from_Elem in Hg, Hp.
    destruct (is_resp_persname (parent_is (tei "respStmt") anc)
                (Elem t a x cs tl)
              && rojas_heuristic (Elem t a x cs tl)) eqn:F.
    + destruct q as [|i q].
      * injection Hg as <-. simpl in Ht. apply StrFacts.eqb_eq in Ht.
        subst t. reflexivity.
      * destruct i as [|[|i]]; simpl in Hg.
        -- destruct q as [|j q]; [|destruct j; discriminate].
           injection Hg as <-. discriminate.
        -- destruct q as [|j q]; [|destruct j; discriminate].
           injection Hg as <-. discriminate.
        -- destruct i; discriminate.
    + destruct q as [|i q].
      * injection Hg as <-. simpl in Hp, Ht, Hid.
        unfold is_resp_persname, rojas_heuristic in F.
        simpl attrib_of in F. rewrite Hp, Hid in F. cbn [andb] in F.
        rewrite StrFacts.eqb_refl in F.
        simpl has_tag in F. rewrite Ht in F. discriminate.
      * cbn [get_at children_of anc_at] in Hg, Hp.
        rewrite nth_error_map in Hg, Hp.
        destruct (nth_error cs i) as [c|] eqn:Hn; [|discriminate].
        cbn [option_map] in Hg, Hp.
        rewrite Forall_forall in IH.
        apply (IH c (nth_error_In _ _ Hn) (t :: anc) q e); assumption.
  - destruct q as [|i q]; simpl in Hg.
    + injection Hg as <-. discriminate.
    + destruct i; discriminate.
Qed.

(** X14: after the name normaliser, an entry marked as the
    contributor's is in canonical form.  Every [persName] child of a
    [respStmt] in the output whose [xml:id] is "rojas" is exactly the
    canonical entry: the [xml:id] and the ORCID link, no text, the
    [forename] and the [surname], no tail. *)
Theorem marked_entries_canonical root q e :
  get_at q (normalize_persname_rojas root) = Some e ->
  parent_is (tei "respStmt") (anc_at q [] (normalize_persname_rojas root))
  = true ->
  has_tag (tei "persName") e = true ->
  Attr.get XML_ID (attrib_of e) = Some (u "rojas") ->
  e = canonical_rojas.
Proof. apply (normalize_from_marked root []). Qed.

Lemma marked_entries_canonical_witness :
  exists e,
    get_at [1; 0; 0; 0; 1] (normalize_persname_rojas doc_nested_entries)
    = Some e
    /\ e = canonical_rojas.
Proof.
  eexists. split; [vm_compute; reflexivity|].
  apply (@marked_entries_canonical doc_nested_entries [1; 0; 0; 0; 1]);
    vm_compute; reflexivity.
Defined.


(* ------------------------------------------------------------------ *)
(** ** Documents without the elements the rules look for *)

Lemma all_nodes_select_nil (Q : node -> bool) sel n :
  (forall anc e, sel anc e = true -> Q e = false) ->
  all_nodes Q n = true -> forall anc, select sel anc n = [].
Proof.
  intros Hsel.
  induction n as [t a x cs tl IH|c tl] using node_tree_ind; intros H anc.
  - rewrite all_nodes_Elem in H. apply andb_true_iff in H.
    destruct H as [H1 H2].
    rewrite select_Elem.
    destruct (sel anc (Elem t a x cs tl)) eqn:S;
      [apply Hsel in S; congruence|].
    simpl. apply select_list_all_nil. apply Forall_forall. intros c Hc.
    rewrite Forall_forall in IH. rewrite forallb_forall in H2.
    apply IH; auto.
  - simpl in H. rewrite andb_true_r in H. rewrite select_Misc.
    destruct (sel anc (Misc c tl)) eqn:S; [|reflexivity].
    apply Hsel in S. congruence.
Qed.

Lemma select_desc_nil sel n :
  (forall anc, select sel anc n = []) -> select_desc sel n = [].
Proof.
  intros H. destruct n as [t a x cs tl|c tl]; [|reflexivity].
  specialize (H []). apply select_nil_Elem in H. destruct H as [_ H].
  simpl. now apply select_list_all_nil.
Qed.

(** X15: a document in which no element is named [idno],
    [profileDesc], [textClass], [persName] or [publicationStmt] goes
    through the pipeline unchanged: nothing is created for a header
    that is not there. *)
Theorem untargeted_document_unchanged basename root :
  all_nodes (fun e => negb (targeted e)) root = true ->
  process_tree basename root = root.
Proof.
  intros H.
  assert (S : forall sel,
             (forall anc e, sel anc e = true -> targeted e = true) ->
             forall anc, select sel anc root = []).
  { intros sel Hsel. apply all_nodes_select_nil with (2 := H).
    intros anc e Hs. now rewrite (Hsel _ _ Hs). }
  assert (E1 : add_wikidata_corresp root = root).
  { apply local_quiet with (fires := wikidata_fires) (anc := []);
      [reflexivity | apply wikidata_local |].
    apply S. unfold wikidata_fires, is_wikidata_idno, targeted.
    intros _ e He. destruct (has_tag (tei "idno") e); [reflexivity|].
    discriminate. }
  assert (E2 : convert_pnd_to_gnd root = root).
  { apply local_quiet with (fires := pnd_fires) (anc := []);
      [reflexivity | apply pnd_local |].
    apply S. unfold pnd_fires, is_pnd_idno, targeted.
    intros _ e He. destruct (has_tag (tei "idno") e); [reflexivity|].
    discriminate. }
  assert (E3 : ensure_langusage_spanish root = root).
  { apply local_quiet with (fires := langusage_fires) (anc := []);
      [reflexivity | apply langusage_local |].
    apply S. unfold langusage_fires, targeted.
    intros _ e He. destruct (has_tag (tei "profileDesc") e);
      [now rewrite orb_true_r | discriminate]. }
  assert (E4 : ensure_textclass_keywords root = root).
  { apply local_quiet with (fires := keywords_fires) (anc := []);
      [reflexivity | apply keywords_local |].
    apply S. unfold keywords_fires, targeted.
    intros _ e He. destruct (has_tag (tei "textClass") e);
      [now rewrite !orb_true_r | discriminate]. }
  assert (E5 : normalize_persname_rojas root = root).
  { apply (persname_quiet root []).
    apply S. unfold persname_fires, is_resp_persname, targeted.
    intros anc e He. destruct (has_tag (tei "persName") e);
      [now rewrite !orb_true_r|].
    now rewrite andb_false_r in He. }
  assert (P : pub_stmts root = []).
  { apply S. unfold is_pub_stmt, targeted.
    intros anc e He. destruct (has_tag (tei "publicationStmt") e);
      [now rewrite !orb_true_r | discriminate]. }
  assert (D : select_desc is_profile_desc root = []).
  { apply select_desc_nil. apply S. unfold is_profile_desc, targeted.
    intros anc e He. rewrite He. now rewrite orb_true_r. }
  rewrite process_tree_unfold, E1, E2, E3, E4, E5.
  unfold ensure_publisher. rewrite P.
  unfold ensure_caldracor_id. rewrite P.
  unfold ensure_creation_from_events. now rewrite D.
Qed.

Lemma untargeted_document_unchanged_witness :
  all_nodes (fun e => negb (targeted e)) doc_without_header = true
  /\ process_tree (u "comedia42") doc_without_header = doc_without_header.
Proof.
  split; [reflexivity|].
  apply untargeted_document_unchanged. reflexivity.
Defined.


(* ------------------------------------------------------------------ *)
(** ** The examples of the specification, evaluated *)

Example wikidata_Q42 :
  add_wikidata_corresp
    (Elem (tei "idno") [(u "type", u "wikidata")] (Some (u "Q42")) [] None)
  = Elem (tei "idno")
      [(u "type", u "wikidata");
       (u "corresp", u "https://www.wikidata.org/wiki/Q42")]
      (Some (u "Q42")) [] None.
Proof. reflexivity. Qed.

Example gnd_118529579 :
  convert_pnd_to_gnd
    (Elem (tei "idno") [(u "type", u "pnd")] (Some (u "118529579")) [] None)
  = Elem (tei "idno")
      [(u "type", u "gnd");
       (u "corresp", u "https://d-nb.info/gnd/118529579")]
      (Some (u "118529579")) [] None.
Proof. reflexivity. Qed.

Example persname_rojas_example :
  normalize_persname_rojas
    (Elem (tei "respStmt") [] None
       [Elem (tei "persName") [(XML_ID, u "rojas")]
          (Some (u "Rojas Castro, Antonio")) [] (Some (u " "))] None)
  = Elem (tei "respStmt") [] None
      [Elem (tei "persName")
         [(XML_ID, u "rojas"); (u "corresp", ORCID_ROJAS)] None
         [Elem (tei "forename") [] (Some (u "Antonio")) [] None;
          Elem (tei "surname") [] (Some (u "Rojas Castro")) [] None]
         None] None.
Proof. vm_compute. reflexivity. Qed.

Example creation_written_example :
  ensure_creation_from_events
    (Elem (tei "TEI") [] None
       [Elem (tei "teiHeader") [] None
          [Elem (tei "profileDesc") [] None [] None] None;
        Elem (tei "standOff") [] None
          [Elem (tei "listEvent") [] None
             [Elem (tei "event") [(u "type", u "print"); (u "when", u "1651")]
                None [] None;
              Elem (tei "event")
                [(u "type", u "written"); (u "notBefore", u "1630");
                 (u "notAfter", u "1640")] None [] None] None] None] None)
  = Elem (tei "TEI") [] None
       [Elem (tei "teiHeader") [] None
          [Elem (tei "profileDesc") [] None
             [Elem (tei "creation") [] None
                [Elem (tei "date")
                   [(u "notBefore", u "1630"); (u "notAfter", u "1640")]
                   None [] None] None] None] None;
        Elem (tei "standOff") [] None
          [Elem (tei "listEvent") [] None
             [Elem (tei "event") [(u "type", u "print"); (u "when", u "1651")]
                None [] None;
              Elem (tei "event")
                [(u "type", u "written"); (u "notBefore", u "1630");
                 (u "notAfter", u "1640")] None [] None] None] None] None.
Proof. vm_compute. reflexivity. Qed.

Example caldracor_comedia42 :
  ensure_caldracor_id
    (Elem (tei "fileDesc") [] None
       [Elem (tei "publicationStmt") [] None [] None] None)
    (u "comedia42")
  = Elem (tei "fileDesc") [] None
      [Elem (tei "publicationStmt") [] None
         [Elem (tei "idno") [(u "type", u "caldracor")]
            (Some (u "comedia42")) [] None] None] None.
Proof. vm_compute. reflexivity. Qed.
